(** * 8cc back end: the scoped hash map (map.c) and the code generator
      (codegen.c), embedded shallowly.

    Conventions of the embedding.
    - A C [int] is a [Z].  The [int] members of [map.c] count slots of
      arrays that exist in memory and stay far below 2^31; they are not
      wrapped.  The frame offset of [codegen.c] sums sizes that the input
      chooses, and a literal is converted from a wider type: there every
      result that can leave the range of [int] is wrapped modulo 2^32,
      see [wrap_int].  [uint32_t] arithmetic (the hash) wraps modulo 2^32
      and the wrap is written out.
    - A C string is its content before the terminating NUL, a [string];
      [strcmp(a, b) == 0] is [String.eqb a b].
    - A C array is a list read with [!!] and written with [<[ i := x ]>];
      an access out of range has no defined behaviour and yields [None].
    - A function whose loop may fail to exit returns an [option]; [None]
      stands for "no result" (non-termination, an out-of-range access, a
      failed [assert] or a call of [error]). *)

From Stdlib Require Import ZArith Lia Ascii String DecimalString.
From stdpp Require Import base option list strings.

Set Warnings "-register-all".
Local Open Scope Z_scope.

(** ** map.c *)

Module CMap.

(** A [char *] stored in the key array: [NULL], [TOMBSTONE] or a string. *)
Inductive kptr : Type :=
| KNull
| KTomb
| KStr (s : string).

(** A [void *]; [0] is [NULL]. *)
Definition vptr : Type := Z.
Definition NULL : vptr := 0.

Definition INIT_SIZE : Z := 16.

(** [*p] is a (signed) [char]; xor-ing it into a [uint32_t] converts it
    modulo 2^32. *)
Definition char_u32 (c : ascii) : Z :=
  let n := Z.of_N (Ascii.N_of_ascii c) in
  if n <? 128 then n else n + (2 ^ 32 - 256).

Fixpoint hash_loop (p : string) (r : Z) : Z :=
  match p with
  | EmptyString => r
  | String c p' => hash_loop p' ((Z.lxor r (char_u32 c) * 16777619) mod 2 ^ 32)
  end.

Definition hash (p : string) : Z := hash_loop p 2166136261.

(** Modelled from the spec: the struct [Map] of the header, which is not
    among the sources, with the members [map.c] uses.  [key] and [val]
    are [None] for a [NULL] array. *)
Inductive Map : Type := mkMap {
  parent : option Map;
  key : option (list kptr);
  val : option (list vptr);
  size : Z;
  nelem : Z;
  nused : Z
}.

(** [calloc(size, ...)] *)
Definition calloc_keys (n : Z) : list kptr := replicate (Z.to_nat n) KNull.
Definition calloc_vals (n : Z) : list vptr := replicate (Z.to_nat n) NULL.

Definition do_make_map (parent : option Map) (size : Z) : Map :=
  mkMap parent (Some (calloc_keys size)) (Some (calloc_vals size)) size 0 0.

(** Modelled from the spec: the macro [EMPTY_MAP] of the header, which is
    not among the sources: a table created empty, all members zero, whose
    backing storage [maybe_rehash] allocates on the first insert. *)
Definition EMPTY_MAP : Map := mkMap None None None 0 0 0.

(** [m->nused < m->size * 0.7].  The product is computed in [double]; the
    constant is 6305039478318694 / 2^53, slightly below 7/10, and its
    product with a power of two, which every capacity is, is exact.  For
    [0 <= size < 2^31] comparing an integer with that product is the
    same as comparing it with seven tenths of the size, see
    [lt_07_double]. *)
Definition lt_07 (n size : Z) : bool := 10 * n <? 7 * size.

(** [m->nelem < m->size * 0.35]; the constant is half the one above, see
    [lt_035_double]. *)
Definition lt_035 (n size : Z) : bool := 20 * n <? 7 * size.

(** The inner loop of [maybe_rehash]: [for (;; j = (j + 1) & mask)], left
    at the first [NULL] slot of the new array.  The loop visits at most
    [mask + 1] different indices, so [fuel] of that many steps decides
    whether it exits. *)
Fixpoint rehash_probe (fuel : nat) (k : list kptr) (mask j : Z) : option Z :=
  match fuel with
  | O => None
  | S f =>
      match k !! Z.to_nat j with
      | Some KNull => Some j
      | Some _ => rehash_probe f k mask (Z.land (j + 1) mask)
      | None => None
      end
  end.

(** The outer loop of [maybe_rehash], with [n] iterations left from [i]. *)
Fixpoint rehash_loop (n : nat) (i : Z) (mk : list kptr) (mv : list vptr)
    (mask : Z) (k : list kptr) (v : list vptr) : option (list kptr * list vptr) :=
  match n with
  | O => Some (k, v)
  | S n' =>
      match mk !! Z.to_nat i with
      | Some (KStr s) =>
          x ← mv !! Z.to_nat i;
          j ← rehash_probe (Z.to_nat (mask + 1)) k mask (Z.land (hash s) mask);
          rehash_loop n' (i + 1) mk mv mask
            (<[Z.to_nat j := KStr s]> k) (<[Z.to_nat j := x]> v)
      | Some _ => rehash_loop n' (i + 1) mk mv mask k v
      | None => None
      end
  end.

Definition maybe_rehash (m : Map) : option Map :=
  match key m with
  | None =>
      Some (mkMap (parent m) (Some (calloc_keys INIT_SIZE))
              (Some (calloc_vals INIT_SIZE)) INIT_SIZE (nelem m) (nused m))
  | Some mk =>
      if lt_07 (nused m) (size m) then Some m
      else
        let newsize := if lt_035 (nelem m) (size m) then size m else size m * 2 in
        let mask := newsize - 1 in
        let mv := default [] (val m) in
        '(k, v) ← rehash_loop (Z.to_nat (size m)) 0 mk mv mask
                    (calloc_keys newsize) (calloc_vals newsize);
        Some (mkMap (parent m) (Some k) (Some v) newsize (nelem m) (nelem m))
  end.

Definition make_map : Map := do_make_map None INIT_SIZE.

Definition make_map_parent (parent : Map) : Map := do_make_map (Some parent) INIT_SIZE.

(** The loop of [map_get_nostack]. *)
Fixpoint get_probe (fuel : nat) (mk : list kptr) (mv : list vptr)
    (mask i : Z) (key : string) : option vptr :=
  match fuel with
  | O => None
  | S f =>
      match mk !! Z.to_nat i with
      | Some KNull => Some NULL
      | Some KTomb => get_probe f mk mv mask (Z.land (i + 1) mask) key
      | Some (KStr s) =>
          if String.eqb s key then mv !! Z.to_nat i
          else get_probe f mk mv mask (Z.land (i + 1) mask) key
      | None => None
      end
  end.

Definition map_get_nostack (m : Map) (key : string) : option vptr :=
  match CMap.key m with
  | None => Some NULL
  | Some mk =>
      let mv := default [] (val m) in
      let mask := size m - 1 in
      get_probe (Z.to_nat (size m)) mk mv mask (Z.land (hash key) mask) key
  end.

Fixpoint map_get (m : Map) (key : string) : option vptr :=
  r ← map_get_nostack m key;
  if negb (r =? NULL) then Some r
  else
    match m with
    | mkMap (Some p) _ _ _ _ _ => map_get p key
    | mkMap None _ _ _ _ _ => Some NULL
    end.

(** The loop of [map_put], on the table [m] left by [maybe_rehash]. *)
Fixpoint put_probe (fuel : nat) (m : Map) (mk : list kptr) (mv : list vptr)
    (mask i : Z) (key : string) (v : vptr) : option Map :=
  match fuel with
  | O => None
  | S f =>
      match mk !! Z.to_nat i with
      | Some KNull =>
          Some (mkMap (parent m) (Some (<[Z.to_nat i := KStr key]> mk))
                  (Some (<[Z.to_nat i := v]> mv)) (size m) (nelem m + 1) (nused m + 1))
      | Some KTomb =>
          Some (mkMap (parent m) (Some (<[Z.to_nat i := KStr key]> mk))
                  (Some (<[Z.to_nat i := v]> mv)) (size m) (nelem m + 1) (nused m))
      | Some (KStr k) =>
          if String.eqb k key then
            Some (mkMap (parent m) (Some mk) (Some (<[Z.to_nat i := v]> mv))
                    (size m) (nelem m) (nused m))
          else put_probe f m mk mv mask (Z.land (i + 1) mask) key v
      | None => None
      end
  end.

Definition map_put (m0 : Map) (key : string) (v : vptr) : option Map :=
  m ← maybe_rehash m0;
  mk ← CMap.key m;
  mv ← val m;
  let mask := size m - 1 in
  put_probe (Z.to_nat (size m)) m mk mv mask (Z.land (hash key) mask) key v.

(** The loop of [map_remove]. *)
Fixpoint remove_probe (fuel : nat) (m : Map) (mk : list kptr)
    (mask i : Z) (key : string) : option Map :=
  match fuel with
  | O => None
  | S f =>
      match mk !! Z.to_nat i with
      | Some KNull => Some m
      | Some KTomb => remove_probe f m mk mask (Z.land (i + 1) mask) key
      | Some (KStr k) =>
          if String.eqb k key then
            mv ← val m;
            Some (mkMap (parent m) (Some (<[Z.to_nat i := KTomb]> mk))
                    (Some (<[Z.to_nat i := NULL]> mv)) (size m) (nelem m - 1) (nused m))
          else remove_probe f m mk mask (Z.land (i + 1) mask) key
      | None => None
      end
  end.

Definition map_remove (m : Map) (key : string) : option Map :=
  match CMap.key m with
  | None => Some m
  | Some mk =>
      let mask := size m - 1 in
      remove_probe (Z.to_nat (size m)) m mk mask (Z.land (hash key) mask) key
  end.

Definition map_len (m : Map) : Z := nelem m.

(** Modelled from the spec: the struct [MapIter] of the header, which is
    not among the sources.  [map] is the table the iteration started
    from; [cur], a pointer into the parent chain of [map], is the number
    of [parent] links from [map] to it, or [None] for [NULL]. *)
Record MapIter : Type := mkIter {
  it_map : Map;
  it_cur : option nat;
  it_i : Z
}.

Definition map_iter (m : Map) : MapIter := mkIter m (Some 0%nat) 0.

Fixpoint nth_parent (m : Map) (d : nat) : option Map :=
  match d with
  | O => Some m
  | S d' =>
      match m with
      | mkMap (Some p) _ _ _ _ _ => nth_parent p d'
      | mkMap None _ _ _ _ _ => None
      end
  end.

(** [do_map_next] on the table [m = iter->cur], with [n] iterations left
    from [i]: the key and value found, if any, and the new [iter->i]. *)
Fixpoint do_map_next (n : nat) (m : Map) (mk : list kptr) (mv : list vptr)
    (i : Z) : option (option (string * vptr) * Z) :=
  match n with
  | O => Some (None, size m)
  | S n' =>
      match mk !! Z.to_nat i with
      | Some (KStr k) => x ← mv !! Z.to_nat i; Some (Some (k, x), i + 1)
      | Some _ => do_map_next n' m mk mv (i + 1)
      | None => None
      end
  end.

(** [is_dup]: the loop over the [d] tables from [p] up to, and without,
    [iter->cur]. *)
Fixpoint is_dup (d : nat) (p : Map) (k : string) : option bool :=
  match d with
  | O => Some false
  | S d' =>
      r ← map_get_nostack p k;
      if negb (r =? NULL) then Some true
      else
        match p with
        | mkMap (Some q) _ _ _ _ _ => is_dup d' q k
        | mkMap None _ _ _ _ _ => None
        end
  end.

(** The [for (;;)] loop of [map_next] inside the table [cur] at depth [d]:
    each round calls [do_map_next], which moves [iter->i] forward, so
    [size - i + 1] rounds are enough. *)
Fixpoint next_in_table (fuel : nat) (top : Map) (d : nat) (cur : Map)
    (i : Z) : option (option (string * vptr) * Z) :=
  match fuel with
  | O => None
  | S f =>
      let mk := default [] (key cur) in
      let mv := default [] (val cur) in
      '(r, i') ← do_map_next (Z.to_nat (size cur - i)) cur mk mv i;
      match r with
      | None => Some (None, i')
      | Some (k, x) =>
          dup ← is_dup d top k;
          if (dup : bool) then next_in_table f top d cur i' else Some (Some (k, x), i')
      end
  end.

(** [map_next] with [iter->cur] the table [cur] at depth [d]; the
    recursive call moves to the parent. *)
Fixpoint map_next_at (top : Map) (d : nat) (cur : Map) (i : Z)
    : option (option (string * vptr) * MapIter) :=
  '(r, i') ← next_in_table (Z.to_nat (size cur - i) + 1) top d cur i;
  match r with
  | Some kv => Some (Some kv, mkIter top (Some d) i')
  | None =>
      match cur with
      | mkMap (Some p) _ _ _ _ _ => map_next_at top (S d) p 0
      | mkMap None _ _ _ _ _ => Some (None, mkIter top None i')
      end
  end.

Definition map_next (iter : MapIter) : option (option (string * vptr) * MapIter) :=
  match it_cur iter with
  | None => Some (None, iter)
  | Some d =>
      cur ← nth_parent (it_map iter) d;
      map_next_at (it_map iter) d cur (it_i iter)
  end.

(** *** Clients: sequences of operations and a full iteration *)

Inductive op : Type :=
| Put (k : string) (v : vptr)
| Remove (k : string).

Definition step (m : Map) (o : op) : option Map :=
  match o with
  | Put k v => map_put m k v
  | Remove k => map_remove m k
  end.

Fixpoint run (ops : list op) (m : Map) : option Map :=
  match ops with
  | [] => Some m
  | o :: ops' => m' ← step m o; run ops' m'
  end.

(** Calls [map_next] until it returns [NULL], at most [fuel] times, and
    collects what it returned. *)
Fixpoint drain (fuel : nat) (iter : MapIter) : option (list (string * vptr)) :=
  match fuel with
  | O => None
  | S f =>
      '(r, iter') ← map_next iter;
      match r with
      | None => Some []
      | Some kv => l ← drain f iter'; Some (kv :: l)
      end
  end.

(** The slots of the table itself, ancestors excluded. *)
Definition slots (m : Map) : list kptr := default [] (key m).

Definition is_str (k : kptr) : bool :=
  match k with KStr _ => true | _ => false end.

Definition is_used (k : kptr) : bool :=
  match k with KNull => false | _ => true end.

Definition holds (k : string) (x : kptr) : bool :=
  match x with KStr s => String.eqb s k | _ => false end.

Fixpoint count (f : kptr → bool) (l : list kptr) : Z :=
  match l with
  | [] => 0
  | x :: l' => (if f x then 1 else 0) + count f l'
  end.

(** Number of slots holding the key [k]. *)
Definition key_count (k : string) (l : list kptr) : Z := count (holds k) l.

(** Occupied plus tombstone slots. *)
Definition used_slots (l : list kptr) : Z := count is_used l.

(** Occupied slots. *)
Definition live_slots (l : list kptr) : Z := count is_str l.

End CMap.

(** ** codegen.c *)

Module Codegen.

Definition NUMREGS : nat := 6.

Definition regs : list string := ["rdi"; "rsi"; "rdx"; "rcx"; "r8"; "r9"].

Inductive opcode : Type := ADD | MUL | RET | ALLOC | LOAD | STORE.

Record Mem : Type := mkMem {
  m_off : Z;
  m_size : Z
}.

(** The [VAR] members of a [Var].  [ptr] is never written or read. *)
Record VarCell : Type := mkVar {
  v_id : Z;
  v_off : Z;
  v_spilled : bool
}.

(** A [Var *].  Every [VAR] is pushed on [vars] when it is made and stays
    there, so its address is its index in [vars]; a [LIT] is never
    changed and is carried by value. *)
Inductive Var : Type :=
| VarAt (a : nat)
| Lit (val : Z).

(** A [void *] argument of an instruction.  Every [Mem] is pushed on [mems]
    when it is made; its address is its index in [mems]. *)
Inductive arg : Type :=
| ANull
| AMem (a : nat)
| AVar (v : Var).

Record Inst : Type := mkInst {
  kind : opcode;
  arg1 : arg;
  arg2 : arg;
  arg3 : arg;
  i_size : Z
}.

Record Func : Type := mkFunc {
  name : string;
  f_insts : list Inst
}.

Record Regmap : Type := mkRegmap {
  rm_v : option nat;
  rm_reg : option string
}.

(** The file's static variables.  A [Vector] is the list of its elements
    and [vec_push] appends; [next_id] is the [static int id] of
    [make_var]; [out] holds the lines written so far, each without its
    newline. *)
Record State : Type := mkState {
  mems : list Mem;
  lvars : CMap.Map;
  vars : list VarCell;
  insts : list Inst;
  offset : Z;
  out : list string;
  next_id : Z;
  reg2var : list Regmap
}.

Definition init_state : State :=
  mkState [] CMap.EMPTY_MAP [] [] 0 [] 1 (replicate NUMREGS (mkRegmap None None)).

Definition set_mems (x : list Mem) (s : State) : State :=
  mkState x (lvars s) (vars s) (insts s) (offset s) (out s) (next_id s) (reg2var s).
Definition set_lvars (x : CMap.Map) (s : State) : State :=
  mkState (mems s) x (vars s) (insts s) (offset s) (out s) (next_id s) (reg2var s).
Definition set_vars (x : list VarCell) (s : State) : State :=
  mkState (mems s) (lvars s) x (insts s) (offset s) (out s) (next_id s) (reg2var s).
Definition set_insts (x : list Inst) (s : State) : State :=
  mkState (mems s) (lvars s) (vars s) x (offset s) (out s) (next_id s) (reg2var s).
Definition set_offset (x : Z) (s : State) : State :=
  mkState (mems s) (lvars s) (vars s) (insts s) x (out s) (next_id s) (reg2var s).
Definition set_out (x : list string) (s : State) : State :=
  mkState (mems s) (lvars s) (vars s) (insts s) (offset s) x (next_id s) (reg2var s).
Definition set_next_id (x : Z) (s : State) : State :=
  mkState (mems s) (lvars s) (vars s) (insts s) (offset s) (out s) x (reg2var s).
Definition set_reg2var (x : list Regmap) (s : State) : State :=
  mkState (mems s) (lvars s) (vars s) (insts s) (offset s) (out s) (next_id s) x.

(** Modelled from the spec: the syntax tree of the header [8cc.h], which
    is not among the sources.  One constructor per node kind [walk] and
    [translate] tell apart, with the members they read: a declaration has
    the size of its type, which [alloc] receives as an [int], its name and
    the values of its initialisers; a literal says whether its type is
    [KIND_INT] and has its value, which [make_literal] receives as an
    [int]; [AST_OTHER] is any other kind. *)
Inductive Node : Type :=
| AST_FUNC (fname : string) (body : Node)
| AST_DECL (ty_size : Z) (varname : string) (declinit : list Node)
| AST_LVAR (varname : string)
| AST_COMPOUND_STMT (stmts : list Node)
| AST_RETURN (retval : Node)
| AST_CONV (operand : Node)
| AST_ADD (left right : Node)
| AST_MUL (left right : Node)
| AST_LITERAL (kind_int : bool) (ival : Z)
| AST_OTHER.

(** *** Constructors *)

(** The address of a [Mem] as a [void *]. *)
Definition mem_ptr (a : nat) : CMap.vptr := Z.of_nat a + 1.

(** The [int] that results when a value is stored in an [int] it does not
    fit: the value modulo 2^32 in the range from -2^31 to 2^31 - 1.  That
    is the conversion from a wider type on the targets 8cc is built for,
    and what their machine arithmetic leaves where an addition or a
    negation of [int]s overflows (which C itself leaves undefined). *)
Definition wrap_int (z : Z) : Z := (z + 2 ^ 31) mod 2 ^ 32 - 2 ^ 31.

(** [make_mem]; the new [Mem] is returned by value.  [size] is the [int]
    the caller passes; [offset += size] and [-offset] are [int]
    arithmetic. *)
Definition make_mem (size : Z) (s : State) : Mem * State :=
  let offset' := wrap_int (offset s + size) in
  (mkMem (wrap_int (- offset')) size, set_offset offset' s).

Section Translate.
(** What [malloc] left in the members [off] and [spilled] of the [Var]
    that gets a given id: [make_var] writes [kind] and [id] only. *)
Variable uninit : Z → Z * bool.

Definition make_var (s : State) : Var * State :=
  let id := next_id s in
  let r := mkVar id (uninit id).1 (uninit id).2 in
  (VarAt (length (vars s)), set_vars (vars s ++ [r]) (set_next_id (id + 1) s)).

Definition alloc (size : Z) (s : State) : nat * State :=
  let '(m, s1) := make_mem size s in
  (length (mems s1), set_mems (mems s1 ++ [m]) s1).

(** [make_literal(int val)]: the value of the literal, converted to
    [int] when it is passed. *)
Definition make_literal (val : Z) : Var := Lit (wrap_int val).

Definition emit (i : Inst) (s : State) : State := set_insts (insts s ++ [i]) s.

(** A [Var *] that may be [NULL], stored in a [void *]. *)
Definition var_arg (v : option Var) : arg :=
  match v with Some x => AVar x | None => ANull end.

(** *** Node -> Inst *)

Fixpoint walk (node : Node) (s : State) : option (option Var * State) :=
  match node with
  | AST_DECL ty_size varname declinit =>
      let '(m, s1) := alloc (Z.max ty_size 8) s in
      lv ← CMap.map_put (lvars s1) varname (mem_ptr m);
      let s2 := set_lvars lv s1 in
      match declinit with
      | init :: _ =>
          '(rhs, s3) ← walk init s2;
          Some (None, emit (mkInst STORE (AMem m) (var_arg rhs) ANull 0) s3)
      | [] => Some (None, s2)
      end
  | AST_LVAR varname =>
      m ← CMap.map_get (lvars s) varname;
      if m =? CMap.NULL then None
      else
        let '(r, s1) := make_var s in
        Some (Some r, emit (mkInst LOAD (AVar r) (AMem (Z.to_nat (m - 1))) ANull 0) s1)
  | AST_COMPOUND_STMT stmts =>
      s' ← (fix loop (body : list Node) (s : State) : option State :=
              match body with
              | [] => Some s
              | n :: body' => '(_, s1) ← walk n s; loop body' s1
              end) stmts s;
      Some (None, s')
  | AST_RETURN retval =>
      '(v, s1) ← walk retval s;
      Some (None, emit (mkInst RET (var_arg v) ANull ANull 0) s1)
  | AST_CONV operand => walk operand s
  | AST_ADD node_left node_right =>
      let '(dst, s1) := make_var s in
      '(lhs, s2) ← walk node_left s1;
      '(rhs, s3) ← walk node_right s2;
      Some (Some dst, emit (mkInst ADD (AVar dst) (var_arg lhs) (var_arg rhs) 0) s3)
  | AST_MUL node_left node_right =>
      let '(dst, s1) := make_var s in
      '(lhs, s2) ← walk node_left s1;
      '(rhs, s3) ← walk node_right s2;
      Some (Some dst, emit (mkInst MUL (AVar dst) (var_arg lhs) (var_arg rhs) 0) s3)
  | AST_LITERAL kind_int ival =>
      if kind_int then Some (Some (make_literal ival), s) else None
  | AST_FUNC _ _ | AST_OTHER => None
  end.

Definition translate (toplevels : list Node) (s : State) : option (Func * State) :=
  match toplevels with
  | [AST_FUNC fname body] =>
      '(_, s1) ← walk body s;
      Some (mkFunc fname (insts s1), s1)
  | _ => None
  end.
End Translate.

(** *** Register allocator *)

(** [fprintf(out, "    "); vfprintf(out, fmt, args); fprintf(out, "\n")] *)
Definition write (line : string) (s : State) : State :=
  set_out (out s ++ ["    " +:+ line]) s.

Definition write_noindent (line : string) (s : State) : State :=
  set_out (out s ++ [line]) s.

(** [%d] *)
Definition dec (z : Z) : string := DecimalString.NilZero.string_of_int (Z.to_int z).

(** [%s] of a [char *]. *)
Definition fmt_s (p : option string) : string := default "(null)" p.

(** The loop of [move_to_head], with [j] counting down. *)
Fixpoint shift_down (j : nat) (r : list Regmap) : option (list Regmap) :=
  match j with
  | O => Some r
  | S j' => x ← r !! j'; shift_down j' (<[S j' := x]> r)
  end.

Definition move_to_head (i : nat) (r : list Regmap) : option (list Regmap) :=
  x ← r !! i;
  r' ← shift_down i r;
  Some (<[0%nat := x]> r').

(** A loop [for (int i = ...; i < NUMREGS; i++)] over [reg2var] that is
    left at the first slot satisfying [p], with [n] iterations to go. *)
Fixpoint first_slot (p : Regmap → bool) (r : list Regmap) (n i : nat) : option (option nat) :=
  match n with
  | O => Some None
  | S n' =>
      x ← r !! i;
      if p x then Some (Some i) else first_slot p r n' (S i)
  end.

Definition holds_var (v : nat) (x : Regmap) : bool := bool_decide (rm_v x = Some v).
Definition is_empty (x : Regmap) : bool := bool_decide (rm_v x = None).

Definition set_spilled (c : VarCell) : VarCell := mkVar (v_id c) (v_off c) true.

(** [regname] of the [VAR] at address [v]. *)
Definition regname (v : nat) (s : State) : option (option string * State) :=
  cached ← first_slot (holds_var v) (reg2var s) NUMREGS 0;
  match cached with
  | Some i =>
      r ← move_to_head i (reg2var s);
      x ← r !! 0%nat;
      Some (rm_reg x, set_reg2var r s)
  | None =>
      empty ← first_slot is_empty (reg2var s) NUMREGS 0;
      match empty with
      | Some i =>
          reg ← regs !! i;
          r ← move_to_head i (<[i := mkRegmap (Some v) (Some reg)]> (reg2var s));
          Some (Some reg, set_reg2var r s)
      | None =>
          last ← reg2var s !! (NUMREGS - 1)%nat;
          let reg := rm_reg last in
          lv ← rm_v last;
          lc ← vars s !! lv;
          let s1 := write ("movq %" +:+ fmt_s reg +:+ ", " +:+ dec (v_off lc) +:+ "(%rbp)  # spill") s in
          let s2 := set_vars (<[lv := set_spilled lc]> (vars s1)) s1 in
          c ← vars s2 !! v;
          let s3 := if v_spilled c
                    then write ("movq " +:+ dec (v_off c) +:+ "(%rbp), %" +:+ fmt_s reg +:+ "  # load") s2
                    else s2 in
          r ← move_to_head (NUMREGS - 1) (<[(NUMREGS - 1)%nat := mkRegmap (Some v) reg]> (reg2var s3));
          Some (reg, set_reg2var r s3)
      end
  end.

(** *** Inst -> x86-64 assembly *)

Definition str (a : arg) (s : State) : option (string * State) :=
  match a with
  | AVar (VarAt v) => '(reg, s') ← regname v s; Some ("%" +:+ fmt_s reg, s')
  | AVar (Lit val) => Some ("$" +:+ dec val, s)
  | _ => None
  end.

Section Emit.
(** C leaves the order in which the arguments of a call are evaluated to
    the compiler; [true] is left to right. *)
Variable left_to_right : bool.

(** The two [str] calls among the arguments of one [write]. *)
Definition str2 (a b : arg) (s : State) : option (string * string * State) :=
  if left_to_right then
    '(x, s1) ← str a s; '(y, s2) ← str b s1; Some (x, y, s2)
  else
    '(y, s1) ← str b s; '(x, s2) ← str a s1; Some (x, y, s2).

Definition print_inst (i : Inst) (s : State) : option State :=
  match kind i with
  | ADD =>
      '(x, y, s1) ← str2 (arg2 i) (arg1 i) s;
      let s2 := write ("movq " +:+ x +:+ ", " +:+ y) s1 in
      '(x', y', s3) ← str2 (arg3 i) (arg1 i) s2;
      Some (write ("addq " +:+ x' +:+ ", " +:+ y') s3)
  | MUL =>
      '(x, y, s1) ← str2 (arg2 i) (arg1 i) s;
      let s2 := write ("movq " +:+ x +:+ ", " +:+ y) s1 in
      '(x', y', s3) ← str2 (arg3 i) (arg1 i) s2;
      Some (write ("imulq " +:+ x' +:+ ", " +:+ y') s3)
  | RET =>
      '(x, s1) ← str (arg1 i) s;
      Some (write "jmp end" (write ("movq " +:+ x +:+ ", %rax") s1))
  | LOAD =>
      match arg2 i with
      | AMem a =>
          rhs ← mems s !! a;
          '(x, s1) ← str (arg1 i) s;
          Some (write ("movq " +:+ dec (m_off rhs) +:+ "(%rbp), " +:+ x) s1)
      | _ => None
      end
  | STORE =>
      match arg1 i with
      | AMem a =>
          lhs ← mems s !! a;
          '(x, s1) ← str (arg2 i) s;
          Some (write ("movq " +:+ x +:+ ", " +:+ dec (m_off lhs) +:+ "(%rbp)") s1)
      | _ => None
      end
  | ALLOC => None
  end.

Fixpoint print_insts (l : list Inst) (s : State) : option State :=
  match l with
  | [] => Some s
  | i :: l' => s1 ← print_inst i s; print_insts l' s1
  end.

Definition print (f : Func) (s : State) : option State := print_insts (f_insts f) s.

(** The loop of [regalloc] over the cells of [vars]. *)
Fixpoint regalloc_loop (l : list VarCell) (offset : Z) : list VarCell * Z :=
  match l with
  | [] => ([], offset)
  | v :: l' =>
      let offset' := wrap_int (offset + 8) in
      let '(r, o) := regalloc_loop l' offset' in
      (mkVar (v_id v) (wrap_int (- offset')) (v_spilled v) :: r, o)
  end.

Definition regalloc (s : State) : State :=
  let '(r, o) := regalloc_loop (vars s) (offset s) in
  set_offset o (set_vars r s).

(** What [compile] writes before it calls [print]. *)
Definition compile_head (f : Func) (s : State) : State :=
  let s := regalloc s in
  let s := write_noindent ".text" s in
  let s := write_noindent (".globl " +:+ name f) s in
  let s := write_noindent (name f +:+ ":") s in
  let s := write "push %rbp" s in
  let s := write "mov %rsp, %rbp" s in
  write ("sub $" +:+ dec (offset s) +:+ ", %rsp") s.

(** What [compile] writes after [print] has returned. *)
Definition compile_tail (s : State) : State :=
  let s := write "end:" s in
  let s := write ("add $" +:+ dec (offset s) +:+ ", %rsp") s in
  let s := write "popq %rbp" s in
  write "ret" s.

Definition compile (f : Func) (s : State) : option State :=
  s1 ← print f (compile_head f s);
  Some (compile_tail s1).

Variable uninit : Z → Z * bool.

Definition codegen (toplevels : list Node) (s : State) : option State :=
  '(f, s1) ← translate uninit toplevels s;
  compile f s1.
End Emit.

End Codegen.

(** * Vocabulary of the statements *)

Import CMap.
Import Codegen.

(** A truth value as a count. *)
Definition b2z (b : bool) : Z := if b then 1 else 0.

(** What [map.c] maintains about a table with backing storage: the capacity
    is a power of two, both arrays have that many entries, and the two
    counters count what their names say. *)
Record wf_arrays (m : Map) (mk : list kptr) (mv : list vptr) : Prop := {
  wf_pow : exists n, 4 <= n /\ size m = 2 ^ n;
  wf_klen : Z.of_nat (length mk) = size m;
  wf_vlen : Z.of_nat (length mv) = size m;
  wf_used : nused m = used_slots mk;
  wf_live : nelem m = live_slots mk
}.

Definition wf (m : Map) : Prop :=
  match key m, val m with
  | Some mk, Some mv => wf_arrays m mk mv
  | Some _, None => False
  | None, _ => size m = 0 /\ nelem m = 0 /\ nused m = 0
  end.

(** A table straight from [make_map], [make_map_parent] or [EMPTY_MAP]. *)
Inductive fresh : Map -> Prop :=
| fresh_make (p : option Map) : fresh (do_make_map p INIT_SIZE)
| fresh_empty : fresh EMPTY_MAP.

(** How one call of a probing loop relates the table it returns to the
    table it was given: same shape, counters moved with the slots. *)
Record probe_post (m : Map) (mk : list kptr) (mv : list vptr) (m' : Map) : Prop := {
  pp_parent : parent m' = parent m;
  pp_size : size m' = size m;
  pp_arrays : exists mk' mv',
    key m' = Some mk' /\ val m' = Some mv' /\
    length mk' = length mk /\ length mv' = length mv /\
    nused m' - used_slots mk' = nused m - used_slots mk /\
    nelem m' - live_slots mk' = nelem m - live_slots mk;
  pp_nused : nused m <= nused m' <= nused m + 1
}.

(** The four calls that leave one key in two slots: ["a"] and ["q"] hash to
    slot 12 of a 16-slot table, so ["q"] sits in slot 13; removing ["a"]
    leaves a tombstone in slot 12, which the second [put] of ["q"] fills
    without looking further. *)
Definition dup_ops : list op :=
  [Put "a" 1; Put "q" 2; Remove "a"; Put "q" 3].

(** Twelve different keys. *)
Definition twelve_puts : list op :=
  (λ k, Put k 7) <$> ["a"; "b"; "c"; "d"; "e"; "f"; "g"; "h"; "i"; "j"; "k"; "l"].

(** ["p"] and ["x2"] hash to slot 15; with ["p"] there, ["x2"] wraps to
    slot 0.  Removing ["p"] and putting ["x2"] again leaves ["x2"] in
    slots 15 (new value) and 0 (old value). *)
Definition wrap_ops : list op :=
  [Put "p" 100; Put "x2" 1; Remove "p"; Put "x2" 2].

(** Eleven insertions of other keys; the last one finds 12 used slots
    and rehashes into 32 slots. *)
Definition more_puts : list op :=
  (λ k, Put k 7) <$> ["a"; "b"; "c"; "d"; "f"; "g"; "h"; "i"; "j"; "k"; "l"].

(** A parent binding ["q"] and a child on which [dup_ops] ran. *)
Definition shadow_parent : option Map := run [Put "q" 10] make_map.

Definition shadow_child : option Map :=
  shadow_parent ≫= λ a, run dup_ops (make_map_parent a).

(** A slot holding a value and its register. *)
Definition occupied (b : nat * string) : Regmap := mkRegmap (Some b.1) (Some b.2).

(** The cache as the list of its bindings, most recently used first: the
    occupied slots come first, the empty ones are [{NULL, NULL}]. *)
Definition slots_of (l : list (nat * string)) : list Regmap :=
  (occupied <$> l) ++ replicate (NUMREGS - length l) (mkRegmap None None).

(** Resolving values one after another, as the emitter does. *)
Fixpoint resolve_all (vs : list nat) (s : State) : option State :=
  match vs with
  | [] => Some s
  | v :: vs' => '(_, s1) ← regname v s; resolve_all vs' s1
  end.

(** The values in the cache, most recently used first. *)
Definition cached_vars (s : State) : list nat := omap rm_v (reg2var s).

Definition spill_line (reg : string) (off : Z) : string :=
  "    movq %" +:+ reg +:+ ", " +:+ dec off +:+ "(%rbp)  # spill".

Definition load_line (reg : string) (off : Z) : string :=
  "    movq " +:+ dec off +:+ "(%rbp), %" +:+ reg +:+ "  # load".

(** The state [regname] leaves when it evicts [w], bound to [reg], for a
    value whose cell is [c]. *)
Definition evicted (s : State) (l : list (nat * string)) (w : nat) (wc : VarCell)
    (reg : string) (c : VarCell) : State :=
  set_reg2var (slots_of l)
    (set_out (out s ++ [spill_line reg (v_off wc)]
                ++ (if v_spilled c then [load_line reg (v_off c)] else []))
       (set_vars (<[w := set_spilled wc]> (vars s)) s)).

(** What holds of the cache while only the values of [U] are resolved
    and [first] was resolved first: [first] is in the last occupied slot,
    bound to [rdi], and no value of [U] occupies two slots. *)
Definition lru_inv (first : nat) (U : list nat) (l : list (nat * string)) : Prop :=
  (exists l0, l = l0 ++ [(first, "rdi"%string)])
  /\ NoDup l.*1 /\ (forall x, x ∈ l.*1 -> x ∈ U).

(** A line written by [write]. *)
Definition indented (line : string) : Prop := exists t, line = "    " +:+ t.

(** [s'] comes from [s] by writing indented lines, the frame offset
    unchanged. *)
Definition extends (s s' : State) : Prop :=
  offset s' = offset s /\ exists body, out s' = out s ++ body /\ Forall indented body.

Definition sum_sizes (l : list Mem) : Z := foldr (λ m acc, m_size m + acc) 0 l.

(** What [walk] keeps: the lines written, and the difference between the
    frame offset and the sizes of the slots on [mems]. *)
Definition frame_kept (s s' : State) : Prop :=
  wrap_int (offset s' - sum_sizes (mems s')) = wrap_int (offset s - sum_sizes (mems s))
  /\ out s' = out s.

(** [int f() { int a = 1; int b = 2; return a + b; }] *)
Definition add_two : list Node :=
  [AST_FUNC "f" (AST_COMPOUND_STMT
     [AST_DECL 4 "a" [AST_LITERAL true 1];
      AST_DECL 4 "b" [AST_LITERAL true 2];
      AST_RETURN (AST_ADD (AST_LVAR "a") (AST_LVAR "b"))])].

(** [int f() { char a[2147483647]; char b[2147483647]; return 0; }]: two
    declarations of the largest size an [int] holds. *)
Definition two_large : list Node :=
  [AST_FUNC "f" (AST_COMPOUND_STMT
     [AST_DECL 2147483647 "a" []; AST_DECL 2147483647 "b" [];
      AST_RETURN (AST_LITERAL true 0)])].

(** [malloc] returning zeroed memory. *)
Definition zeroed (id : Z) : Z * bool := (0, false).

(** [int f() { int a = 1; return ((a + a) + a) + a; }]: four loads and
    three sums, seven values.  The destination of the outermost sum is
    made first (id 1) and resolved last, when the six registers hold the
    six other values. *)
Definition seven_values : list Node :=
  [AST_FUNC "f" (AST_COMPOUND_STMT
     [AST_DECL 4 "a" [AST_LITERAL true 1];
      AST_RETURN
        (AST_ADD (AST_ADD (AST_ADD (AST_LVAR "a") (AST_LVAR "a")) (AST_LVAR "a"))
                 (AST_LVAR "a"))])].

(** [malloc] returning a block whose [spilled] byte is set, for the
    [Var] with id 1. *)
Definition stale_flag (id : Z) : Z * bool := (0, bool_decide (id = 1)).

(** [int f() { return 1; }] *)
Definition return_one : list Node :=
  [AST_FUNC "f" (AST_COMPOUND_STMT [AST_RETURN (AST_LITERAL true 1)])].

(** A table some sequence of [map_put] and [map_remove] calls leaves,
    starting from a fresh one. *)
Definition reachable (m : Map) : Prop :=
  exists m0 ops, fresh m0 /\ run ops m0 = Some m.

(** The bindings two arrays hold, in slot order. *)
Fixpoint entries (mk : list kptr) (mv : list vptr) : list (string * vptr) :=
  match mk, mv with
  | KStr s :: mk', x :: mv' => (s, x) :: entries mk' mv'
  | _ :: mk', _ :: mv' => entries mk' mv'
  | _, _ => []
  end.

(** The bindings of the table itself, ancestors excluded, in slot order. *)
Definition bindings (m : Map) : list (string * vptr) :=
  entries (slots m) (default [] (val m)).

(** The binding one slot holds, if any. *)
Definition slot_entry (x : kptr) (y : vptr) : list (string * vptr) :=
  match x with KStr s => [(s, y)] | _ => [] end.

(** A binding of a key other than [k]. *)
Definition other_key (k : string) (e : string * vptr) : Prop := e.1 <> k.

(** Every table of a parent chain is reachable. *)
Fixpoint chain_reachable (m : Map) : Prop :=
  reachable m /\
  match m with
  | mkMap (Some p) _ _ _ _ _ => chain_reachable p
  | mkMap None _ _ _ _ _ => True
  end.

(** No table of [inner] finds the key of the binding. *)
Definition unshadowed (inner : list Map) (e : string * vptr) : Prop :=
  Forall (λ t, map_get_nostack t e.1 = Some NULL) inner.

(** What an iteration is to yield from the table [cur] on, [inner] being
    the more nested tables: the bindings of [cur] in slot order that no
    table of [inner] shadows, then the same for the parent. *)
Fixpoint iteration_from (inner : list Map) (cur : Map) : list (string * vptr) :=
  filter (unshadowed inner) (bindings cur)
  ++ match cur with
     | mkMap (Some p) _ _ _ _ _ => iteration_from (inner ++ [cur]) p
     | mkMap None _ _ _ _ _ => []
     end.

(** The first [d] tables of the parent chain of [m]. *)
Fixpoint chain_prefix (m : Map) (d : nat) : list Map :=
  match d with
  | O => []
  | S d' =>
      m :: match m with
           | mkMap (Some p) _ _ _ _ _ => chain_prefix p d'
           | mkMap None _ _ _ _ _ => []
           end
  end.

(** What is left to yield for an iterator whose [cur] is the table [cur]
    at depth [d] below [top] and whose [i] is [i]. *)
Definition remaining (top : Map) (d : nat) (cur : Map) (i : Z) : list (string * vptr) :=
  filter (unshadowed (chain_prefix top d))
    (entries (drop (Z.to_nat i) (slots cur)) (drop (Z.to_nat i) (default [] (val cur))))
  ++ match parent cur with
     | Some p => iteration_from (chain_prefix top d ++ [cur]) p
     | None => []
     end.

(** A cache, as the list [l] of its bindings, is well formed for [n]
    values on [vars]: no value is bound twice, every bound value is on
    [vars], and the registers bound are the first [length l] of [regs],
    in some order. *)
Definition cache_inv (n : nat) (l : list (nat * string)) : Prop :=
  NoDup l.*1 /\ (forall x, x ∈ l.*1 -> (x < n)%nat) /\ l.*2 ≡ₚ take (length l) regs.

(** The registers in the cache, most recently used first. *)
Definition cached_regs (s : State) : list string := omap rm_reg (reg2var s).

(** The stack slots of a state, each with its offset from [%rbp] and its
    size: those of the [Mem]s on [mems], then the eight bytes of every
    [VAR] on [vars]. *)
Definition frame_slots (s : State) : list (Z * Z) :=
  ((λ m, (m_off m, m_size m)) <$> mems s) ++ ((λ c, (v_off c, 8)) <$> vars s).

(** Slots laid one below the other from [top] down to [bottom], none
    smaller than eight bytes. *)
Fixpoint laid_out (top : Z) (l : list (Z * Z)) (bottom : Z) : Prop :=
  match l with
  | [] => top = bottom
  | (o, n) :: l' => 8 <= n /\ o + n = top /\ laid_out o l' bottom
  end.

(** Every binding can be reached from the home slot of its key: none of
    the slots from the home slot of a key up to a slot that holds the
    key is [NULL]. *)
Definition no_orphan (mk : list kptr) (size : Z) : Prop :=
  forall (i : Z) (k : string),
    0 <= i < size -> mk !! Z.to_nat i = Some (KStr k) ->
    forall x, 0 <= x < size -> 0 < (i - x) mod size <= (i - hash k) mod size ->
      mk !! Z.to_nat x <> Some KNull.

(** A call of [map_put]. *)
Definition is_put (o : op) : Prop :=
  match o with Put _ _ => True | Remove _ => False end.

(** What a map is to hold for [k] after the calls [ops]: the value of
    the last [map_put] of [k], unless a [map_remove] of [k] follows it;
    [NULL] otherwise. *)
Definition last_put (k : string) (ops : list op) : vptr :=
  foldl (λ acc o,
           match o with
           | Put k' v => if String.eqb k' k then v else acc
           | Remove k' => if String.eqb k' k then NULL else acc
           end) NULL ops.

(** A table that calls of [map_put] alone made, from a fresh one: what
    [lvars] is while [walk] runs. *)
Definition puts_only (m : Map) : Prop :=
  exists m0 ops, fresh m0 /\ Forall is_put ops /\ run ops m0 = Some m.

(** The tree contains a declaration of the name [x]. *)
Fixpoint declares (x : string) (node : Node) : bool :=
  match node with
  | AST_FUNC _ body => declares x body
  | AST_DECL _ varname declinit => String.eqb varname x || existsb (declares x) declinit
  | AST_COMPOUND_STMT stmts => existsb (declares x) stmts
  | AST_RETURN retval => declares x retval
  | AST_CONV operand => declares x operand
  | AST_ADD node_left node_right => declares x node_left || declares x node_right
  | AST_MUL node_left node_right => declares x node_left || declares x node_right
  | AST_LVAR _ | AST_LITERAL _ _ | AST_OTHER => false
  end.

(** Among the nodes [walk] visits there is a reference to the name [x];
    of the initialisers of a declaration [walk] visits the first only. *)
Fixpoint references (x : string) (node : Node) : bool :=
  match node with
  | AST_LVAR varname => String.eqb varname x
  | AST_DECL _ _ (init :: _) => references x init
  | AST_COMPOUND_STMT stmts => existsb (references x) stmts
  | AST_RETURN retval => references x retval
  | AST_CONV operand => references x operand
  | AST_ADD node_left node_right => references x node_left || references x node_right
  | AST_MUL node_left node_right => references x node_left || references x node_right
  | AST_DECL _ _ [] | AST_FUNC _ _ | AST_LITERAL _ _ | AST_OTHER => false
  end.

(** An argument of an instruction that, if it is a [VAR], lies on a
    [vars] of [n] cells. *)
Definition arg_ok (n : nat) (a : arg) : Prop :=
  match a with AVar (VarAt v) => (v < n)%nat | _ => True end.

Definition inst_ok (n : nat) (i : Inst) : Prop :=
  arg_ok n (arg1 i) /\ arg_ok n (arg2 i) /\ arg_ok n (arg3 i).

(** The lines [print] writes for an instruction itself. *)
Definition inst_lines (i : Inst) : nat :=
  match kind i with
  | ADD | MUL | RET => 2
  | LOAD | STORE => 1
  | ALLOC => 0
  end.

(** [s'] differs from [s] in the cache at most, which is well formed,
    and in [k] more lines of output. *)
Definition quiet (s s' : State) (k : nat) : Prop :=
  vars s' = vars s /\ mems s' = mems s
  /\ length (out s') = (length (out s) + k)%nat
  /\ exists l, reg2var s' = slots_of l /\ cache_inv (length (vars s')) l.

(** An expression over the names of [env]: names, conversions, sums,
    products and [int] literals. *)
Fixpoint is_expr (env : list string) (node : Node) : bool :=
  match node with
  | AST_LVAR varname => bool_decide (varname ∈ env)
  | AST_CONV operand => is_expr env operand
  | AST_ADD node_left node_right => is_expr env node_left && is_expr env node_right
  | AST_MUL node_left node_right => is_expr env node_left && is_expr env node_right
  | AST_LITERAL kind_int _ => kind_int
  | AST_FUNC _ _ | AST_DECL _ _ _ | AST_COMPOUND_STMT _ | AST_RETURN _ | AST_OTHER => false
  end.

(** A statement whose expressions use no name before its declaration,
    in the order [walk] visits them, [env] being the names declared
    before; the result is the names declared after it.  A declaration
    is in force in its own initialiser, and stays in force after the
    block it stands in, as in [walk]. *)
Fixpoint stmt_ok (env : list string) (node : Node) : option (list string) :=
  match node with
  | AST_DECL _ varname [] => Some (varname :: env)
  | AST_DECL _ varname (init :: _) =>
      if is_expr (varname :: env) init then Some (varname :: env) else None
  | AST_COMPOUND_STMT stmts =>
      (fix loop (body : list Node) (env : list string) : option (list string) :=
         match body with
         | [] => Some env
         | n :: body' => env' ← stmt_ok env n; loop body' env'
         end) stmts env
  | AST_RETURN retval => if is_expr env retval then Some env else None
  | AST_FUNC _ _ | AST_OTHER => None
  | AST_LVAR _ | AST_CONV _ | AST_ADD _ _ | AST_MUL _ _ | AST_LITERAL _ _ =>
      if is_expr env node then Some env else None
  end.

(** An argument that [str] can print: a [VAR] on a [vars] of [nv] cells,
    or a literal. *)
Definition val_arg (nv : nat) (a : arg) : Prop :=
  match a with
  | AVar (VarAt v) => (v < nv)%nat
  | AVar (Lit _) => True
  | ANull | AMem _ => False
  end.

(** An argument that is a [Mem] on a [mems] of [nm] entries. *)
Definition mem_arg (nm : nat) (a : arg) : Prop :=
  match a with AMem m => (m < nm)%nat | ANull | AVar _ => False end.

(** An instruction [print] can print, with [nv] cells on [vars] and [nm]
    entries on [mems]. *)
Definition printable (nv nm : nat) (i : Inst) : Prop :=
  match kind i with
  | ADD | MUL => val_arg nv (arg1 i) /\ val_arg nv (arg2 i) /\ val_arg nv (arg3 i)
  | RET => val_arg nv (arg1 i)
  | LOAD => val_arg nv (arg1 i) /\ mem_arg nm (arg2 i)
  | STORE => mem_arg nm (arg1 i) /\ val_arg nv (arg2 i)
  | ALLOC => False
  end.

(** Every name of [env] is bound in [lvars] to a [Mem] on [mems]. *)
Definition scope_ok (env : list string) (s : State) : Prop :=
  puts_only (lvars s)
  /\ forall x, x ∈ env ->
       exists a : nat, CMap.map_get (lvars s) x = Some (mem_ptr a) /\ (a < length (mems s))%nat.

(** A state in which [print] can run: the cache is well formed. *)
Definition ready (nv nm : nat) (s : State) : Prop :=
  length (vars s) = nv /\ length (mems s) = nm
  /\ exists l, reg2var s = slots_of l /\ cache_inv nv l.

(** What a cache of six slots that evicts the least recently used value
    holds after the values [vs] were resolved one after the other, from
    the empty cache: every value of [vs] once, at the place of its last
    use ([remove_dups] keeps the last occurrence), the one used last
    first; and of these the six used last.  The value used least
    recently among those in the cache is the last of the list. *)
Definition recently_used (vs : list nat) : list nat :=
  take NUMREGS (reverse (remove_dups vs)).

(** * Verification *)

(** ** map.c *)

(** *** The comparison with [size * 0.7] *)

(** With the exact value of the [double] constant, [6305039478318694 / 2^53],
    the test [nused < size * 0.7] is the integer test of [lt_07] for every
    size an [int] can hold. *)
Lemma lt_07_double (n size : Z) :
  0 <= size < 2 ^ 31 ->
  (n * 2 ^ 53 <? size * 6305039478318694) = lt_07 n size.
Proof.
  intros Hs. unfold lt_07.
  destruct (Z.ltb_spec (10 * n) (7 * size)) as [H|H];
    [apply Z.ltb_lt | apply Z.ltb_ge]; lia.
Qed.

Lemma lt_035_double (n size : Z) :
  0 <= size < 2 ^ 31 ->
  (n * 2 ^ 54 <? size * 6305039478318694) = lt_035 n size.
Proof.
  intros Hs. unfold lt_035.
  destruct (Z.ltb_spec (20 * n) (7 * size)) as [H|H];
    [apply Z.ltb_lt | apply Z.ltb_ge]; lia.
Qed.

(** *** Counting slots *)

Lemma count_cons f x l : count f (x :: l) = b2z (f x) + count f l.
Proof. reflexivity. Qed.

Lemma count_insert f (l : list kptr) (i : nat) x y :
  l !! i = Some x ->
  count f (<[i := y]> l) = count f l - b2z (f x) + b2z (f y).
Proof.
  revert i. induction l as [|a l IH]; intros [|i] H; simplify_eq/=.
  - destruct (f x), (f y); simpl; lia.
  - rewrite (IH i H). destruct (f a), (f x), (f y); simpl; lia.
Qed.

Lemma count_replicate f (n : nat) x :
  f x = false -> count f (replicate n x) = 0.
Proof. intros H. induction n as [|n IH]; simpl; [done|]. rewrite H, IH. done. Qed.

Lemma count_range f (l : list kptr) : 0 <= count f l <= Z.of_nat (length l).
Proof. induction l as [|a l IH]; simpl; [lia|]. destruct (f a); lia. Qed.

Lemma count_mono f g (l : list kptr) :
  (forall x, f x = true -> g x = true) -> count f l <= count g l.
Proof.
  intros H. induction l as [|a l IH]; simpl; [lia|].
  destruct (f a) eqn:E; [rewrite (H a E)|destruct (g a)]; lia.
Qed.

Lemma live_le_used l : live_slots l <= used_slots l.
Proof. apply count_mono. by intros []. Qed.

Lemma count_zero_iff f (l : list kptr) :
  count f l = 0 <-> forall x, In x l -> f x = false.
Proof.
  induction l as [|a l IH]; simpl.
  - split; [intros _ x []|done].
  - pose proof (count_range f l) as Hr. split.
    + intros H x [->|Hx]; [destruct (f x); [lia|done]|].
      apply IH; [destruct (f a); lia|done].
    + intros H. rewrite (H a) by auto. apply IH. auto.
Qed.

(** A table that is not full has a [NULL] slot. *)
Lemma free_slot_exists (l : list kptr) :
  used_slots l < Z.of_nat (length l) -> exists j : nat, l !! j = Some KNull.
Proof.
  unfold used_slots. induction l as [|a l IH]; simpl; [lia|].
  destruct a; simpl; intros H.
  - by exists 0%nat.
  - destruct IH as [j Hj]; [lia|]. by exists (S j).
  - destruct IH as [j Hj]; [lia|]. by exists (S j).
Qed.

(** *** Linear probing under a power-of-two mask *)

Section Probing.
Variable n : Z.
Hypothesis Hn : 0 <= n.

Lemma mask_land (a : Z) : Z.land a (2 ^ n - 1) = a mod 2 ^ n.
Proof. rewrite <- Z.land_ones by done. by rewrite Z.ones_equiv, <- Z.sub_1_r. Qed.

Lemma mask_range (a : Z) : 0 <= Z.land a (2 ^ n - 1) < 2 ^ n.
Proof. rewrite mask_land. apply Z.mod_pos_bound. lia. Qed.

(** Moving the probe one slot forward brings it one step closer to any
    other slot [j]. *)
Lemma probe_closer (i j : Z) :
  0 <= i < 2 ^ n -> 0 <= j < 2 ^ n -> i <> j ->
  (j - Z.land (i + 1) (2 ^ n - 1)) mod 2 ^ n = (j - i) mod 2 ^ n - 1.
Proof.
  intros Hi Hj Hne. rewrite mask_land.
  destruct (decide (i + 1 = 2 ^ n)) as [E|E].
  - rewrite E, Z.mod_same by lia.
    replace (j - i) with (j + 1 + - 1 * 2 ^ n) by lia.
    rewrite Z.mod_add by lia. rewrite !Z.mod_small; lia.
  - rewrite (Z.mod_small (i + 1)) by lia.
    destruct (decide (i < j)).
    + rewrite !Z.mod_small; lia.
    + replace (j - (i + 1)) with (j - i - 1 + 2 ^ n + - 1 * 2 ^ n) by lia.
      replace (j - i) with (j - i + 2 ^ n + - 1 * 2 ^ n) at 2 by lia.
      rewrite !Z.mod_add by lia. rewrite !Z.mod_small; lia.
Qed.

Lemma probe_dist_pos (i j : Z) :
  0 <= i < 2 ^ n -> 0 <= j < 2 ^ n -> i <> j -> 0 < (j - i) mod 2 ^ n.
Proof.
  intros Hi Hj Hne.
  destruct (decide (i < j)); [rewrite Z.mod_small; lia|].
  replace (j - i) with (j - i + 2 ^ n + - 1 * 2 ^ n) by lia.
  rewrite Z.mod_add by lia. rewrite Z.mod_small; lia.
Qed.

Lemma probe_dist_bound (i j : Z) : (j - i) mod 2 ^ n < 2 ^ n.
Proof. apply Z.mod_pos_bound. lia. Qed.
End Probing.

(** *** Well-formed tables *)

Lemma wf_do_make_map p : wf (do_make_map p INIT_SIZE).
Proof.
  unfold wf; simpl. split; simpl; try done.
  exists 4. done.
Qed.

Lemma wf_fresh m : fresh m -> wf m.
Proof. intros [p|]; [apply wf_do_make_map|done]. Qed.

Lemma lookup_in_range {A} (l : list A) (size i : Z) :
  Z.of_nat (length l) = size -> 0 <= i < size -> exists x, l !! Z.to_nat i = Some x.
Proof.
  intros Hl Hi. destruct (lookup_lt_is_Some_2 l (Z.to_nat i)) as [x Hx]; [lia|eauto].
Qed.

Section ProbeLoops.
Variables (m : Map) (mk : list kptr) (mv : list vptr) (n : Z).
Hypothesis Hn : 0 <= n.
Hypothesis Hsize : size m = 2 ^ n.
Hypothesis Hklen : Z.of_nat (length mk) = size m.
Hypothesis Hvlen : Z.of_nat (length mv) = size m.
Hypothesis Hkey : key m = Some mk.
Hypothesis Hval : val m = Some mv.

Lemma put_probe_spec (k : string) (v : vptr) (j : Z) :
  0 <= j < size m -> mk !! Z.to_nat j = Some KNull ->
  forall (fuel : nat) (i : Z),
    0 <= i < size m -> (j - i) mod size m < Z.of_nat fuel ->
    exists m', put_probe fuel m mk mv (size m - 1) i k v = Some m'
               /\ probe_post m mk mv m'.
Proof.
  intros Hj Hnull. induction fuel as [|fuel IH]; intros i Hi Hd.
  { pose proof (Z.mod_pos_bound (j - i) (size m)). lia. }
  destruct (lookup_in_range mk (size m) i Hklen Hi) as [x Hx].
  destruct (lookup_in_range mv (size m) i Hvlen Hi) as [y Hy].
  simpl. rewrite Hx. destruct x as [| |s].
  - eexists; split; [done|]. split; simpl; try done; try lia.
    eexists _, _. repeat split; rewrite ?length_insert; try done.
    + unfold used_slots. rewrite (count_insert _ _ _ _ _ Hx). simpl. lia.
    + unfold live_slots. rewrite (count_insert _ _ _ _ _ Hx). simpl. lia.
  - eexists; split; [done|]. split; simpl; try done; try lia.
    eexists _, _. repeat split; rewrite ?length_insert; try done.
    + unfold used_slots. rewrite (count_insert _ _ _ _ _ Hx). simpl. lia.
    + unfold live_slots. rewrite (count_insert _ _ _ _ _ Hx). simpl. lia.
  - destruct (String.eqb s k).
    + eexists; split; [done|]. split; simpl; try done; try lia.
      eexists _, _. repeat split; rewrite ?length_insert; done.
    + assert (i <> j) as Hne by (intros ->; congruence).
      rewrite Hsize in *.
      apply IH; [apply mask_range; done|].
      rewrite probe_closer by done. lia.
Qed.

Lemma remove_probe_spec (k : string) (j : Z) :
  0 <= j < size m -> mk !! Z.to_nat j = Some KNull ->
  forall (fuel : nat) (i : Z),
    0 <= i < size m -> (j - i) mod size m < Z.of_nat fuel ->
    exists m', remove_probe fuel m mk (size m - 1) i k = Some m'
               /\ (m' = m \/ probe_post m mk mv m' /\ nused m' = nused m).
Proof.
  intros Hj Hnull. induction fuel as [|fuel IH]; intros i Hi Hd.
  { pose proof (Z.mod_pos_bound (j - i) (size m)). lia. }
  destruct (lookup_in_range mk (size m) i Hklen Hi) as [x Hx].
  assert (forall x, mk !! Z.to_nat i = Some x -> x <> KNull ->
    exists m', remove_probe fuel m mk (size m - 1) (Z.land (i + 1) (size m - 1)) k = Some m'
               /\ (m' = m \/ probe_post m mk mv m' /\ nused m' = nused m)) as Hnext.
  { intros x' Hx' Hnn. assert (i <> j) as Hne by (intros ->; congruence).
    rewrite Hsize in *.
    apply IH; [apply mask_range; done|].
    rewrite probe_closer by done. lia. }
  simpl. rewrite Hx. destruct x as [| |s].
  - eauto.
  - by eapply Hnext.
  - destruct (String.eqb s k); [|by eapply Hnext].
    rewrite Hval. simpl.
    eexists; split; [done|]. right. split; [|done].
    split; simpl; try done; try lia.
    eexists _, _. repeat split; rewrite ?length_insert; try done.
    + unfold used_slots. rewrite (count_insert _ _ _ _ _ Hx). simpl. lia.
    + unfold live_slots. rewrite (count_insert _ _ _ _ _ Hx). simpl. lia.
Qed.

(** A key held by no slot is not found: the loop leaves the table as it
    is. *)
Lemma remove_probe_absent (k : string) (j : Z) :
  (forall x, In x mk -> holds k x = false) ->
  0 <= j < size m -> mk !! Z.to_nat j = Some KNull ->
  forall (fuel : nat) (i : Z),
    0 <= i < size m -> (j - i) mod size m < Z.of_nat fuel ->
    remove_probe fuel m mk (size m - 1) i k = Some m.
Proof.
  intros Habs Hj Hnull. induction fuel as [|fuel IH]; intros i Hi Hd.
  { pose proof (Z.mod_pos_bound (j - i) (size m)). lia. }
  destruct (lookup_in_range mk (size m) i Hklen Hi) as [x Hx].
  assert (x <> KNull ->
    remove_probe fuel m mk (size m - 1) (Z.land (i + 1) (size m - 1)) k = Some m) as Hnext.
  { intros Hnn. assert (i <> j) as Hne by (intros ->; congruence).
    rewrite Hsize in *.
    apply IH; [apply mask_range; done|].
    rewrite probe_closer by done. lia. }
  simpl. rewrite Hx. destruct x as [| |s]; [done|by apply Hnext|].
  assert (holds k (KStr s) = false) as Hs.
  { apply Habs. apply list_elem_of_In. by eapply list_elem_of_lookup_2. }
  simpl in Hs. rewrite Hs. by apply Hnext.
Qed.
End ProbeLoops.

(** *** Rehashing *)

Section Rehash.
Variables (n : Z) (mk : list kptr) (mv : list vptr).
Hypothesis Hn : 0 <= n.

Lemma rehash_probe_spec (k : list kptr) (j : Z) :
  Z.of_nat (length k) = 2 ^ n ->
  0 <= j < 2 ^ n -> k !! Z.to_nat j = Some KNull ->
  forall (fuel : nat) (i : Z),
    0 <= i < 2 ^ n -> (j - i) mod 2 ^ n < Z.of_nat fuel ->
    exists j', rehash_probe fuel k (2 ^ n - 1) i = Some j'
               /\ 0 <= j' < 2 ^ n /\ k !! Z.to_nat j' = Some KNull.
Proof.
  intros Hlen Hj Hnull. induction fuel as [|fuel IH]; intros i Hi Hd.
  { pose proof (Z.mod_pos_bound (j - i) (2 ^ n)). lia. }
  destruct (lookup_in_range k (2 ^ n) i Hlen Hi) as [x Hx].
  assert (x <> KNull ->
    exists j', rehash_probe fuel k (2 ^ n - 1) (Z.land (i + 1) (2 ^ n - 1)) = Some j'
               /\ 0 <= j' < 2 ^ n /\ k !! Z.to_nat j' = Some KNull) as Hnext.
  { intros Hnn. assert (i <> j) as Hne by (intros ->; congruence).
    apply IH; [apply mask_range; done|].
    rewrite probe_closer by done. lia. }
  simpl. rewrite Hx. destruct x; [eauto|by apply Hnext..].
Qed.

(** The scan of the old array moves every live key, and nothing else,
    into a [NULL] slot of the new arrays. *)
Lemma rehash_loop_spec :
  length mv = length mk ->
  forall (cnt : nat) (i : Z) (k : list kptr) (v : list vptr),
    0 <= i -> (Z.to_nat i + cnt)%nat = length mk ->
    Z.of_nat (length k) = 2 ^ n -> Z.of_nat (length v) = 2 ^ n ->
    used_slots k = live_slots k ->
    used_slots k + live_slots (drop (Z.to_nat i) mk) < 2 ^ n ->
    exists k' v',
      rehash_loop cnt i mk mv (2 ^ n - 1) k v = Some (k', v')
      /\ Z.of_nat (length k') = 2 ^ n /\ Z.of_nat (length v') = 2 ^ n
      /\ used_slots k' = live_slots k'
      /\ live_slots k' = live_slots k + live_slots (drop (Z.to_nat i) mk).
Proof.
  intros Hmv. induction cnt as [|cnt IH]; intros i k v Hi Hcnt Hk Hv Heq Hroom.
  { simpl. exists k, v. rewrite drop_ge by lia.
    repeat split; try done. unfold live_slots; simpl; lia. }
  destruct (lookup_lt_is_Some_2 mk (Z.to_nat i)) as [x Hx]; [lia|].
  destruct (lookup_lt_is_Some_2 mv (Z.to_nat i)) as [y Hy]; [lia|].
  rewrite (drop_S _ _ _ Hx) in *.
  assert (Z.to_nat (i + 1) = S (Z.to_nat i)) as Hsucc by lia.
  assert (live_slots (x :: drop (S (Z.to_nat i)) mk)
          = b2z (is_str x) + live_slots (drop (S (Z.to_nat i)) mk)) as Hc by done.
  rewrite Hc in *. clear Hc.
  simpl rehash_loop. rewrite Hx.
  assert (is_str x = false ->
    exists k' v',
      rehash_loop cnt (i + 1) mk mv (2 ^ n - 1) k v = Some (k', v')
      /\ Z.of_nat (length k') = 2 ^ n /\ Z.of_nat (length v') = 2 ^ n
      /\ used_slots k' = live_slots k'
      /\ live_slots k' = live_slots k + (b2z (is_str x) + live_slots (drop (S (Z.to_nat i)) mk)))
    as Hskip.
  { intros Hx0. rewrite Hx0 in *. simpl in *.
    destruct (IH (i + 1) k v) as (k' & v' & ? & ? & ? & ? & Hl); try done; try lia.
    - by rewrite Hsucc.
    - exists k', v'. rewrite Hsucc in Hl. repeat split; try done. }
  destruct x as [| |s]; [by apply Hskip..|]. clear Hskip.
  rewrite Hy. simpl in Hroom |- *.
  pose proof (count_range is_str (drop (S (Z.to_nat i)) mk)) as Hr.
  fold (live_slots (drop (S (Z.to_nat i)) mk)) in Hr.
  destruct (free_slot_exists k) as [j0 Hj0]; [lia|].
  pose proof (lookup_lt_Some _ _ _ Hj0) as Hj0lt.
  destruct (rehash_probe_spec k (Z.of_nat j0) Hk) with
    (fuel := Z.to_nat (2 ^ n - 1 + 1)) (i := Z.land (hash s) (2 ^ n - 1))
    as (j & Hj & Hjr & Hjn).
  { lia. }
  { by rewrite Nat2Z.id. }
  { by apply mask_range. }
  { pose proof (Z.mod_pos_bound (Z.of_nat j0 - Z.land (hash s) (2 ^ n - 1)) (2 ^ n)). lia. }
  rewrite Hj. simpl.
  destruct (IH (i + 1) (<[Z.to_nat j := KStr s]> k) (<[Z.to_nat j := y]> v))
    as (k' & v' & ? & ? & ? & ? & Hl); try done; try lia.
  - by rewrite length_insert.
  - by rewrite length_insert.
  - unfold used_slots, live_slots. rewrite !(count_insert _ _ _ _ _ Hjn). simpl.
    unfold used_slots, live_slots in Heq. lia.
  - rewrite Hsucc. unfold used_slots. rewrite (count_insert _ _ _ _ _ Hjn). simpl.
    unfold used_slots in Hroom. lia.
  - exists k', v'. rewrite Hsucc in Hl. repeat split; try done.
    rewrite Hl. unfold live_slots at 1. rewrite (count_insert _ _ _ _ _ Hjn).
    simpl. unfold live_slots. lia.
Qed.
End Rehash.

Lemma calloc_keys_length (s : Z) : 0 <= s -> Z.of_nat (length (calloc_keys s)) = s.
Proof. intros. unfold calloc_keys. rewrite length_replicate. lia. Qed.

Lemma calloc_vals_length (s : Z) : 0 <= s -> Z.of_nat (length (calloc_vals s)) = s.
Proof. intros. unfold calloc_vals. rewrite length_replicate. lia. Qed.

Lemma calloc_keys_count f (s : Z) : f KNull = false -> count f (calloc_keys s) = 0.
Proof. apply count_replicate. Qed.

(** [maybe_rehash] returns, and leaves a table with backing storage whose
    used slots are fewer than 0.7 times its capacity. *)
Lemma maybe_rehash_spec (m : Map) :
  wf m ->
  exists m', maybe_rehash m = Some m' /\ wf m' /\ parent m' = parent m
             /\ is_Some (key m') /\ 10 * nused m' < 7 * size m'.
Proof.
  unfold wf, maybe_rehash.
  destruct (key m) as [mk|] eqn:Hk; [destruct (val m) as [mv|] eqn:Hv; [|done]|].
  - intros [(n & Hn & Hsz) Hkl Hvl Hu Hl].
    destruct (lt_07 (nused m) (size m)) eqn:Hlt.
    { exists m. rewrite Hk, Hv. repeat split; try done; [by exists n|].
      by apply Z.ltb_lt in Hlt. }
    apply Z.ltb_ge in Hlt. simpl.
    assert (0 < 2 ^ n) as Hpos by (apply Z.pow_pos_nonneg; lia).
    pose proof (live_le_used mk) as Hlu.
    pose proof (count_range is_used mk) as Hur. fold (used_slots mk) in Hur.
    pose proof (count_range is_str mk) as Hlr. fold (live_slots mk) in Hlr.
    set (newsize := if lt_035 (nelem m) (size m) then size m else size m * 2).
    assert (exists n', 4 <= n' /\ newsize = 2 ^ n' /\ nelem m < newsize
                       /\ 10 * nelem m < 7 * newsize) as (n' & Hn' & Hns & Hroom & Hload).
    { subst newsize. destruct (lt_035 (nelem m) (size m)) eqn:H35.
      - apply Z.ltb_lt in H35. exists n. lia.
      - exists (n + 1). rewrite Z.pow_add_r by lia. lia. }
    destruct (rehash_loop_spec n' mk mv) with
      (cnt := Z.to_nat (size m)) (i := 0)
      (k := calloc_keys newsize) (v := calloc_vals newsize)
      as (k' & v' & Hrun & Hk' & Hv' & Heq & Hlive); try lia.
    { rewrite <- Hns. apply calloc_keys_length. lia. }
    { rewrite <- Hns. apply calloc_vals_length. lia. }
    { unfold used_slots, live_slots. by rewrite !calloc_keys_count. }
    { unfold used_slots at 1. rewrite calloc_keys_count by done.
      change (Z.to_nat 0) with 0%nat. rewrite drop_0. lia. }
    rewrite <- Hns in Hrun. rewrite Hrun. simpl.
    change (Z.to_nat 0) with 0%nat in Hlive. rewrite drop_0 in Hlive.
    unfold live_slots at 2 in Hlive. rewrite calloc_keys_count in Hlive by done.
    eexists; split; [done|]. simpl. repeat split; simpl; try done; try lia.
    exists n'. done.
  - intros (Hs & He & Hu). eexists; split; [done|]. simpl.
    repeat split; simpl; try done.
    + by exists 4.
    + rewrite Hu. done.
Qed.

(** A well-formed table whose used slots are fewer than its capacity has
    a [NULL] slot for every probe to stop at. *)
Lemma null_slot (m : Map) (mk : list kptr) :
  Z.of_nat (length mk) = size m -> nused m = used_slots mk ->
  nused m < size m ->
  exists j, 0 <= j < size m /\ mk !! Z.to_nat j = Some KNull.
Proof.
  intros Hl Hu Hlt. destruct (free_slot_exists mk) as [j Hj]; [lia|].
  pose proof (lookup_lt_Some _ _ _ Hj). exists (Z.of_nat j).
  rewrite Nat2Z.id. split; [lia|done].
Qed.

Lemma probe_post_wf (m m' : Map) (mk : list kptr) (mv : list vptr) :
  wf_arrays m mk mv -> probe_post m mk mv m' -> wf m'.
Proof.
  intros [Hp Hkl Hvl Hu Hl] [_ Hsz (mk' & mv' & Hk' & Hv' & ? & ? & ? & ?) _].
  unfold wf. rewrite Hk', Hv'. split; try lia. by rewrite Hsz.
Qed.

(** [map_put] returns on every well-formed table; the table it leaves is
    well formed and holds at most one used slot more than 0.7 times its
    capacity. *)
Lemma map_put_spec (m : Map) (k : string) (v : vptr) :
  wf m ->
  exists m', map_put m k v = Some m' /\ wf m' /\ 10 * nused m' < 7 * size m' + 10.
Proof.
  intros Hwf. unfold map_put.
  destruct (maybe_rehash_spec m Hwf) as (m1 & -> & Hwf1 & _ & [mk Hk] & Hload).
  simpl. rewrite Hk. simpl. unfold wf in Hwf1. rewrite Hk in Hwf1.
  destruct (val m1) as [mv|] eqn:Hv; [|done]. simpl.
  pose proof Hwf1 as [(n & Hn & Hsz) Hkl Hvl Hu Hl].
  assert (0 < 2 ^ n) as Hpos by (apply Z.pow_pos_nonneg; lia).
  destruct (null_slot m1 mk) as (j & Hj & Hnull); [done..|lia|].
  destruct (put_probe_spec m1 mk mv n) with
    (k := k) (v := v) (j := j) (fuel := Z.to_nat (size m1))
    (i := Z.land (hash k) (size m1 - 1)) as (m' & Hrun & Hpost); try done; try lia.
  { rewrite Hsz. apply mask_range. lia. }
  { pose proof (Z.mod_pos_bound (j - Z.land (hash k) (size m1 - 1)) (size m1)). lia. }
  exists m'. split; [done|]. split; [by eapply probe_post_wf|].
  destruct Hpost as [_ Hs _ Hnu]. lia.
Qed.

(** [map_remove] returns on every well-formed table that is not full, and
    changes neither the capacity nor the number of used slots. *)
Lemma map_remove_spec (m : Map) (k : string) :
  wf m -> 10 * nused m < 7 * size m + 10 ->
  exists m', map_remove m k = Some m' /\ wf m'
             /\ size m' = size m /\ nused m' = nused m.
Proof.
  intros Hwf Hload. unfold map_remove. pose proof Hwf as Hwf'. unfold wf in Hwf.
  destruct (key m) as [mk|] eqn:Hk; [|by exists m].
  destruct (val m) as [mv|] eqn:Hv; [|done]. simpl.
  pose proof Hwf as [(n & Hn & Hsz) Hkl Hvl Hu Hl].
  assert (16 <= 2 ^ n) as Hpos by (change 16 with (2 ^ 4); apply Z.pow_le_mono_r; lia).
  destruct (null_slot m mk) as (j & Hj & Hnull); [done..|lia|].
  destruct (remove_probe_spec m mk mv n) with
    (k := k) (j := j) (fuel := Z.to_nat (size m))
    (i := Z.land (hash k) (size m - 1)) as (m' & Hrun & Hpost); try done; try lia.
  { rewrite Hsz. apply mask_range. lia. }
  { pose proof (Z.mod_pos_bound (j - Z.land (hash k) (size m - 1)) (size m)). lia. }
  exists m'. split; [done|]. destruct Hpost as [->|[Hpost Hnu]]; [done|].
  split; [by eapply probe_post_wf|]. by destruct Hpost.
Qed.

(** Every sequence of operations on a well-formed table returns. *)
Lemma run_spec (ops : list op) :
  forall m, wf m -> 10 * nused m < 7 * size m + 10 ->
    exists m', run ops m = Some m' /\ wf m' /\ 10 * nused m' < 7 * size m' + 10.
Proof.
  induction ops as [|o ops IH]; intros m Hwf Hload; [by exists m|].
  simpl. destruct o as [k v|k]; simpl.
  - destruct (map_put_spec m k v Hwf) as (m1 & -> & Hwf1 & Hload1). simpl. by apply IH.
  - destruct (map_remove_spec m k Hwf Hload) as (m1 & -> & Hwf1 & Hs & Hu). simpl.
    apply IH; [done|lia].
Qed.

Lemma fresh_load (m : Map) : fresh m -> 10 * nused m < 7 * size m + 10.
Proof. by intros [p|]. Qed.

Lemma wf_slots (m : Map) : wf m -> nused m = used_slots (slots m).
Proof.
  unfold wf, slots. destruct (key m); [destruct (val m); [|done]|].
  - by intros [].
  - by intros (_ & _ & ->).
Qed.

(** *** Lookups only find keys that are in a slot *)

Lemma get_probe_hit (mk : list kptr) (mv : list vptr) (mask : Z) (k : string) (v : vptr) :
  forall (fuel : nat) (i : Z),
    get_probe fuel mk mv mask i k = Some v -> v <> NULL -> In (KStr k) mk.
Proof.
  induction fuel as [|fuel IH]; intros i; simpl; [done|].
  destruct (mk !! Z.to_nat i) as [[| |s]|] eqn:Hx; try done.
  - by intros [= <-].
  - apply IH.
  - destruct (String.eqb_spec s k) as [->|_]; [|apply IH].
    intros _ _. apply list_elem_of_In. by eapply list_elem_of_lookup_2.
Qed.

Lemma map_get_nostack_hit (m : Map) (k : string) (v : vptr) :
  map_get_nostack m k = Some v -> v <> NULL -> In (KStr k) (slots m).
Proof.
  unfold map_get_nostack, slots. destruct (key m) as [mk|]; [|by intros [= <-]].
  simpl. apply get_probe_hit.
Qed.

Lemma absent_holds (k : string) (l : list kptr) :
  ~ In (KStr k) l -> forall x, In x l -> holds k x = false.
Proof.
  intros Hk [| |s] Hx; try done. simpl.
  destruct (String.eqb_spec s k) as [->|]; done.
Qed.

(** *** The claims about the table *)

(** Shadowing as intended: a child without repeated keys yields its own
    bindings in slot order, then the parent's that it does not bind. *)
Example iteration_shadows_parent :
  (run [Put "q" 10; Put "z" 11] make_map ≫= λ a,
   run [Put "q" 3; Put "b" 4] (make_map_parent a) ≫= λ b,
   drain 8 (map_iter b))
  = Some [("b"%string, 4); ("q"%string, 3); ("z"%string, 11)].
Proof. by vm_compute. Qed.

(** C1 (the code departs from the claim).  The claim: a [put] of a key
    already bound overwrites its binding, so keys stay unique within a
    table, also when a tombstone lies on the probe path before the key's
    slot.  The code: after [dup_ops] on a fresh table the key ["q"]
    occupies two slots, slot 12 with the new value and slot 13 with the
    old one. *)
Theorem put_past_tombstone_duplicates :
  hash "a" mod 16 = hash "q" mod 16 /\
  key_count "q" ∘ slots <$> run dup_ops make_map = Some 2 /\
  (λ m, (slots m !! 12%nat, slots m !! 13%nat)) <$> run dup_ops make_map
    = Some (Some (KStr "q"), Some (KStr "q")).
Proof. by vm_compute. Qed.

(** C2, as stated, fails: twelve insertions of different keys into a fresh
    table fill 12 of its 16 slots, a load of 0.75. *)
Lemma load_factor_above_threshold :
  exists m, run twelve_puts make_map = Some m
            /\ size m = 16 /\ used_slots (slots m) = 12
            /\ ~ (10 * used_slots (slots m) <= 7 * size m).
Proof. eexists. split; [by vm_compute|]. by vm_compute. Qed.

(** C2 (amended).  Every sequence of [put]/[remove] calls on a fresh table
    returns; the rehash check at the start of an insertion leaves the
    used slots (occupied or tombstone) strictly below 0.7 times the
    capacity, and as the insertion may then fill one more slot, the used
    slots stay strictly below 0.7 times the capacity plus one at all
    times. *)
Theorem load_factor_bound (m0 : Map) (ops : list op) :
  fresh m0 ->
  exists m, run ops m0 = Some m
            /\ 10 * used_slots (slots m) < 7 * size m + 10
            /\ exists m', maybe_rehash m = Some m'
                          /\ 10 * used_slots (slots m') < 7 * size m'.
Proof.
  intros Hf.
  destruct (run_spec ops m0 (wf_fresh _ Hf) (fresh_load _ Hf)) as (m & Hrun & Hwf & Hload).
  exists m. split; [done|]. rewrite <- (wf_slots m Hwf). split; [done|].
  destruct (maybe_rehash_spec m Hwf) as (m' & Hr & Hwf' & _ & _ & Hload').
  exists m'. by rewrite <- (wf_slots m' Hwf').
Qed.

Lemma load_factor_bound_witness :
  fresh make_map /\
  exists m, run twelve_puts make_map = Some m
            /\ 10 * used_slots (slots m) < 7 * size m + 10
            /\ exists m', maybe_rehash m = Some m'
                          /\ 10 * used_slots (slots m') < 7 * size m'.
Proof.
  split; [apply (fresh_make None)|].
  apply (load_factor_bound make_map twelve_puts). apply (fresh_make None).
Defined.

(** C3 (the code departs from the claim).  The claim: [len] is the number
    of different keys a lookup in the table itself finds.  The code:
    after [dup_ops], [map_len] is 2 although ["q"] is the only key any
    lookup finds. *)
Theorem len_counts_duplicate_slots :
  exists m, run dup_ops make_map = Some m
            /\ map_len m = 2
            /\ map_get_nostack m "q" = Some 3
            /\ forall k v, map_get_nostack m k = Some v -> v <> NULL -> k = "q"%string.
Proof.
  eexists. split; [by vm_compute|]. split; [done|]. split; [by vm_compute|].
  intros k v Hget Hv. apply map_get_nostack_hit in Hget; [|done].
  vm_compute in Hget. intuition congruence.
Qed.

(** C4 (the code departs from the claim).  The claim: a pair put into a
    table and never removed is what [get] returns, whatever other keys
    are inserted afterwards and whatever rehashes they trigger.  The code:
    ["x2"] is put with 2 and never removed; [get] returns 2 until the
    eleventh insertion of another key doubles the table, whose scan
    re-inserts slot 0 before slot 15, and from then on [get] returns the
    overwritten value 1. *)
Theorem get_stale_after_rehash :
  (run wrap_ops make_map ≫= λ m, map_get m "x2") = Some 2 /\
  (run (wrap_ops ++ removelast more_puts) make_map ≫= λ m, map_get m "x2") = Some 2 /\
  size <$> run (wrap_ops ++ removelast more_puts) make_map = Some 16 /\
  size <$> run (wrap_ops ++ more_puts) make_map = Some 32 /\
  (run (wrap_ops ++ more_puts) make_map ≫= λ m, map_get m "x2") = Some 1.
Proof. by vm_compute. Qed.

(** C5 (the code departs from the claim).  The claim: with a key bound in
    parent and child, [get] on the child returns the child's value and
    iterating the child yields the key exactly once, with the child's
    value.  The code: [get] returns the child's value 3 and the parent's
    binding is suppressed, but the iteration yields ["q"] twice, once with
    the overwritten value 2, because the child holds ["q"] in two slots. *)
Theorem iteration_yields_key_twice :
  (shadow_parent ≫= λ a, map_get a "q") = Some 10 /\
  (shadow_child ≫= λ b, map_get b "q") = Some 3 /\
  (shadow_child ≫= λ b, drain 8 (map_iter b)) = Some [("q"%string, 3); ("q"%string, 2)].
Proof. by vm_compute. Qed.

(** C10.  On a table reached from a fresh one by any sequence of calls,
    removing a key that no slot holds returns the very same table:
    counters, capacity and both arrays are unchanged.  The fresh table
    may be [EMPTY_MAP], which has no backing storage. *)
Theorem remove_unbound_unchanged (m0 m : Map) (ops : list op) (k : string) :
  fresh m0 -> run ops m0 = Some m -> ~ In (KStr k) (slots m) ->
  map_remove m k = Some m.
Proof.
  intros Hf Hrun Habs.
  destruct (run_spec ops m0 (wf_fresh _ Hf) (fresh_load _ Hf)) as (m' & Hrun' & Hwf & Hload).
  rewrite Hrun in Hrun'. injection Hrun' as <-.
  unfold map_remove. unfold wf in Hwf. unfold slots in Habs.
  destruct (key m) as [mk|] eqn:Hk; [|done].
  destruct (val m) as [mv|] eqn:Hv; [|done]. simpl in *.
  pose proof Hwf as [(n & Hn & Hsz) Hkl Hvl Hu Hl].
  assert (16 <= 2 ^ n) as Hpos by (change 16 with (2 ^ 4); apply Z.pow_le_mono_r; lia).
  destruct (null_slot m mk) as (j & Hj & Hnull); [done..|lia|].
  apply (remove_probe_absent m mk mv n) with (j := j); try done; try lia.
  - by apply absent_holds.
  - rewrite Hsz. apply mask_range. lia.
  - pose proof (Z.mod_pos_bound (j - Z.land (hash k) (size m - 1)) (size m)). lia.
Qed.

Lemma remove_unbound_unchanged_witness :
  fresh make_map /\
  exists m, run dup_ops make_map = Some m
            /\ ~ In (KStr "a") (slots m)
            /\ map_remove m "a" = Some m.
Proof.
  split; [apply (fresh_make None)|].
  eexists. split; [by vm_compute|].
  assert (~ In (KStr "a")
            (slots (mkMap None
               (Some ((replicate 12 KNull ++ [KStr "q"; KStr "q"]) ++ replicate 2 KNull))
               (Some ((replicate 12 0 ++ [3; 2]) ++ replicate 2 0)) 16 2 2))) as Habs.
  { vm_compute. intuition congruence. }
  split; [exact Habs|].
  apply (remove_unbound_unchanged make_map _ dup_ops "a").
  - apply (fresh_make None).
  - by vm_compute.
  - exact Habs.
Defined.


(** ** codegen.c *)

(** *** The register cache *)

(** [move_to_head i] takes slot [i] out and puts it in front. *)
Lemma shift_down_spec (j : nat) :
  forall r : list Regmap, (j < length r)%nat ->
    shift_down j r = Some (take 1 r ++ take j r ++ drop (S j) r).
Proof.
  induction j as [|j IH]; intros r Hj.
  - destruct r as [|x r]; [simpl in Hj; lia|]. done.
  - destruct (lookup_lt_is_Some_2 r j) as [x Hx]; [lia|].
    simpl shift_down. rewrite Hx. simpl. rewrite IH by (rewrite length_insert; lia).
    f_equal. rewrite !take_insert_ge by lia.
    rewrite drop_insert_ge by lia. replace (S j - S j)%nat with 0%nat by lia.
    rewrite (take_S_r r j x Hx).
    destruct (lookup_lt_is_Some_2 r (S j)) as [y Hy]; [lia|].
    rewrite (drop_S r y (S j) Hy). simpl. by rewrite <- !app_assoc.
Qed.

Lemma move_to_head_spec (i : nat) (r : list Regmap) (x : Regmap) :
  r !! i = Some x -> move_to_head i r = Some (x :: delete i r).
Proof.
  intros Hx. unfold move_to_head. rewrite Hx. simpl.
  rewrite shift_down_spec by (by eapply lookup_lt_Some).
  simpl. rewrite delete_take_drop. by destruct r.
Qed.

Lemma first_slot_none (p : Regmap -> bool) (r : list Regmap) (n : nat) :
  forall i : nat,
    (i + n <= length r)%nat ->
    (forall j x, (i <= j)%nat -> r !! j = Some x -> p x = false) ->
    first_slot p r n i = Some None.
Proof.
  induction n as [|n IH]; intros i Hlen Hp; [done|].
  destruct (lookup_lt_is_Some_2 r i) as [x Hx]; [lia|].
  simpl. rewrite Hx. simpl. rewrite (Hp i x) by done.
  apply IH; [lia|]. intros j y Hj. apply Hp. lia.
Qed.

Lemma first_slot_some (p : Regmap -> bool) (r : list Regmap) (k : nat) (x : Regmap) :
  r !! k = Some x -> p x = true ->
  forall (n i : nat),
    (i <= k < i + n)%nat ->
    (forall j y, (i <= j < k)%nat -> r !! j = Some y -> p y = false) ->
    first_slot p r n i = Some (Some k).
Proof.
  intros Hx Hpx. induction n as [|n IH]; intros i Hk Hp; [lia|].
  destruct (decide (i = k)) as [->|Hne].
  - simpl. rewrite Hx. simpl. by rewrite Hpx.
  - destruct (lookup_lt_is_Some_2 r i) as [y Hy].
    { apply lookup_lt_Some in Hx. lia. }
    simpl. rewrite Hy. simpl. rewrite (Hp i y) by (done || lia).
    apply IH; [lia|]. intros j z Hj. apply Hp. lia.
Qed.

Lemma slots_of_length l : (length l <= NUMREGS)%nat -> length (slots_of l) = NUMREGS.
Proof. intros. unfold slots_of. rewrite length_app, length_fmap, length_replicate. lia. Qed.

Lemma slots_of_lookup_lt l (i : nat) b :
  l !! i = Some b -> slots_of l !! i = Some (occupied b).
Proof.
  intros Hb. unfold slots_of. apply lookup_app_l_Some.
  by rewrite list_lookup_fmap, Hb.
Qed.

Lemma slots_of_lookup_ge l (i : nat) x :
  (length l <= i)%nat -> slots_of l !! i = Some x -> x = mkRegmap None None.
Proof.
  intros Hi. unfold slots_of. rewrite lookup_app_r by (by rewrite length_fmap).
  intros Hx. by apply lookup_replicate_1 in Hx as [-> _].
Qed.

Lemma slots_of_delete l (i : nat) b :
  l !! i = Some b -> occupied b :: delete i (slots_of l) = slots_of (b :: delete i l).
Proof.
  intros Hb. pose proof (lookup_lt_Some _ _ _ Hb) as Hi. unfold slots_of.
  rewrite !delete_take_drop.
  rewrite take_app_le, drop_app_le by (rewrite length_fmap; lia).
  rewrite fmap_cons, fmap_app, fmap_take, fmap_drop. simpl.
  rewrite length_app, length_take, length_drop.
  rewrite <- app_assoc. do 4 f_equal. unfold NUMREGS. lia.
Qed.

Lemma slots_of_snoc l b :
  (length l < NUMREGS)%nat ->
  <[length l := occupied b]> (slots_of l) = slots_of (l ++ [b]).
Proof.
  intros Hl. unfold slots_of.
  replace (length l) with (length (occupied <$> l) + 0)%nat at 1
    by (rewrite length_fmap; lia).
  rewrite insert_app_r, fmap_app, length_app. simpl. rewrite <- app_assoc. f_equal.
  destruct (NUMREGS - length l)%nat as [|n] eqn:E; [lia|].
  simpl. do 2 f_equal. lia.
Qed.

Lemma slots_of_replace_last l b b' :
  length l = (NUMREGS - 1)%nat ->
  <[(NUMREGS - 1)%nat := occupied b']> (slots_of (l ++ [b])) = slots_of (l ++ [b']).
Proof.
  intros Hl. unfold slots_of. rewrite !fmap_app, <- !app_assoc, !length_app. simpl.
  replace (NUMREGS - 1)%nat with (length (occupied <$> l) + 0)%nat at 1
    by (rewrite length_fmap; lia).
  by rewrite insert_app_r.
Qed.

Section Regname.
Variables (s : State) (l : list (nat * string)) (v : nat).
Hypothesis Hslots : reg2var s = slots_of l.
Hypothesis Hlen : (length l <= NUMREGS)%nat.

(** A value that is in the cache moves to the front and keeps its
    register; nothing is written. *)
Lemma regname_cached (i : nat) (reg : string) :
  l !! i = Some (v, reg) ->
  (forall j b, (j < i)%nat -> l !! j = Some b -> b.1 <> v) ->
  regname v s = Some (Some reg, set_reg2var (slots_of ((v, reg) :: delete i l)) s).
Proof.
  intros Hi Hfirst. unfold regname. rewrite Hslots.
  rewrite (first_slot_some (holds_var v) _ i (occupied (v, reg))).
  - simpl. rewrite (move_to_head_spec i _ (occupied (v, reg)))
      by (by apply slots_of_lookup_lt).
    simpl. by rewrite slots_of_delete.
  - by apply slots_of_lookup_lt.
  - unfold holds_var. by apply bool_decide_eq_true.
  - apply lookup_lt_Some in Hi. unfold NUMREGS in *. lia.
  - intros j y Hj Hy. destruct (lookup_lt_is_Some_2 l j) as [b Hb].
    { apply lookup_lt_Some in Hi. lia. }
    rewrite (slots_of_lookup_lt _ _ _ Hb) in Hy. injection Hy as <-.
    unfold holds_var. apply bool_decide_eq_false. simpl.
    intros [= E]. by eapply (Hfirst j b); [lia| |].
Qed.

Hypothesis Hnew : v ∉ l.*1.

Lemma not_cached : first_slot (holds_var v) (slots_of l) NUMREGS 0 = Some None.
Proof.
  apply first_slot_none; [by rewrite slots_of_length|].
  intros j x _ Hx. unfold holds_var. apply bool_decide_eq_false.
  destruct (decide (j < length l)%nat) as [Hj|Hj].
  - destruct (lookup_lt_is_Some_2 l j Hj) as [b Hb].
    rewrite (slots_of_lookup_lt _ _ _ Hb) in Hx. injection Hx as <-. simpl.
    intros [= E]. apply Hnew. rewrite <- E.
    apply list_elem_of_fmap. exists b. split; [done|]. by eapply list_elem_of_lookup_2.
  - apply slots_of_lookup_ge in Hx as ->; [done|lia].
Qed.

(** A value that is not in the cache takes the first empty slot and
    the register of that slot's index; nothing is written. *)
Lemma regname_empty (reg : string) :
  (length l < NUMREGS)%nat -> regs !! length l = Some reg ->
  regname v s = Some (Some reg, set_reg2var (slots_of ((v, reg) :: l)) s).
Proof.
  intros Hroom Hreg. unfold regname. rewrite Hslots, not_cached.
  assert (slots_of l !! length l = Some (mkRegmap None None)) as Hempty.
  { unfold slots_of. rewrite lookup_app_r by (by rewrite length_fmap).
    rewrite length_fmap, Nat.sub_diag. apply lookup_replicate_2. lia. }
  rewrite (first_slot_some is_empty _ (length l) (mkRegmap None None)); try done.
  - simpl. rewrite Hreg. simpl.
    change (mkRegmap (Some v) (Some reg)) with (occupied (v, reg)).
    rewrite slots_of_snoc by done.
    assert ((l ++ [(v, reg)]) !! length l = Some (v, reg)) as Hlast.
    { rewrite lookup_app_r by lia. by rewrite Nat.sub_diag. }
    rewrite (move_to_head_spec _ _ (occupied (v, reg)))
      by (by apply slots_of_lookup_lt).
    simpl. rewrite (slots_of_delete _ _ _ Hlast).
    rewrite delete_take_drop, take_app_length, drop_ge by (rewrite length_app; simpl; lia).
    by rewrite app_nil_r.
  - lia.
  - intros j y Hj Hy. destruct (lookup_lt_is_Some_2 l j) as [b Hb]; [lia|].
    rewrite (slots_of_lookup_lt _ _ _ Hb) in Hy. by injection Hy as <-.
Qed.
End Regname.

Lemma omap_slots_of l : omap rm_v (slots_of l) = l.*1.
Proof.
  unfold slots_of. rewrite omap_app.
  assert (forall n, omap rm_v (replicate n (mkRegmap None None)) = []) as ->.
  { induction n; simpl; auto. }
  rewrite app_nil_r. induction l as [|b l IH]; [done|]. simpl. f_equal. exact IH.
Qed.

(** With all six slots taken and the value not among them, [regname]
    writes the spill of the last slot's value to that value's own offset,
    marks it spilled, writes a load exactly when the incoming value's
    [spilled] member is set, and hands over the register. *)
Lemma regname_evict (s : State) (l : list (nat * string)) (v w : nat)
    (reg : string) (wc c : VarCell) :
  reg2var s = slots_of (l ++ [(w, reg)]) ->
  length l = (NUMREGS - 1)%nat ->
  v ∉ (l ++ [(w, reg)]).*1 ->
  vars s !! w = Some wc -> vars s !! v = Some c ->
  regname v s = Some (Some reg, evicted s ((v, reg) :: l) w wc reg c).
Proof.
  intros Hslots Hlen Hnew Hw Hv.
  assert (length (l ++ [(w, reg)]) = NUMREGS) as Hfull
    by (rewrite length_app; simpl; unfold NUMREGS in *; lia).
  assert (v <> w) as Hne.
  { intros ->. apply Hnew. rewrite fmap_app. apply elem_of_app. right. simpl. left. }
  unfold regname. rewrite Hslots.
  rewrite (not_cached (l ++ [(w, reg)]) v) by (done || lia).
  rewrite (first_slot_none is_empty).
  2: { rewrite slots_of_length; [done|lia]. }
  2: { intros j y _ Hy. destruct (decide (j < length (l ++ [(w, reg)]))%nat) as [Hj|Hj].
       - destruct (lookup_lt_is_Some_2 _ j Hj) as [b Hb].
         rewrite (slots_of_lookup_lt _ _ _ Hb) in Hy. by injection Hy as <-.
       - apply lookup_lt_Some in Hy. rewrite slots_of_length in Hy by lia. lia. }
  assert ((l ++ [(w, reg)]) !! (NUMREGS - 1)%nat = Some (w, reg)) as Hlast.
  { rewrite lookup_app_r by lia. by rewrite Hlen, Nat.sub_diag. }
  cbn [mbind option_bind]. rewrite (slots_of_lookup_lt _ _ _ Hlast).
  cbn [mbind option_bind occupied rm_v rm_reg fst snd]. rewrite Hw.
  cbn [mbind option_bind].
  assert (forall t, vars (set_vars (<[w:=set_spilled wc]> (vars (write t s))) (write t s)) !! v
                    = Some c) as Hc.
  { intros t. simpl. by rewrite list_lookup_insert_ne. }
  rewrite Hc. cbn [mbind option_bind fmt_s default].
  assert (forall s3, reg2var s3 = slots_of (l ++ [(w, reg)]) ->
            move_to_head (NUMREGS - 1)
              (<[(NUMREGS - 1)%nat := mkRegmap (Some v) (Some reg)]> (reg2var s3))
            = Some (slots_of ((v, reg) :: l))) as Hmove.
  { intros s3 ->. change (mkRegmap (Some v) (Some reg)) with (occupied (v, reg)).
    rewrite slots_of_replace_last by done.
    assert ((l ++ [(v, reg)]) !! (NUMREGS - 1)%nat = Some (v, reg)) as Hl.
    { rewrite lookup_app_r by lia. by rewrite Hlen, Nat.sub_diag. }
    rewrite (move_to_head_spec _ _ (occupied (v, reg))) by (by apply slots_of_lookup_lt).
    rewrite (slots_of_delete _ _ _ Hl).
    rewrite delete_take_drop, <- Hlen, take_app_length.
    rewrite drop_ge by (rewrite length_app; simpl; lia). by rewrite app_nil_r. }
  rewrite Hmove by (by destruct (v_spilled c)).
  cbn [mbind option_bind]. unfold evicted, spill_line, load_line.
  destruct s; destruct (v_spilled c);
    unfold write, set_out, set_vars, set_reg2var; simpl; rewrite <- ?app_assoc; done.
Qed.

(** *** Least recently used *)

Lemma lru_inv_room (first : nat) (U : list nat) (l : list (nat * string)) (v : nat) :
  lru_inv first U l -> v ∈ U -> v ∉ l.*1 -> (length l < length U)%nat.
Proof.
  intros (_ & Hnd & Hsub) Hv Hnew.
  assert (v :: l.*1 ⊆+ U) as Hle.
  { apply NoDup_submseteq; [by apply NoDup_cons|].
    intros x [->|Hx]%elem_of_cons; auto. }
  apply submseteq_length in Hle. simpl in Hle. rewrite length_fmap in Hle. lia.
Qed.

Lemma lru_step (s : State) (first : nat) (U : list nat) (l : list (nat * string)) (v : nat) :
  length U = NUMREGS -> reg2var s = slots_of l ->
  lru_inv first U l -> v ∈ U -> v <> first ->
  exists l' r,
    regname v s = Some (r, set_reg2var (slots_of l') s)
    /\ lru_inv first U l' /\ v ∈ l'.*1 /\ (forall x, x ∈ l.*1 -> x ∈ l'.*1).
Proof.
  intros HU Hslots Hinv Hv Hne.
  assert (length l <= NUMREGS)%nat as Hlen.
  { destruct Hinv as (_ & Hnd & Hsub). rewrite <- HU, <- (length_fmap fst).
    apply submseteq_length. by apply NoDup_submseteq. }
  destruct (decide (v ∈ l.*1)) as [Hin|Hnew].
  - apply list_elem_of_fmap in Hin as ([v' reg] & Hv' & Hb). simpl in Hv'. subst v'.
    apply list_elem_of_lookup in Hb as [i Hi].
    pose proof Hinv as ((l0 & ->) & Hnd & Hsub).
    assert (i < length l0)%nat as Hi0.
    { pose proof (lookup_lt_Some _ _ _ Hi) as Hlt. rewrite length_app in Hlt. simpl in Hlt.
      destruct (decide (i = length l0)) as [->|]; [|lia].
      rewrite lookup_app_r, Nat.sub_diag in Hi by lia. by injection Hi as -> _. }
    exists ((v, reg) :: delete i (l0 ++ [(first, "rdi"%string)])), (Some reg).
    assert ((v, reg) :: delete i (l0 ++ [(first, "rdi"%string)])
            ≡ₚ l0 ++ [(first, "rdi"%string)]) as Hperm
      by (symmetry; by apply delete_Permutation).
    split; [|split; [|split]].
    + apply regname_cached; try done.
      intros j b Hj Hb Heq.
      assert (j = i); [|lia].
      apply (NoDup_lookup _ _ _ v Hnd); rewrite list_lookup_fmap.
      * by rewrite Hb; simpl; rewrite Heq.
      * by rewrite Hi.
    + split; [|split].
      * exists ((v, reg) :: delete i l0).
        rewrite !delete_take_drop, take_app_le, drop_app_le by lia.
        simpl. by rewrite <- ?app_assoc.
      * by rewrite Hperm.
      * intros x. rewrite Hperm. apply Hsub.
    + simpl. left.
    + intros x. by rewrite Hperm.
  - pose proof (lru_inv_room _ _ _ _ Hinv Hv Hnew) as Hroom. rewrite HU in Hroom.
    destruct (lookup_lt_is_Some_2 regs (length l)) as [reg Hreg]; [done|].
    exists ((v, reg) :: l), (Some reg). split; [|split; [|split]].
    + by apply regname_empty.
    + destruct Hinv as ((l0 & ->) & Hnd & Hsub). split; [|split].
      * by exists ((v, reg) :: l0).
      * simpl. by apply NoDup_cons.
      * intros x [->|Hx]%elem_of_cons; auto.
    + simpl. left.
    + intros x Hx. simpl. by right.
Qed.

Lemma lru_steps (first : nat) (U : list nat) (mid : list nat) :
  length U = NUMREGS ->
  (forall x, x ∈ mid -> x ∈ U /\ x <> first) ->
  forall (s : State) (l : list (nat * string)),
    reg2var s = slots_of l -> lru_inv first U l ->
    exists l',
      resolve_all mid s = Some (set_reg2var (slots_of l') s)
      /\ lru_inv first U l'
      /\ (forall x, x ∈ mid -> x ∈ l'.*1) /\ (forall x, x ∈ l.*1 -> x ∈ l'.*1).
Proof.
  intros HU. induction mid as [|v mid IH]; intros Hmid s l Hslots Hinv.
  { exists l. repeat split; try done.
    - simpl. rewrite <- Hslots. by destruct s.
    - by destruct Hinv.
    - by destruct Hinv as (_ & ? & _).
    - by destruct Hinv as (_ & _ & ?).
    - intros x Hx. by apply elem_of_nil in Hx. }
  destruct (Hmid v) as [Hv Hne]; [left|].
  destruct (lru_step s first U l v) as (l1 & r & Hrun & Hinv1 & Hv1 & Hmono1); try done.
  destruct (IH (λ x Hx, Hmid x (list_elem_of_further _ _ _ Hx))
              (set_reg2var (slots_of l1) s) l1) as (l2 & Hrun2 & Hinv2 & Hmid2 & Hmono2);
    try done.
  exists l2. split; [|split; [done|split]].
  - simpl. rewrite Hrun. simpl. by rewrite Hrun2.
  - intros x [->|Hx]%elem_of_cons; auto.
  - auto.
Qed.

Lemma cached_vars_slots (l : list (nat * string)) (s : State) :
  cached_vars (set_reg2var (slots_of l) s) = l.*1.
Proof. unfold cached_vars. cbn [reg2var set_reg2var]. apply omap_slots_of. Qed.

(** The scenario of seven values.  Start from the empty cache and
    resolve [v1], then the values [v2 .. v6], each at least once, in any
    order and as often as one likes ([mid]); [v1 .. v7] are pairwise
    different.  All of this is served from empty slots and from the
    cache: nothing is written, no value is marked spilled, and [v1] is
    still cached.  Resolving [v7]
    then evicts [v1], the value used least recently, and none of
    [v2 .. v6]: it writes the spill of [v1]'s register to [v1]'s offset
    (followed by a load if [v7]'s [spilled] member is set), marks [v1]
    spilled and leaves [v2 .. v7] in the cache. *)
Lemma first_of_seven_evicted (s : State) (v1 v2 v3 v4 v5 v6 v7 : nat)
    (mid : list nat) (c1 c7 : VarCell) :
  reg2var s = reg2var init_state ->
  NoDup [v1; v2; v3; v4; v5; v6; v7] ->
  (forall x, x ∈ mid <-> x ∈ [v2; v3; v4; v5; v6]) ->
  vars s !! v1 = Some c1 -> vars s !! v7 = Some c7 ->
  exists s1 s2,
    resolve_all (v1 :: mid) s = Some s1
    /\ out s1 = out s /\ vars s1 = vars s /\ (v1 ∈ cached_vars s1)
    /\ regname v7 s1 = Some (Some "rdi"%string, s2)
    /\ out s2 = out s ++ [spill_line "rdi" (v_off c1)]
                  ++ (if v_spilled c7 then [load_line "rdi" (v_off c7)] else [])
    /\ vars s2 = <[v1 := set_spilled c1]> (vars s)
    /\ (v1 ∉ cached_vars s2)
    /\ (forall x, x ∈ [v2; v3; v4; v5; v6; v7] -> x ∈ cached_vars s2).
Proof.
  intros Hinit Hnd Hmid Hc1 Hc7.
  set (U := [v1; v2; v3; v4; v5; v6]).
  assert (NoDup U /\ (v7 ∉ U) /\ (v1 ∉ [v2; v3; v4; v5; v6])) as (HndU & H7 & H1).
  { rewrite !NoDup_cons, !not_elem_of_cons in Hnd. unfold U.
    rewrite !NoDup_cons, !not_elem_of_cons. naive_solver. }
  assert (regname v1 s = Some (Some "rdi"%string, set_reg2var (slots_of [(v1, "rdi"%string)]) s))
    as Hfirst.
  { apply (regname_empty s [] v1); try done.
    - unfold NUMREGS. simpl. lia.
    - apply not_elem_of_nil.
    - unfold NUMREGS. simpl. lia. }
  destruct (lru_steps v1 U mid) with
    (s := set_reg2var (slots_of [(v1, "rdi"%string)]) s) (l := [(v1, "rdi"%string)])
    as (l & Hrun & Hinv & Hall & Hkeep); try done.
  { intros x Hx%Hmid. split; [by apply list_elem_of_further|].
    intros ->. done. }
  { split; [by exists []|]. split; [apply NoDup_singleton|].
    intros x ->%list_elem_of_singleton. left. }
  pose proof Hinv as ((l0 & ->) & Hndl & Hsub).
  set (l := l0 ++ [(v1, "rdi"%string)]) in *.
  assert (forall x, x ∈ U -> x ∈ l.*1) as Hsup.
  { intros x [->|Hx]%elem_of_cons; [apply Hkeep; left|]. by apply Hall, Hmid. }
  assert (length l0 = (NUMREGS - 1)%nat) as Hlen.
  { pose proof (submseteq_length _ _ (NoDup_submseteq _ _ HndU Hsup)) as H1'.
    pose proof (submseteq_length _ _ (NoDup_submseteq _ _ Hndl Hsub)) as H2'.
    rewrite length_fmap in H1', H2'. subst l. rewrite length_app in H1', H2'.
    simpl in *. unfold NUMREGS. lia. }
  eexists _, _. split; [|split; [|split; [|split; [|split; [|split; [|split; [|split]]]]]]].
  - simpl. rewrite Hfirst. simpl. exact Hrun.
  - done.
  - done.
  - rewrite cached_vars_slots. apply Hsup. left.
  - apply (regname_evict _ l0 v7 v1 "rdi" c1 c7); try done.
    intros Hin. by apply H7, Hsub.
  - simpl. unfold spill_line, load_line. done.
  - done.
  - unfold evicted. rewrite cached_vars_slots. simpl.
    unfold l in Hndl. rewrite fmap_app in Hndl. apply NoDup_app in Hndl as (_ & Hdisj & _).
    apply not_elem_of_cons. split.
    + intros ->. apply H7. left.
    + intros Hin. apply (Hdisj v1 Hin). left.
  - intros x Hx. unfold evicted. rewrite cached_vars_slots. simpl.
    assert (x = v7 \/ x ∈ [v2; v3; v4; v5; v6]) as [->|Hx'].
    { rewrite !elem_of_cons in Hx. rewrite !elem_of_cons. tauto. }
    { left. }
    assert (x ∈ l.*1) as Hin by (apply Hsup; by right).
    unfold l in Hin. rewrite fmap_app in Hin.
    apply elem_of_app in Hin as [Hin|Hin]; [by right|].
    apply list_elem_of_singleton in Hin. simpl in Hin. by subst.
Qed.

(** *** What the emitter appends *)

Lemma extends_refl s : extends s s.
Proof. split; [done|]. exists []. by rewrite app_nil_r. Qed.

Lemma extends_trans s1 s2 s3 : extends s1 s2 -> extends s2 s3 -> extends s1 s3.
Proof.
  intros [Ho1 (b1 & Hb1 & Hf1)] [Ho2 (b2 & Hb2 & Hf2)]. split; [congruence|].
  exists (b1 ++ b2). split; [|by apply Forall_app].
  by rewrite Hb2, Hb1, app_assoc.
Qed.

Lemma extends_write line s : extends s (write line s).
Proof. split; [done|]. exists ["    " +:+ line]. split; [done|]. repeat constructor. by exists line. Qed.

Lemma extends_set_reg2var r s s' : extends s s' -> extends s (set_reg2var r s').
Proof. done. Qed.

Lemma extends_set_vars r s s' : extends s s' -> extends s (set_vars r s').
Proof. done. Qed.

Lemma regname_extends (v : nat) (s s' : State) (r : option string) :
  regname v s = Some (r, s') -> extends s s'.
Proof.
  unfold regname. intros H.
  apply bind_Some in H as (cached & _ & H). destruct cached as [i|].
  { apply bind_Some in H as (r1 & _ & H). apply bind_Some in H as (x & _ & H).
    injection H as _ <-. apply extends_set_reg2var, extends_refl. }
  apply bind_Some in H as (empty & _ & H). destruct empty as [i|].
  { apply bind_Some in H as (reg & _ & H). apply bind_Some in H as (r1 & _ & H).
    injection H as _ <-. apply extends_set_reg2var, extends_refl. }
  apply bind_Some in H as (last & _ & H). apply bind_Some in H as (lv & _ & H).
  apply bind_Some in H as (lc & _ & H). apply bind_Some in H as (c & _ & H).
  apply bind_Some in H as (r1 & _ & H). injection H as _ <-.
  apply extends_set_reg2var. destruct (v_spilled c).
  - eapply extends_trans; [|apply extends_write].
    apply extends_set_vars, extends_write.
  - apply extends_set_vars, extends_write.
Qed.

Lemma str_extends (a : arg) (s s' : State) (x : string) :
  str a s = Some (x, s') -> extends s s'.
Proof.
  destruct a as [| |[v|val]]; simpl; intros H; try done.
  - apply bind_Some in H as ([r s1] & E & H). injection H as _ <-.
    by eapply regname_extends.
  - injection H as _ <-. apply extends_refl.
Qed.

Lemma str2_extends (ltr : bool) (a b : arg) (s s' : State) (x y : string) :
  str2 ltr a b s = Some (x, y, s') -> extends s s'.
Proof.
  unfold str2. intros H. destruct ltr.
  - apply bind_Some in H as ([x1 s1] & E1 & H). apply bind_Some in H as ([y1 s2] & E2 & H).
    injection H as _ _ <-. eapply extends_trans; by eapply str_extends.
  - apply bind_Some in H as ([y1 s1] & E1 & H). apply bind_Some in H as ([x1 s2] & E2 & H).
    injection H as _ _ <-. eapply extends_trans; by eapply str_extends.
Qed.

Lemma arith_extends (ltr : bool) (mnemonic : string) (i : Inst) (s s' : State) :
  ('(x, y, s1) ← str2 ltr (arg2 i) (arg1 i) s;
   let s2 := write ("movq " +:+ x +:+ ", " +:+ y) s1 in
   '(x', y', s3) ← str2 ltr (arg3 i) (arg1 i) s2;
   Some (write (mnemonic +:+ x' +:+ ", " +:+ y') s3)) = Some s' ->
  extends s s'.
Proof.
  intros H. apply bind_Some in H as ([[x y] s1] & E1 & H).
  apply bind_Some in H as ([[x' y'] s3] & E2 & H). injection H as <-.
  eapply extends_trans; [by eapply str2_extends|].
  eapply extends_trans; [apply extends_write|].
  eapply extends_trans; [by eapply str2_extends|apply extends_write].
Qed.

Lemma print_inst_extends (ltr : bool) (i : Inst) (s s' : State) :
  print_inst ltr i s = Some s' -> extends s s'.
Proof.
  unfold print_inst. destruct (kind i); intros H; try done.
  - by eapply (arith_extends ltr "addq ").
  - by eapply (arith_extends ltr "imulq ").
  - apply bind_Some in H as ([x s1] & E & H). injection H as <-.
    eapply extends_trans; [by eapply str_extends|].
    eapply extends_trans; apply extends_write.
  - destruct (arg2 i); try done.
    apply bind_Some in H as (rhs & _ & H). apply bind_Some in H as ([x s1] & E & H).
    injection H as <-. eapply extends_trans; [by eapply str_extends|apply extends_write].
  - destruct (arg1 i); try done.
    apply bind_Some in H as (lhs & _ & H). apply bind_Some in H as ([x s1] & E & H).
    injection H as <-. eapply extends_trans; [by eapply str_extends|apply extends_write].
Qed.

Lemma print_extends (ltr : bool) (f : Func) (s s' : State) :
  print ltr f s = Some s' -> extends s s'.
Proof.
  unfold print. revert s. induction (f_insts f) as [|i l IH]; intros s H; simpl in H.
  - injection H as <-. apply extends_refl.
  - apply bind_Some in H as (s1 & E & H).
    eapply extends_trans; [by eapply print_inst_extends|by apply IH].
Qed.

(** *** The frame *)

Lemma sum_sizes_snoc l m : sum_sizes (l ++ [m]) = sum_sizes l + m_size m.
Proof. unfold sum_sizes. induction l as [|a l IH]; simpl; lia. Qed.

Lemma wrap_int_range (z : Z) : - 2 ^ 31 <= wrap_int z < 2 ^ 31.
Proof. unfold wrap_int. pose proof (Z.mod_pos_bound (z + 2 ^ 31) (2 ^ 32)). lia. Qed.

Lemma wrap_int_small (z : Z) : - 2 ^ 31 <= z < 2 ^ 31 -> wrap_int z = z.
Proof. intros H. unfold wrap_int. rewrite Z.mod_small; lia. Qed.

Lemma wrap_int_add_l (a b : Z) : wrap_int (wrap_int a + b) = wrap_int (a + b).
Proof.
  unfold wrap_int. f_equal.
  replace ((a + 2 ^ 31) mod 2 ^ 32 - 2 ^ 31 + b + 2 ^ 31)
    with ((a + 2 ^ 31) mod 2 ^ 32 + b) by lia.
  rewrite Zplus_mod_idemp_l. f_equal. lia.
Qed.

Lemma wrap_int_idem (z : Z) : wrap_int (wrap_int z) = wrap_int z.
Proof. apply wrap_int_small, wrap_int_range. Qed.

(** The frame offset after [regalloc], as long as it is read as an
    [int]. *)
Lemma regalloc_loop_offset (l : list VarCell) :
  forall o, wrap_int (regalloc_loop l o).2 = wrap_int (o + 8 * Z.of_nat (length l)).
Proof.
  induction l as [|v l IH]; intros o; simpl; [f_equal; lia|].
  specialize (IH (wrap_int (o + 8))). destruct (regalloc_loop l (wrap_int (o + 8))).
  simpl in *. rewrite IH, wrap_int_add_l. f_equal. lia.
Qed.

Lemma regalloc_loop_range (l : list VarCell) :
  forall o, wrap_int o = o -> wrap_int (regalloc_loop l o).2 = (regalloc_loop l o).2.
Proof.
  induction l as [|v l IH]; intros o Ho; simpl; [done|].
  specialize (IH (wrap_int (o + 8)) (wrap_int_idem _)).
  by destruct (regalloc_loop l (wrap_int (o + 8))).
Qed.

Lemma regalloc_offset (s : State) :
  wrap_int (offset s) = offset s ->
  offset (regalloc s) = wrap_int (offset s + 8 * Z.of_nat (length (vars s))).
Proof.
  intros Hr. unfold regalloc.
  pose proof (regalloc_loop_offset (vars s) (offset s)) as H.
  pose proof (regalloc_loop_range (vars s) (offset s) Hr) as H'.
  destruct (regalloc_loop (vars s) (offset s)). simpl in *. congruence.
Qed.

Lemma regalloc_loop_length (l : list VarCell) :
  forall o, length (regalloc_loop l o).1 = length l.
Proof.
  induction l as [|c l IH]; intros o; simpl; [done|].
  specialize (IH (wrap_int (o + 8))). destruct (regalloc_loop l (wrap_int (o + 8))).
  simpl in *. lia.
Qed.

Lemma regalloc_out (s : State) : out (regalloc s) = out s.
Proof. unfold regalloc. by destruct (regalloc_loop (vars s) (offset s)). Qed.

(** The output of [compile]: six lines, the lines of [print], four
    lines. *)
Lemma compile_structure (ltr : bool) (f : Func) (s s' : State) :
  compile ltr f s = Some s' ->
  let total := offset (regalloc s) in
  exists body,
    Forall indented body /\
    out s' = out s
      ++ [".text"; ".globl " +:+ name f; name f +:+ ":";
          "    push %rbp"; "    mov %rsp, %rbp";
          "    sub $" +:+ dec total +:+ ", %rsp"]
      ++ body
      ++ ["    end:"; "    add $" +:+ dec total +:+ ", %rsp"; "    popq %rbp"; "    ret"].
Proof.
  intros H total. unfold compile in H. apply bind_Some in H as (s1 & Hprint & H).
  injection H as <-. apply print_extends in Hprint as [Hoff (body & Hout & Hind)].
  exists body. split; [done|].
  unfold compile_tail, write. simpl. rewrite Hout, Hoff.
  unfold compile_head, write, write_noindent. simpl. rewrite regalloc_out.
  fold total. by rewrite <- !app_assoc.
Qed.

(** Induction on trees, with the children of a node in a list. *)
Lemma Node_nested_ind (P : Node -> Prop) :
  (forall fname body, P body -> P (AST_FUNC fname body)) ->
  (forall ty_size varname declinit, Forall P declinit -> P (AST_DECL ty_size varname declinit)) ->
  (forall varname, P (AST_LVAR varname)) ->
  (forall stmts, Forall P stmts -> P (AST_COMPOUND_STMT stmts)) ->
  (forall retval, P retval -> P (AST_RETURN retval)) ->
  (forall operand, P operand -> P (AST_CONV operand)) ->
  (forall l r, P l -> P r -> P (AST_ADD l r)) ->
  (forall l r, P l -> P r -> P (AST_MUL l r)) ->
  (forall kind_int ival, P (AST_LITERAL kind_int ival)) ->
  P AST_OTHER ->
  forall node, P node.
Proof.
  intros Hfunc Hdecl Hlvar Hcomp Hret Hconv Hadd Hmul Hlit Hother.
  fix IH 1. intros [fname body|ty_size varname declinit|varname|stmts|retval|operand|l r|l r|k i|].
  - apply Hfunc, IH.
  - apply Hdecl. induction declinit as [|n l IHl]; constructor; [apply IH|exact IHl].
  - apply Hlvar.
  - apply Hcomp. induction stmts as [|n l IHl]; constructor; [apply IH|exact IHl].
  - apply Hret, IH.
  - apply Hconv, IH.
  - apply Hadd; apply IH.
  - apply Hmul; apply IH.
  - apply Hlit.
  - apply Hother.
Qed.

(** What the steps of [walk] keep, [walk] keeps. *)
Lemma walk_preserves (uninit : Z -> Z * bool) (P : State -> Prop) :
  (forall s size name lv,
      P s -> 8 <= size ->
      CMap.map_put (lvars s) name (mem_ptr (length (mems s))) = Some lv ->
      P (set_lvars lv (alloc size s).2)) ->
  (forall s, P s -> P (make_var uninit s).2) ->
  (forall s i, P s -> P (emit i s)) ->
  forall (node : Node) (s s' : State) (r : option Var),
    P s -> walk uninit node s = Some (r, s') -> P s'.
Proof.
  intros Halloc Hvar Hemit.
  induction node as [fname body IH|ty_size varname declinit IH|varname|stmts IH
                    |retval IH|operand IH|l r IHl IHr|l r IHl IHr|k i|]
    using Node_nested_ind; intros s s' res HP H; simpl in H; try done.
  - apply bind_Some in H as (lv & Hput & H).
    pose proof (Halloc s (Z.max ty_size 8) varname lv HP ltac:(lia) Hput) as HP1.
    destruct declinit as [|init rest].
    + by injection H as _ <-.
    + apply bind_Some in H as ([rhs s3] & Hw & H). injection H as _ <-.
      apply Forall_cons in IH as [IH _]. apply Hemit. by eapply IH.
  - apply bind_Some in H as (m & _ & H). destruct (m =? CMap.NULL); [done|].
    injection H as _ <-. apply Hemit, (Hvar s HP).
  - apply bind_Some in H as (s1 & Hloop & H). injection H as _ <-.
    revert s HP Hloop. induction IH as [|n rest Hn _ IHrest]; intros s HP Hloop.
    + by injection Hloop as <-.
    + apply bind_Some in Hloop as ([r1 s2] & Hw & Hloop).
      eapply IHrest; [|exact Hloop]. by eapply Hn.
  - apply bind_Some in H as ([v s1] & Hw & H). injection H as _ <-.
    apply Hemit. by eapply IH.
  - by eapply IH.
  - apply bind_Some in H as ([lhs s2] & Hl & H).
    apply bind_Some in H as ([rhs s3] & Hr & H). injection H as _ <-.
    apply Hemit. eapply IHr; [|exact Hr]. eapply IHl; [|exact Hl]. apply (Hvar s HP).
  - apply bind_Some in H as ([lhs s2] & Hl & H).
    apply bind_Some in H as ([rhs s3] & Hr & H). injection H as _ <-.
    apply Hemit. eapply IHr; [|exact Hr]. eapply IHl; [|exact Hl]. apply (Hvar s HP).
  - destruct k; [|done]. by injection H as _ <-.
Qed.

Lemma frame_kept_trans s1 s2 s3 : frame_kept s1 s2 -> frame_kept s2 s3 -> frame_kept s1 s3.
Proof. intros [? ?] [? ?]. split; congruence. Qed.

Lemma alloc_frame_kept (size : Z) (s : State) (lv : CMap.Map) :
  frame_kept s (set_lvars lv (alloc size s).2).
Proof.
  split; [|done]. simpl. rewrite sum_sizes_snoc. simpl.
  replace (wrap_int (offset s + size) - (sum_sizes (mems s) + size))
    with (wrap_int (offset s + size) + (- sum_sizes (mems s) - size)) by lia.
  rewrite wrap_int_add_l. f_equal. lia.
Qed.

Lemma walk_frame_kept (uninit : Z -> Z * bool) (node : Node) :
  forall (s s' : State) (r : option Var),
    walk uninit node s = Some (r, s') -> frame_kept s s'.
Proof.
  induction node as [fname body IH|ty_size varname declinit IH|varname|stmts IH
                    |retval IH|operand IH|l r IHl IHr|l r IHl IHr|k i|]
    using Node_nested_ind; intros s s' res H; simpl in H; try done.
  - apply bind_Some in H as (lv & _ & H).
    eapply frame_kept_trans; [apply (alloc_frame_kept (Z.max ty_size 8) s lv)|].
    destruct declinit as [|init rest].
    + by injection H as _ <-.
    + apply bind_Some in H as ([rhs s3] & Hw & H). injection H as _ <-.
      apply Forall_cons in IH as [IH _]. by apply IH in Hw.
  - apply bind_Some in H as (m & _ & H). destruct (m =? CMap.NULL); [done|].
    by injection H as _ <-.
  - apply bind_Some in H as (s1 & Hloop & H). injection H as _ <-.
    revert s Hloop. induction IH as [|n rest Hn _ IHrest]; intros s Hloop.
    + by injection Hloop as <-.
    + apply bind_Some in Hloop as ([r1 s2] & Hw & Hloop).
      eapply frame_kept_trans; [by eapply Hn|by apply IHrest].
  - apply bind_Some in H as ([v s1] & Hw & H). injection H as _ <-.
    by apply IH in Hw.
  - by eapply IH.
  - apply bind_Some in H as ([lhs s2] & Hl & H).
    apply bind_Some in H as ([rhs s3] & Hr & H). injection H as _ <-.
    apply IHl in Hl. apply IHr in Hr. destruct Hl, Hr. split; simpl in *; congruence.
  - apply bind_Some in H as ([lhs s2] & Hl & H).
    apply bind_Some in H as ([rhs s3] & Hr & H). injection H as _ <-.
    apply IHl in Hl. apply IHr in Hr. destruct Hl, Hr. split; simpl in *; congruence.
  - destruct k; [|done]. by injection H as _ <-.
Qed.

Lemma sum_sizes_nonneg (l : list Mem) :
  Forall (λ m, 8 <= m_size m) l -> 0 <= sum_sizes l.
Proof. induction 1 as [|m l Hm _ IH]; simpl; [done|]. unfold sum_sizes in *. simpl. lia. Qed.

(** What [walk] keeps of the frame: the offset is the sum of the sizes
    on [mems], as an [int], and no size is below eight. *)
Lemma walk_offset (uninit : Z -> Z * bool) (node : Node) (s s' : State) (r : option Var) :
  offset s = wrap_int (sum_sizes (mems s)) -> Forall (λ m, 8 <= m_size m) (mems s) ->
  walk uninit node s = Some (r, s') ->
  offset s' = wrap_int (sum_sizes (mems s')) /\ Forall (λ m, 8 <= m_size m) (mems s').
Proof.
  intros Ho Hs. pose proof (conj Ho Hs) as H. revert H. clear Ho Hs.
  apply (walk_preserves uninit
           (λ t, offset t = wrap_int (sum_sizes (mems t))
                 /\ Forall (λ m, 8 <= m_size m) (mems t))); try done.
  intros t size name lv [Ht Hf] Hsize _. simpl. split.
  - by rewrite sum_sizes_snoc, Ht, wrap_int_add_l.
  - apply Forall_app. split; [done|]. by repeat constructor.
Qed.

(** The frame offset after translation and [regalloc]. *)
Lemma translate_offset (uninit : Z -> Z * bool) (toplevels : list Node) (f : Func)
    (s : State) :
  translate uninit toplevels init_state = Some (f, s) ->
  offset (regalloc s)
  = wrap_int (sum_sizes (mems s) + 8 * Z.of_nat (length (vars s)))
  /\ Forall (λ m, 8 <= m_size m) (mems s) /\ out s = [].
Proof.
  intros Ht. unfold translate in Ht.
  destruct toplevels as [|[fname body| | | | | | | | |] [|]]; try done.
  apply bind_Some in Ht as ([r s1] & Hw & Ht). injection Ht as _ <-.
  destruct (walk_offset uninit body init_state s1 r eq_refl ltac:(constructor) Hw)
    as [Ho Hs].
  apply walk_frame_kept in Hw as [_ Hout].
  split; [|done].
  rewrite regalloc_offset by (rewrite Ho; apply wrap_int_idem).
  by rewrite Ho, wrap_int_add_l.
Qed.

(** C8, as stated, fails: the frame offset is an [int].  With two
    declarations of 2147483647 bytes each, the sizes of the [Mem]s made
    add up to 4294967294, and the operand of the [sub] is -2. *)
Lemma frame_size_overflows :
  exists f s s',
    translate zeroed two_large init_state = Some (f, s)
    /\ compile true f s = Some s'
    /\ sum_sizes (mems s) + 8 * Z.of_nat (length (vars s)) = 4294967294
    /\ out s' !! 5%nat = Some "    sub $-2, %rsp"%string
    /\ out s' !! 5%nat
       <> Some ("    sub $" +:+ dec (sum_sizes (mems s) + 8 * Z.of_nat (length (vars s)))
                  +:+ ", %rsp").
Proof.
  do 3 eexists. split; [vm_compute; reflexivity|]. split; [vm_compute; reflexivity|].
  split; [vm_compute; reflexivity|]. split; [vm_compute; reflexivity|].
  vm_compute. discriminate.
Qed.

(** C8 (amended).  When a translation unit is translated from the initial
    state and compiled, and the sizes of all [Mem]s made, which are on
    [mems], plus 8 for every [VAR] made, which are on [vars], add up to
    no more than the largest [int], then the operand of the [sub] on
    [%rsp] in the prologue is that sum; a literal is on neither list. *)
Theorem frame_size (ltr : bool) (uninit : Z -> Z * bool) (toplevels : list Node)
    (f : Func) (s s' : State) :
  translate uninit toplevels init_state = Some (f, s) ->
  compile ltr f s = Some s' ->
  sum_sizes (mems s) + 8 * Z.of_nat (length (vars s)) <= 2147483647 ->
  out s' !! 5%nat
  = Some ("    sub $" +:+ dec (sum_sizes (mems s) + 8 * Z.of_nat (length (vars s)))
            +:+ ", %rsp").
Proof.
  intros Ht Hc Hfit.
  destruct (translate_offset uninit toplevels f s Ht) as (Ho & Hs & Hout).
  apply sum_sizes_nonneg in Hs.
  apply compile_structure in Hc as (lines & _ & Hc). rewrite Hc, Hout, Ho. simpl.
  rewrite wrap_int_small; [done|]. lia.
Qed.

Lemma frame_size_witness :
  exists f s s',
    translate zeroed add_two init_state = Some (f, s)
    /\ compile true f s = Some s'
    /\ sum_sizes (mems s) + 8 * Z.of_nat (length (vars s)) = 40
    /\ out s' !! 5%nat
       = Some ("    sub $" +:+ dec (sum_sizes (mems s) + 8 * Z.of_nat (length (vars s)))
                 +:+ ", %rsp").
Proof.
  do 3 eexists. split; [vm_compute; reflexivity|]. split; [vm_compute; reflexivity|].
  split; [vm_compute; reflexivity|].
  eapply (frame_size true zeroed add_two);
    [vm_compute; reflexivity|vm_compute; reflexivity|by vm_compute].
Defined.

(** C7 (the code departs from the claim).  The claim: on an eviction the
    incoming value is loaded exactly when it was spilled before, and a
    value just made, such as the destination of a sum, is not loaded.
    The code: [make_var] never writes [spilled], so [regname] reads what
    [malloc] left there.  In [seven_values] the destination of the
    outermost sum was never in a register, let alone spilled, yet with a
    stale byte in its cell the eviction that makes room for it is
    followed by a load from its slot at -16; with zeroed memory the spill
    is the same and there is no load. *)
Theorem fresh_destination_loaded :
  out <$> codegen true stale_flag seven_values init_state
  = Some [".text"; ".globl f"; "f:"; "    push %rbp"; "    mov %rsp, %rbp";
          "    sub $64, %rsp"; "    movq $1, -8(%rbp)";
          "    movq -8(%rbp), %rdi"; "    movq -8(%rbp), %rsi";
          "    movq %rdi, %rdx"; "    addq %rsi, %rdx";
          "    movq -8(%rbp), %rcx"; "    movq %rdx, %r8";
          "    addq %rcx, %r8"; "    movq -8(%rbp), %r9";
          "    movq %rdi, -40(%rbp)  # spill";
          "    movq -16(%rbp), %rdi  # load"; "    movq %r8, %rdi";
          "    addq %r9, %rdi"; "    movq %rdi, %rax"; "    jmp end";
          "    end:"; "    add $64, %rsp"; "    popq %rbp"; "    ret"]
  /\ out <$> codegen false stale_flag seven_values init_state
     = out <$> codegen true stale_flag seven_values init_state
  /\ out <$> codegen true zeroed seven_values init_state
  = Some [".text"; ".globl f"; "f:"; "    push %rbp"; "    mov %rsp, %rbp";
          "    sub $64, %rsp"; "    movq $1, -8(%rbp)";
          "    movq -8(%rbp), %rdi"; "    movq -8(%rbp), %rsi";
          "    movq %rdi, %rdx"; "    addq %rsi, %rdx";
          "    movq -8(%rbp), %rcx"; "    movq %rdx, %r8";
          "    addq %rcx, %r8"; "    movq -8(%rbp), %r9";
          "    movq %rdi, -40(%rbp)  # spill"; "    movq %r8, %rdi";
          "    addq %r9, %rdi"; "    movq %rdi, %rax"; "    jmp end";
          "    end:"; "    add $64, %rsp"; "    popq %rbp"; "    ret"].
Proof. by vm_compute. Qed.

(** C9 (the code departs from the claim).  The claim: directive, [.globl],
    label, prologue, body, [end:], epilogue, [ret], with mnemonics
    indented by four spaces and every label and directive, [end:]
    included, unindented.  The code: the order and the indentation of the
    mnemonics are as claimed and the function's label is written with
    [write_noindent], but [end:] is written with [write] and comes out
    indented. *)
Theorem end_label_indented :
  out <$> codegen true zeroed return_one init_state
  = Some [".text"; ".globl f"; "f:"; "    push %rbp"; "    mov %rsp, %rbp";
          "    sub $0, %rsp"; "    movq $1, %rax"; "    jmp end";
          "    end:"; "    add $0, %rsp"; "    popq %rbp"; "    ret"].
Proof. by vm_compute. Qed.

(** * Further properties *)

(** ** map.c *)

Lemma reachable_inv (m : Map) :
  reachable m -> wf m /\ 10 * nused m < 7 * size m + 10.
Proof.
  intros (m0 & ops & Hf & Hrun).
  destruct (run_spec ops m0 (wf_fresh _ Hf) (fresh_load _ Hf)) as (m' & Hrun' & Hwf & Hload).
  rewrite Hrun in Hrun'. by injection Hrun' as <-.
Qed.

Lemma reachable_fresh (m : Map) : fresh m -> reachable m.
Proof. intros Hf. by exists m, []. Qed.

Lemma reachable_step (m m' : Map) (o : op) :
  reachable m -> step m o = Some m' -> reachable m'.
Proof.
  intros (m0 & ops & Hf & Hrun) Hstep. exists m0, (ops ++ [o]). split; [done|].
  clear Hf. revert m0 Hrun. induction ops as [|a ops IH]; intros m0 Hrun; simpl in *.
  - injection Hrun as ->. by rewrite Hstep.
  - destruct (step m0 a) as [m1|]; [|done]. simpl in *. by apply IH.
Qed.

(** What a reachable table with backing storage satisfies, unpacked. *)
Lemma reachable_arrays (m : Map) (mk : list kptr) :
  reachable m -> key m = Some mk ->
  exists mv n,
    val m = Some mv /\ 4 <= n /\ size m = 2 ^ n
    /\ Z.of_nat (length mk) = size m /\ Z.of_nat (length mv) = size m
    /\ nused m = used_slots mk /\ nelem m = live_slots mk
    /\ exists j, 0 <= j < size m /\ mk !! Z.to_nat j = Some KNull.
Proof.
  intros [Hwf Hload]%reachable_inv Hk. unfold wf in Hwf. rewrite Hk in Hwf.
  destruct (val m) as [mv|]; [|done].
  destruct Hwf as [(n & Hn & Hsz) Hkl Hvl Hu Hl].
  assert (16 <= 2 ^ n) as Hpos by (change 16 with (2 ^ 4); apply Z.pow_le_mono_r; lia).
  exists mv, n. repeat split; try done; try lia.
  apply (null_slot m mk); [done..|lia].
Qed.

(** X1.  Whatever sequence of [map_put] and [map_remove] calls ran on a
    fresh table, the counters are exact and the table is never full:
    [map_len] is the number of occupied slots, [nused] the number of
    occupied or tombstone slots, and with backing storage the capacity is
    a power of two, at least 16, both arrays have that many entries, and
    at least one slot is still [NULL]. *)
Theorem table_invariants (m : Map) :
  reachable m ->
  map_len m = live_slots (slots m)
  /\ nused m = used_slots (slots m)
  /\ 0 <= map_len m <= nused m
  /\ (is_Some (key m) ->
      is_Some (val m)
      /\ (exists n, 4 <= n /\ size m = 2 ^ n)
      /\ Z.of_nat (length (slots m)) = size m
      /\ Z.of_nat (length (default [] (val m))) = size m
      /\ nused m < size m).
Proof.
  intros Hr. pose proof (reachable_inv m Hr) as [Hwf Hload].
  unfold map_len, slots. destruct (key m) as [mk|] eqn:Hk.
  - destruct (reachable_arrays m mk Hr Hk)
      as (mv & n & Hv & Hn & Hsz & Hkl & Hvl & Hu & Hl & _).
    assert (16 <= 2 ^ n) as Hpos by (change 16 with (2 ^ 4); apply Z.pow_le_mono_r; lia).
    pose proof (live_le_used mk). pose proof (count_range is_str mk) as Hc.
    fold (live_slots mk) in Hc. rewrite Hv. simpl.
    repeat split; try done; try lia. by exists n.
  - unfold wf in Hwf. rewrite Hk in Hwf. destruct Hwf as (Hs & He & Hu).
    rewrite He, Hu. repeat split; try done; try (by intros [? ?]).
Qed.

Lemma table_invariants_witness :
  exists m,
    run (dup_ops ++ twelve_puts ++ [Remove "c"; Remove "q"]) make_map = Some m
    /\ size m = 32 /\ map_len m = 12 /\ nused m = 14
    /\ map_len m = live_slots (slots m)
    /\ nused m = used_slots (slots m)
    /\ 0 <= map_len m <= nused m
    /\ (is_Some (key m) ->
        is_Some (val m)
        /\ (exists n, 4 <= n /\ size m = 2 ^ n)
        /\ Z.of_nat (length (slots m)) = size m
        /\ Z.of_nat (length (default [] (val m))) = size m
        /\ nused m < size m).
Proof.
  eexists. split; [vm_compute; reflexivity|].
  split; [vm_compute; reflexivity|]. split; [vm_compute; reflexivity|].
  split; [vm_compute; reflexivity|].
  apply (table_invariants _).
  exists make_map, (dup_ops ++ twelve_puts ++ [Remove "c"; Remove "q"]).
  split; [apply (fresh_make None)|vm_compute; reflexivity].
Defined.

Section LookupLoop.
Variables (mk : list kptr) (mv : list vptr) (n : Z).
Hypothesis Hn : 0 <= n.
Hypothesis Hklen : Z.of_nat (length mk) = 2 ^ n.

(** A key held by no slot is not found: the loop of [map_get_nostack]
    reaches a [NULL] slot and returns [NULL]. *)
Lemma get_probe_absent (k : string) (j : Z) :
  (forall x, In x mk -> holds k x = false) ->
  0 <= j < 2 ^ n -> mk !! Z.to_nat j = Some KNull ->
  forall (fuel : nat) (i : Z),
    0 <= i < 2 ^ n -> (j - i) mod 2 ^ n < Z.of_nat fuel ->
    get_probe fuel mk mv (2 ^ n - 1) i k = Some NULL.
Proof.
  intros Habs Hj Hnull. induction fuel as [|fuel IH]; intros i Hi Hd.
  { pose proof (Z.mod_pos_bound (j - i) (2 ^ n)). lia. }
  destruct (lookup_in_range mk (2 ^ n) i Hklen Hi) as [x Hx].
  assert (x <> KNull ->
    get_probe fuel mk mv (2 ^ n - 1) (Z.land (i + 1) (2 ^ n - 1)) k = Some NULL) as Hnext.
  { intros Hnn. assert (i <> j) as Hne by (intros ->; congruence).
    apply IH; [apply mask_range; done|].
    rewrite probe_closer by done. lia. }
  simpl. rewrite Hx. destruct x as [| |s]; [done|by apply Hnext|].
  assert (holds k (KStr s) = false) as Hs.
  { apply Habs. apply list_elem_of_In. by eapply list_elem_of_lookup_2. }
  simpl in Hs. rewrite Hs. by apply Hnext.
Qed.
End LookupLoop.

Lemma lookup_absent (m : Map) (k : string) :
  reachable m -> ~ In (KStr k) (slots m) -> map_get_nostack m k = Some NULL.
Proof.
  intros Hr Habs. unfold map_get_nostack. unfold slots in Habs.
  destruct (key m) as [mk|] eqn:Hk; [|done].
  destruct (reachable_arrays m mk Hr Hk)
    as (mv & n & Hv & Hn & Hsz & Hkl & Hvl & Hu & Hl & j & Hj & Hnull).
  rewrite Hv, Hsz in *. simpl in *.
  apply (get_probe_absent mk mv n) with (j := j); try done; try lia.
  - by apply absent_holds.
  - apply mask_range. lia.
  - pose proof (Z.mod_pos_bound (j - Z.land (hash k) (2 ^ n - 1)) (2 ^ n)). lia.
Qed.

(** X2.  On a reachable table a lookup of a key that no slot holds
    terminates and misses: [map_get_nostack] returns [NULL], and [map_get]
    on a table without parent returns [NULL] as well. *)
Theorem lookup_absent_misses (m : Map) (k : string) :
  reachable m -> ~ In (KStr k) (slots m) ->
  map_get_nostack m k = Some NULL
  /\ (parent m = None -> map_get m k = Some NULL).
Proof.
  intros Hr Habs. pose proof (lookup_absent m k Hr Habs) as Hmiss.
  split; [done|]. intros Hp. destruct m as [p mk mv sz ne nu]. simpl in Hp. subst p.
  simpl. by rewrite Hmiss.
Qed.

Lemma lookup_absent_misses_witness :
  exists m,
    run [Put "a" 1; Put "q" 2; Remove "a"] make_map = Some m
    /\ Z.land (hash "a") (size m - 1) = 12
    /\ slots m !! 12%nat = Some KTomb /\ slots m !! 13%nat = Some (KStr "q")
    /\ slots m !! 14%nat = Some KNull
    /\ ~ In (KStr "a") (slots m)
    /\ map_get_nostack m "a" = Some NULL
    /\ (parent m = None -> map_get m "a" = Some NULL).
Proof.
  eexists. split; [vm_compute; reflexivity|].
  split; [vm_compute; reflexivity|]. split; [vm_compute; reflexivity|].
  split; [vm_compute; reflexivity|]. split; [vm_compute; reflexivity|].
  split; [vm_compute; intuition congruence|].
  apply (lookup_absent_misses _ "a").
  - exists make_map, [Put "a" 1; Put "q" 2; Remove "a"].
    split; [apply (fresh_make None)|vm_compute; reflexivity].
  - vm_compute; intuition congruence.
Defined.

Lemma map_get_unfold (m : Map) (k : string) :
  map_get m k
  = (r ← map_get_nostack m k;
     if negb (r =? NULL) then Some r
     else match parent m with Some p => map_get p k | None => Some NULL end).
Proof. by destruct m as [[p|] mk mv sz ne nu]. Qed.

Lemma step_back (n i : Z) :
  0 <= n -> 0 <= i < 2 ^ n -> (i - Z.land (i + 1) (2 ^ n - 1)) mod 2 ^ n = 2 ^ n - 1.
Proof.
  intros Hn Hi. rewrite mask_land by done. rewrite Zminus_mod_idemp_r.
  replace (i - (i + 1)) with (2 ^ n - 1 + - 1 * 2 ^ n) by lia.
  rewrite Z.mod_add by lia. apply Z.mod_small. lia.
Qed.

Section PutThenGet.
Variables (m : Map) (mk : list kptr) (mv : list vptr) (n : Z) (k : string) (v : vptr).
Hypothesis Hn : 0 <= n.
Hypothesis Hsize : size m = 2 ^ n.
Hypothesis Hklen : Z.of_nat (length mk) = 2 ^ n.
Hypothesis Hvlen : Z.of_nat (length mv) = 2 ^ n.

(** Where the loop of [map_put] stores the binding, the loop of
    [map_get_nostack] finds it: both walk the same slots, all of them
    occupied by other keys. *)
Lemma put_probe_get :
  forall (fuel : nat) (i : Z) (m' : Map),
    Z.of_nat fuel <= 2 ^ n -> 0 <= i < 2 ^ n ->
    put_probe fuel m mk mv (2 ^ n - 1) i k v = Some m' ->
    exists j : Z,
      0 <= j < 2 ^ n /\ (j - i) mod 2 ^ n < Z.of_nat fuel
      /\ size m' = size m /\ parent m' = parent m
      /\ key m' = Some (<[Z.to_nat j := KStr k]> mk)
      /\ val m' = Some (<[Z.to_nat j := v]> mv)
      /\ get_probe fuel (<[Z.to_nat j := KStr k]> mk) (<[Z.to_nat j := v]> mv)
           (2 ^ n - 1) i k = Some v.
Proof.
  induction fuel as [|fuel IH]; intros i m' Hfuel Hi Hput; [done|].
  simpl in Hput.
  destruct (lookup_in_range mk (2 ^ n) i Hklen Hi) as [x Hx].
  assert (Z.to_nat i < length mk)%nat as Hik by lia.
  assert (Z.to_nat i < length mv)%nat as Hiv by lia.
  assert (get_probe (S fuel) (<[Z.to_nat i := KStr k]> mk) (<[Z.to_nat i := v]> mv)
            (2 ^ n - 1) i k = Some v) as Hhere.
  { simpl. rewrite list_lookup_insert_eq by done. rewrite String.eqb_refl.
    by rewrite list_lookup_insert_eq. }
  assert ((i - i) mod 2 ^ n < Z.of_nat (S fuel)) as Hzero.
  { rewrite Z.sub_diag, Z.mod_0_l; lia. }
  rewrite Hx in Hput. destruct x as [| |s].
  - injection Hput as <-. exists i. repeat split; try done; try lia.
  - injection Hput as <-. exists i. repeat split; try done; try lia.
  - destruct (String.eqb s k) eqn:Hsk.
    + apply String.eqb_eq in Hsk. rewrite Hsk in Hx.
      injection Hput as <-. exists i. repeat split; try done; try lia.
      simpl. by rewrite (list_insert_id mk _ _ Hx).
    + destruct (IH (Z.land (i + 1) (2 ^ n - 1)) m') as (j & Hj & Hd & Hs & Hp & Hk & Hv & Hg);
        [lia|by apply mask_range|done|].
      assert (i <> j) as Hij.
      { intros <-. rewrite step_back in Hd by done. lia. }
      exists j. repeat split; try done; try lia.
      * rewrite probe_closer in Hd by done. lia.
      * simpl. rewrite list_lookup_insert_ne by lia. rewrite Hx, Hsk. exact Hg.
Qed.
End PutThenGet.

(** X3.  Insert, then look up: on a reachable table [map_put] returns,
    and a lookup of the key in the table it leaves finds the value just
    put, whether the key was new, bound before, or the table was rehashed
    on the way; a value other than [NULL] is also what [map_get] returns,
    whatever the ancestors bind. *)
Theorem put_then_get (m : Map) (k : string) (v : vptr) :
  reachable m ->
  exists m', map_put m k v = Some m'
             /\ map_get_nostack m' k = Some v
             /\ (v <> NULL -> map_get m' k = Some v).
Proof.
  intros Hr. pose proof (reachable_inv m Hr) as [Hwf _].
  destruct (map_put_spec m k v Hwf) as (m' & Hput & _). exists m'. split; [done|].
  unfold map_put in Hput.
  destruct (maybe_rehash_spec m Hwf) as (m1 & Hre & Hwf1 & _ & [mk Hk] & Hload).
  rewrite Hre in Hput. simpl in Hput. rewrite Hk in Hput. simpl in Hput.
  unfold wf in Hwf1. rewrite Hk in Hwf1.
  destruct (val m1) as [mv|] eqn:Hv; [|done]. simpl in Hput.
  destruct Hwf1 as [(n & Hn & Hsz) Hkl Hvl Hu Hl].
  assert (0 < 2 ^ n) as Hpos by (apply Z.pow_pos_nonneg; lia).
  rewrite Hsz in Hput, Hkl, Hvl.
  destruct (put_probe_get m1 mk mv n k v) with
    (fuel := Z.to_nat (2 ^ n)) (i := Z.land (hash k) (2 ^ n - 1)) (m' := m')
    as (j & Hj & _ & Hs' & _ & Hk' & Hv' & Hget); try done; try lia.
  { apply mask_range. lia. }
  assert (map_get_nostack m' k = Some v) as Hfound.
  { unfold map_get_nostack. rewrite Hk', Hv', Hs', Hsz. exact Hget. }
  split; [done|]. intros Hnz. rewrite map_get_unfold, Hfound. simpl.
  destruct (Z.eqb_spec v NULL); done.
Qed.

Lemma put_then_get_witness :
  reachable make_map /\
  exists m', map_put make_map "a" 5 = Some m'
             /\ map_get_nostack m' "a" = Some 5
             /\ (5 <> NULL -> map_get m' "a" = Some 5).
Proof.
  split; [apply reachable_fresh, (fresh_make None)|].
  apply (put_then_get make_map "a" 5). apply reachable_fresh, (fresh_make None).
Defined.

(** What a call of [map_remove]'s loop does: it either finds no slot with
    the key before a [NULL] slot and returns the table as it is, or turns
    the first slot with the key on its way into a tombstone. *)
Lemma remove_probe_cases (m : Map) (mk : list kptr) (mask : Z) (k : string) :
  forall (fuel : nat) (i : Z) (m' : Map),
    remove_probe fuel m mk mask i k = Some m' ->
    (m' = m /\ forall mv, get_probe fuel mk mv mask i k = Some NULL)
    \/ (exists (j : nat) (mv : list vptr),
          mk !! j = Some (KStr k) /\ val m = Some mv
          /\ m' = mkMap (parent m) (Some (<[j := KTomb]> mk)) (Some (<[j := NULL]> mv))
                    (size m) (nelem m - 1) (nused m)).
Proof.
  induction fuel as [|fuel IH]; intros i m' H; [done|]. simpl in H.
  destruct (mk !! Z.to_nat i) as [[| |s]|] eqn:Hx; try done.
  - injection H as <-. left. split; [done|]. intros mv. simpl. by rewrite Hx.
  - apply IH in H as [[-> Hg]|H]; [left|by right].
    split; [done|]. intros mv. simpl. by rewrite Hx.
  - destruct (String.eqb_spec s k) as [->|Hne].
    + apply bind_Some in H as (mv & Hv & H). injection H as <-.
      right. by exists (Z.to_nat i), mv.
    + apply IH in H as [[-> Hg]|H]; [left|by right].
      split; [done|]. intros mv. simpl. rewrite Hx.
      destruct (String.eqb_spec s k); [done|apply Hg].
Qed.

(** A lookup of another key does not see whether a slot holds [k] or a
    tombstone. *)
Lemma get_probe_tombstone (mk : list kptr) (mv : list vptr) (mask : Z)
    (k k' : string) (j : nat) (x : vptr) :
  mk !! j = Some (KStr k) -> k' <> k ->
  forall (fuel : nat) (i : Z),
    get_probe fuel (<[j := KTomb]> mk) (<[j := x]> mv) mask i k'
    = get_probe fuel mk mv mask i k'.
Proof.
  intros Hj Hne. induction fuel as [|fuel IH]; intros i; [done|]. simpl.
  destruct (decide (Z.to_nat i = j)) as [<-|Hij].
  - rewrite list_lookup_insert_eq by (by eapply lookup_lt_Some). rewrite Hj.
    destruct (String.eqb_spec k k'); [congruence|apply IH].
  - rewrite !list_lookup_insert_ne by done.
    destruct (mk !! Z.to_nat i) as [[| |s]|]; try done.
    destruct (String.eqb s k'); [done|apply IH].
Qed.

(** X4.  Remove, then look up: on a reachable table in which the key
    occupies at most one slot, [map_remove] returns and a lookup of the
    key in the table it leaves misses. *)
Theorem remove_then_get (m : Map) (k : string) :
  reachable m -> key_count k (slots m) <= 1 ->
  exists m', map_remove m k = Some m' /\ map_get_nostack m' k = Some NULL.
Proof.
  intros Hr Hone. pose proof (reachable_inv m Hr) as [Hwf Hload].
  destruct (map_remove_spec m k Hwf Hload) as (m' & Hrem & _). exists m'. split; [done|].
  assert (reachable m') as Hr' by (by apply (reachable_step m m' (Remove k))).
  unfold map_remove in Hrem. unfold slots in Hone.
  destruct (key m) as [mk|] eqn:Hk.
  2: { injection Hrem as <-. unfold map_get_nostack. by rewrite Hk. }
  apply remove_probe_cases in Hrem as [[-> Hmiss]|(j & mv & Hj & Hv & ->)].
  - unfold map_get_nostack. rewrite Hk. apply Hmiss.
  - apply lookup_absent; [done|]. unfold slots. simpl. intros Hin.
    assert (key_count k (<[j := KTomb]> mk) = 0) as Hzero.
    { unfold key_count in *. rewrite (count_insert _ _ _ _ _ Hj). simpl.
      rewrite String.eqb_refl. pose proof (count_range (holds k) (<[j := KTomb]> mk)) as Hc.
      rewrite (count_insert _ _ _ _ _ Hj) in Hc. simpl in Hc.
      rewrite String.eqb_refl in Hc. simpl in *. lia. }
    apply count_zero_iff with (x := KStr k) in Hzero; [|done].
    simpl in Hzero. by rewrite String.eqb_refl in Hzero.
Qed.

Lemma remove_then_get_witness :
  exists m,
    run [Put "a" 1; Put "q" 2] make_map = Some m
    /\ slots m !! 12%nat = Some (KStr "a") /\ slots m !! 13%nat = Some (KStr "q")
    /\ map_get_nostack m "q" = Some 2
    /\ key_count "q" (slots m) = 1
    /\ exists m', map_remove m "q" = Some m' /\ map_get_nostack m' "q" = Some NULL.
Proof.
  eexists. split; [vm_compute; reflexivity|].
  split; [vm_compute; reflexivity|]. split; [vm_compute; reflexivity|].
  split; [vm_compute; reflexivity|]. split; [vm_compute; reflexivity|].
  apply (remove_then_get _ "q").
  - exists make_map, [Put "a" 1; Put "q" 2].
    split; [apply (fresh_make None)|vm_compute; reflexivity].
  - vm_compute; discriminate.
Defined.

(** X5.  Removing a key leaves every other key alone: a lookup of another
    key, in the table itself or through its ancestors, returns after the
    removal what it returned before. *)
Theorem remove_keeps_others (m m' : Map) (k k' : string) :
  map_remove m k = Some m' -> k' <> k ->
  map_get_nostack m' k' = map_get_nostack m k'
  /\ map_get m' k' = map_get m k'.
Proof.
  intros Hrem Hne.
  assert (map_get_nostack m' k' = map_get_nostack m k' /\ parent m' = parent m) as [Hg Hp].
  { unfold map_remove in Hrem. destruct (key m) as [mk|] eqn:Hk.
    2: { by injection Hrem as <-. }
    apply remove_probe_cases in Hrem as [[-> _]|(j & mv & Hj & Hv & ->)]; [done|].
    split; [|done]. unfold map_get_nostack. rewrite Hk, Hv. simpl.
    by apply (get_probe_tombstone mk mv _ k). }
  split; [done|]. by rewrite !map_get_unfold, Hg, Hp.
Qed.

Lemma remove_keeps_others_witness :
  exists m m', run dup_ops make_map = Some m
    /\ map_remove m "q" = Some m' /\ "a"%string <> "q"%string
    /\ map_get_nostack m' "a" = map_get_nostack m "a"
    /\ map_get m' "a" = map_get m "a".
Proof.
  do 2 eexists. split; [by vm_compute|].
  assert ("a"%string <> "q"%string) as Hne by discriminate.
  split; [by vm_compute|]. split; [exact Hne|].
  apply (remove_keeps_others _ _ "q" "a"); [by vm_compute|exact Hne].
Defined.

(** [map_put] and [map_remove] never relink a table. *)
Lemma step_parent (m m' : Map) (o : op) :
  wf m -> 10 * nused m < 7 * size m + 10 -> step m o = Some m' -> parent m' = parent m.
Proof.
  intros Hwf Hload Hstep. destruct o as [k v|k]; simpl in Hstep.
  - unfold map_put in Hstep.
    destruct (maybe_rehash_spec m Hwf) as (m1 & Hre & Hwf1 & Hp1 & [mk Hk] & _).
    rewrite Hre in Hstep. simpl in Hstep. rewrite Hk in Hstep. simpl in Hstep.
    unfold wf in Hwf1. rewrite Hk in Hwf1.
    destruct (val m1) as [mv|] eqn:Hv; [|done]. simpl in Hstep.
    destruct Hwf1 as [(n & Hn & Hsz) Hkl Hvl Hu Hl].
    assert (0 < 2 ^ n) as Hpos by (apply Z.pow_pos_nonneg; lia).
    rewrite Hsz in Hstep, Hkl, Hvl.
    destruct (put_probe_get m1 mk mv n k v) with
      (fuel := Z.to_nat (2 ^ n)) (i := Z.land (hash k) (2 ^ n - 1)) (m' := m')
      as (j & _ & _ & _ & Hp & _); try done; try lia.
    { apply mask_range. lia. }
    congruence.
  - unfold map_remove in Hstep. destruct (key m) as [mk|] eqn:Hk.
    2: { by injection Hstep as <-. }
    by apply remove_probe_cases in Hstep as [[-> _]|(j & mv & Hj & Hv & ->)].
Qed.

Lemma run_parent (ops : list op) :
  forall m m', wf m -> 10 * nused m < 7 * size m + 10 ->
    run ops m = Some m' -> parent m' = parent m.
Proof.
  induction ops as [|o ops IH]; intros m m' Hwf Hload Hrun; simpl in Hrun.
  - by injection Hrun as <-.
  - destruct (step m o) as [m1|] eqn:Hstep; [|done]. simpl in Hrun.
    destruct (run_spec [o] m Hwf Hload) as (m1' & Hrun1 & Hwf1 & Hload1).
    simpl in Hrun1. rewrite Hstep in Hrun1. simpl in Hrun1. injection Hrun1 as <-.
    rewrite (IH m1 m' Hwf1 Hload1 Hrun). by eapply step_parent.
Qed.

(** X6.  A scope falls back on its parent: whatever calls ran on a table
    made by [make_map_parent], the table still has that parent, and
    [map_get] for a key that no slot of the table holds returns what
    [map_get] on the parent returns. *)
Theorem get_falls_back_to_parent (p m : Map) (ops : list op) (k : string) :
  run ops (make_map_parent p) = Some m -> ~ In (KStr k) (slots m) ->
  parent m = Some p /\ map_get m k = map_get p k.
Proof.
  intros Hrun Habs.
  assert (fresh (make_map_parent p)) as Hf by apply (fresh_make (Some p)).
  assert (parent m = Some p) as Hp.
  { by rewrite (run_parent ops _ m (wf_fresh _ Hf) (fresh_load _ Hf) Hrun). }
  split; [done|]. rewrite map_get_unfold.
  rewrite (lookup_absent m k); [|by exists (make_map_parent p), ops|done].
  simpl. by rewrite Hp.
Qed.

Lemma get_falls_back_to_parent_witness :
  exists p m,
    run [Put "z" 11] make_map = Some p
    /\ run dup_ops (make_map_parent p) = Some m /\ ~ In (KStr "z") (slots m)
    /\ parent m = Some p /\ map_get m "z" = map_get p "z" /\ map_get m "z" = Some 11.
Proof.
  do 2 eexists. split; [by vm_compute|].
  match goal with |- run _ (make_map_parent ?p) = Some ?m /\ _ =>
    assert (run dup_ops (make_map_parent p) = Some m) as Hrun by (by vm_compute) end.
  match type of Hrun with _ = Some ?m =>
    assert (~ In (KStr "z") (slots m)) as Habs by (vm_compute; intuition congruence) end.
  split; [exact Hrun|]. split; [exact Habs|].
  destruct (get_falls_back_to_parent _ _ dup_ops "z" Hrun Habs) as [Hp Hg].
  split; [exact Hp|]. split; [exact Hg|]. by vm_compute.
Defined.

(** *** Bindings *)

Lemma entries_split (j : nat) :
  forall (mk : list kptr) (mv : list vptr) (x : kptr) (y : vptr),
    mk !! j = Some x -> mv !! j = Some y ->
    entries mk mv
    = entries (take j mk) (take j mv) ++ slot_entry x y
        ++ entries (drop (S j) mk) (drop (S j) mv).
Proof.
  induction j as [|j IH]; intros [|a mk] [|b mv] x y Hx Hy; simplify_eq/=.
  - by destruct x.
  - rewrite (IH mk mv x y Hx Hy). by destruct a.
Qed.

Lemma entries_insert (j : nat) (mk : list kptr) (mv : list vptr) (a : kptr) (b : vptr) :
  (j < length mk)%nat -> (j < length mv)%nat ->
  entries (<[j := a]> mk) (<[j := b]> mv)
  = entries (take j mk) (take j mv) ++ slot_entry a b
      ++ entries (drop (S j) mk) (drop (S j) mv).
Proof.
  intros Hk Hv.
  rewrite (entries_split j (<[j := a]> mk) (<[j := b]> mv) a b)
    by (by apply list_lookup_insert_eq).
  by rewrite !take_insert_ge, !drop_insert_lt by lia.
Qed.

Lemma entries_calloc (a b : nat) : entries (replicate a KNull) (replicate b NULL) = [].
Proof. revert b. induction a as [|a IH]; intros [|b]; simpl; auto. Qed.

#[local] Instance other_key_dec (k : string) (e : string * vptr) : Decision (other_key k e).
Proof. unfold other_key. apply _. Defined.

Lemma rehash_probe_null (k : list kptr) (mask : Z) :
  forall (fuel : nat) (j j' : Z),
    rehash_probe fuel k mask j = Some j' -> k !! Z.to_nat j' = Some KNull.
Proof.
  induction fuel as [|fuel IH]; intros j j' H; [done|]. simpl in H.
  destruct (k !! Z.to_nat j) as [[| |s]|] eqn:Hx; try done.
  - by injection H as <-.
  - by eapply IH.
  - by eapply IH.
Qed.

Lemma in_insert {A} (l : list A) (j : nat) (a x : A) :
  In x (<[j := a]> l) -> x = a \/ In x l.
Proof.
  revert j. induction l as [|b l IH]; intros [|j]; simpl; try tauto.
  - intros [->|H]; auto.
  - intros [->|H]; auto. destruct (IH j H); auto.
Qed.

(** The scan of [maybe_rehash] carries every binding of the old arrays
    over, adds nothing else and leaves no tombstone. *)
Lemma rehash_loop_entries (mk : list kptr) (mv : list vptr) (mask : Z) :
  length mv = length mk ->
  forall (cnt : nat) (i : Z) (k : list kptr) (v : list vptr) (k' : list kptr) (v' : list vptr),
    0 <= i -> (Z.to_nat i + cnt)%nat = length mk -> length v = length k ->
    rehash_loop cnt i mk mv mask k v = Some (k', v') ->
    length v' = length k' /\ length k' = length k
    /\ (~ In KTomb k -> ~ In KTomb k')
    /\ entries k' v' ≡ₚ entries k v ++ entries (drop (Z.to_nat i) mk) (drop (Z.to_nat i) mv).
Proof.
  intros Hmv. induction cnt as [|cnt IH]; intros i k v k' v' Hi Hcnt Hlen H.
  { simpl in H. injection H as <- <-. rewrite !drop_ge by lia. simpl.
    by rewrite app_nil_r. }
  destruct (lookup_lt_is_Some_2 mk (Z.to_nat i)) as [x Hx]; [lia|].
  destruct (lookup_lt_is_Some_2 mv (Z.to_nat i)) as [y Hy]; [lia|].
  rewrite (drop_S _ _ _ Hx), (drop_S _ _ _ Hy).
  assert (Z.to_nat (i + 1) = S (Z.to_nat i)) as Hsucc by lia.
  simpl in H. rewrite Hx in H. destruct x as [| |s].
  - apply IH in H; [|lia..|done]. by rewrite Hsucc in H.
  - apply IH in H; [|lia..|done]. by rewrite Hsucc in H.
  - rewrite Hy in H. simpl in H.
    apply bind_Some in H as (j & Hj & H). apply rehash_probe_null in Hj.
    pose proof (lookup_lt_Some _ _ _ Hj) as Hjk.
    destruct (lookup_lt_is_Some_2 v (Z.to_nat j)) as [y0 Hy0]; [lia|].
    apply IH in H as (Hl1 & Hl2 & Htomb & Hperm); [|lia|lia|by rewrite !length_insert].
    rewrite length_insert in Hl2. rewrite Hsucc in Hperm.
    split; [done|]. split; [done|]. split.
    { intros Hno. apply Htomb. intros [?|?]%in_insert; [done|tauto]. }
    rewrite Hperm, entries_insert by lia.
    rewrite (entries_split _ k v _ _ Hj Hy0). simpl.
    rewrite <- !app_assoc. simpl.
    apply Permutation_app_head, Permutation_middle.
Qed.

(** [maybe_rehash] on a reachable table. *)
Lemma maybe_rehash_bindings (m : Map) :
  reachable m ->
  exists m', maybe_rehash m = Some m'
    /\ wf m' /\ is_Some (key m') /\ 10 * nused m' < 7 * size m'
    /\ bindings m' ≡ₚ bindings m /\ nelem m' = nelem m /\ parent m' = parent m
    /\ (m' = m \/ (~ In KTomb (slots m')
                   /\ (key m = None /\ size m' = INIT_SIZE
                       \/ size m' = size m \/ size m' = 2 * size m))).
Proof.
  intros Hr. pose proof (reachable_inv m Hr) as [Hwf _].
  destruct (maybe_rehash_spec m Hwf) as (m' & Hre & Hwf' & Hp & Hk' & Hload).
  exists m'. do 4 (split; [done|]).
  unfold maybe_rehash in Hre. destruct (key m) as [mk|] eqn:Hk.
  - destruct (reachable_arrays m mk Hr Hk)
      as (mv & n & Hv & Hn & Hsz & Hkl & Hvl & Hu & Hl & _).
    destruct (lt_07 (nused m) (size m)).
    { injection Hre as <-. repeat split; try done. by left. }
    rewrite Hv in Hre. simpl in Hre.
    apply bind_Some in Hre as ([k v] & Hloop & Hre). injection Hre as <-.
    apply rehash_loop_entries in Hloop as (Hl1 & Hl2 & Htomb & Hperm); try lia.
    2: { unfold calloc_keys, calloc_vals. by rewrite !length_replicate. }
    unfold bindings, slots. rewrite Hk, Hv. simpl.
    unfold calloc_keys, calloc_vals in Hperm. rewrite entries_calloc in Hperm.
    simpl in Hperm. change (Z.to_nat 0) with 0%nat in Hperm. rewrite !drop_0 in Hperm.
    repeat split; try done. right. split.
    + apply Htomb. unfold calloc_keys. intros Hin%list_elem_of_In.
      by apply elem_of_replicate in Hin as [? _].
    + right. destruct (lt_035 (nelem m) (size m)); [left|right]; lia.
  - injection Hre as <-. unfold bindings, slots. rewrite Hk. simpl.
    repeat split; try done.
    right. split; [intuition congruence|by left].
Qed.

(** X7.  Rehashing loses and invents nothing: on a reachable table the
    rehash check returns a table with the same bindings (as a multiset),
    the same [map_len] and the same parent; unless it returns the table
    unchanged, the new table has no tombstone and its capacity is the
    initial 16 (first allocation), the old one or twice the old one. *)
Theorem rehash_keeps_bindings (m : Map) :
  reachable m ->
  exists m', maybe_rehash m = Some m'
    /\ bindings m' ≡ₚ bindings m /\ map_len m' = map_len m /\ parent m' = parent m
    /\ (m' = m \/ (~ In KTomb (slots m')
                   /\ (key m = None /\ size m' = INIT_SIZE
                       \/ size m' = size m \/ size m' = 2 * size m))).
Proof.
  intros Hr.
  destruct (maybe_rehash_bindings m Hr) as (m' & Hre & _ & _ & _ & Hb & Hn & Hp & Hc).
  by exists m'.
Qed.

Lemma rehash_keeps_bindings_witness :
  exists m, run (twelve_puts ++ [Remove "a"; Remove "b"]) make_map = Some m
    /\ In KTomb (slots m)
    /\ exists m', maybe_rehash m = Some m'
         /\ bindings m' ≡ₚ bindings m /\ map_len m' = map_len m /\ parent m' = parent m
         /\ (m' = m \/ (~ In KTomb (slots m')
                        /\ (key m = None /\ size m' = INIT_SIZE
                            \/ size m' = size m \/ size m' = 2 * size m))).
Proof.
  eexists. split; [by vm_compute|]. split; [vm_compute; tauto|].
  apply rehash_keeps_bindings.
  exists make_map, (twelve_puts ++ [Remove "a"; Remove "b"]).
  split; [apply (fresh_make None)|by vm_compute].
Defined.

(** The slot the loop of [map_put] writes was [NULL], a tombstone or a
    slot of the key; it now holds the key and the value, and the counters
    moved accordingly. *)
Lemma put_probe_slot (m : Map) (mk : list kptr) (mv : list vptr) (mask : Z)
    (k : string) (v : vptr) :
  forall (fuel : nat) (i : Z) (m' : Map),
    put_probe fuel m mk mv mask i k v = Some m' ->
    exists (j : nat) (x : kptr),
      mk !! j = Some x /\ (x = KNull \/ x = KTomb \/ x = KStr k)
      /\ key m' = Some (<[j := KStr k]> mk) /\ val m' = Some (<[j := v]> mv)
      /\ nelem m' = nelem m + (if is_str x then 0 else 1).
Proof.
  induction fuel as [|fuel IH]; intros i m' H; [done|]. simpl in H.
  destruct (mk !! Z.to_nat i) as [[| |s]|] eqn:Hx; try done.
  - injection H as <-. exists (Z.to_nat i), KNull. repeat split; auto.
  - injection H as <-. exists (Z.to_nat i), KTomb. repeat split; auto.
  - destruct (String.eqb_spec s k) as [->|Hne]; [|by eapply IH].
    injection H as <-. exists (Z.to_nat i), (KStr k). repeat split; auto.
    + simpl. by rewrite (list_insert_id mk _ _ Hx).
    + simpl. lia.
Qed.

Lemma filter_slot_entry (k : string) (x : kptr) (y : vptr) :
  x = KNull \/ x = KTomb \/ x = KStr k -> filter (other_key k) (slot_entry x y) = [].
Proof.
  intros [-> | [-> | ->]]; try done. simpl.
  rewrite filter_cons_False; [done|]. unfold other_key. simpl. tauto.
Qed.

(** X8.  Inserting a key leaves the bindings of every other key alone:
    on a reachable table, the bindings of the other keys are the same
    (as a multiset) after [map_put] as before, also when the call
    rehashes; the pair just put is among the bindings, and [map_len]
    grows by one or not at all. *)
Theorem put_keeps_other_bindings (m m' : Map) (k : string) (v : vptr) :
  reachable m -> map_put m k v = Some m' ->
  filter (other_key k) (bindings m') ≡ₚ filter (other_key k) (bindings m)
  /\ (k, v) ∈ bindings m'
  /\ map_len m <= map_len m' <= map_len m + 1.
Proof.
  intros Hr Hput. unfold map_put in Hput.
  destruct (maybe_rehash_bindings m Hr)
    as (m1 & Hre & Hwf1 & [mk Hk] & _ & Hb & Hne & _ & _).
  rewrite Hre in Hput. simpl in Hput. rewrite Hk in Hput. simpl in Hput.
  unfold wf in Hwf1. rewrite Hk in Hwf1.
  destruct (val m1) as [mv|] eqn:Hv; [|done]. simpl in Hput.
  destruct Hwf1 as [_ Hkl Hvl _ _].
  apply put_probe_slot in Hput as (j & x & Hx & Hcase & Hk' & Hv' & Hn').
  pose proof (lookup_lt_Some _ _ _ Hx) as Hj.
  destruct (lookup_lt_is_Some_2 mv j) as [y Hy]; [lia|].
  assert (bindings m' = entries (take j mk) (take j mv) ++ [(k, v)]
                          ++ entries (drop (S j) mk) (drop (S j) mv)) as Hnew.
  { unfold bindings, slots. rewrite Hk', Hv'. simpl. apply entries_insert; lia. }
  assert (bindings m1 = entries (take j mk) (take j mv) ++ slot_entry x y
                          ++ entries (drop (S j) mk) (drop (S j) mv)) as Hold.
  { unfold bindings, slots. rewrite Hk, Hv. simpl. by apply entries_split. }
  split; [|split].
  - rewrite <- Hb, Hnew, Hold, !filter_app.
    change [(k, v)] with (slot_entry (KStr k) v).
    rewrite (filter_slot_entry k x y Hcase).
    by rewrite (filter_slot_entry k (KStr k) v) by auto.
  - rewrite Hnew. apply elem_of_app. right. left.
  - unfold map_len. rewrite Hn', Hne. destruct (is_str x); lia.
Qed.

Lemma put_keeps_other_bindings_witness :
  exists m m',
    run dup_ops make_map = Some m /\ reachable m /\ map_put m "z" 9 = Some m'
    /\ filter (other_key "z") (bindings m') ≡ₚ filter (other_key "z") (bindings m)
    /\ ("z"%string, 9) ∈ bindings m'
    /\ map_len m <= map_len m' <= map_len m + 1.
Proof.
  do 2 eexists. split; [by vm_compute|].
  match goal with |- reachable ?m /\ _ =>
    assert (reachable m) as Hr
      by (exists make_map, dup_ops; split; [apply (fresh_make None)|by vm_compute]) end.
  split; [exact Hr|]. split; [by vm_compute|].
  apply (put_keeps_other_bindings _ _ "z" 9 Hr). by vm_compute.
Defined.

(** X9.  What [map_remove] does and does not do on a reachable table: it
    returns the table as it is only when a lookup of the key misses;
    otherwise it deletes exactly one binding of the key, keeps all other
    bindings and their order, lowers [map_len] by one and changes
    neither the capacity nor the parent. *)
Theorem remove_effect (m m' : Map) (k : string) :
  reachable m -> map_remove m k = Some m' ->
  (m' = m /\ map_get_nostack m k = Some NULL)
  \/ (exists A y B,
        bindings m = A ++ (k, y) :: B /\ bindings m' = A ++ B
        /\ map_len m' = map_len m - 1
        /\ size m' = size m /\ parent m' = parent m).
Proof.
  intros Hr Hrem. unfold map_remove in Hrem.
  destruct (key m) as [mk|] eqn:Hk.
  2: { injection Hrem as <-. left. unfold map_get_nostack. by rewrite Hk. }
  destruct (reachable_arrays m mk Hr Hk)
    as (mv & n & Hv & Hn & Hsz & Hkl & Hvl & _).
  apply remove_probe_cases in Hrem as [[-> Hmiss]|(j & mv' & Hj & Hv' & ->)].
  - left. split; [done|]. unfold map_get_nostack. rewrite Hk. apply Hmiss.
  - right. rewrite Hv in Hv'. injection Hv' as <-.
    pose proof (lookup_lt_Some _ _ _ Hj) as Hjk.
    destruct (lookup_lt_is_Some_2 mv j) as [y Hy]; [lia|].
    exists (entries (take j mk) (take j mv)), y,
           (entries (drop (S j) mk) (drop (S j) mv)).
    repeat split; try done.
    + unfold bindings, slots. rewrite Hk, Hv. simpl.
      by rewrite (entries_split j mk mv _ _ Hj Hy).
    + unfold bindings, slots. simpl. rewrite entries_insert by lia. done.
Qed.

Lemma remove_effect_witness :
  exists m m',
    run dup_ops make_map = Some m /\ reachable m /\ map_remove m "q" = Some m'
    /\ ((m' = m /\ map_get_nostack m "q" = Some NULL)
        \/ (exists A y B,
              bindings m = A ++ ("q"%string, y) :: B /\ bindings m' = A ++ B
              /\ map_len m' = map_len m - 1
              /\ size m' = size m /\ parent m' = parent m)).
Proof.
  do 2 eexists. split; [by vm_compute|].
  match goal with |- reachable ?m /\ _ =>
    assert (reachable m) as Hr
      by (exists make_map, dup_ops; split; [apply (fresh_make None)|by vm_compute]) end.
  split; [exact Hr|]. split; [by vm_compute|].
  apply (remove_effect _ _ "q" Hr). by vm_compute.
Defined.

(** *** Iteration *)

#[local] Instance unshadowed_dec (inner : list Map) (e : string * vptr) :
  Decision (unshadowed inner e).
Proof. unfold unshadowed. apply _. Defined.

Lemma get_probe_total (mk : list kptr) (mv : list vptr) (n : Z) (k : string) (j : Z) :
  0 <= n -> Z.of_nat (length mk) = 2 ^ n -> Z.of_nat (length mv) = 2 ^ n ->
  0 <= j < 2 ^ n -> mk !! Z.to_nat j = Some KNull ->
  forall (fuel : nat) (i : Z),
    0 <= i < 2 ^ n -> (j - i) mod 2 ^ n < Z.of_nat fuel ->
    is_Some (get_probe fuel mk mv (2 ^ n - 1) i k).
Proof.
  intros Hn Hkl Hvl Hj Hnull. induction fuel as [|fuel IH]; intros i Hi Hd.
  { pose proof (Z.mod_pos_bound (j - i) (2 ^ n)). lia. }
  destruct (lookup_in_range mk (2 ^ n) i Hkl Hi) as [x Hx].
  destruct (lookup_in_range mv (2 ^ n) i Hvl Hi) as [y Hy].
  assert (x <> KNull ->
    is_Some (get_probe fuel mk mv (2 ^ n - 1) (Z.land (i + 1) (2 ^ n - 1)) k)) as Hnext.
  { intros Hnn. assert (i <> j) as Hne by (intros ->; congruence).
    apply IH; [apply mask_range; done|].
    rewrite probe_closer by done. lia. }
  simpl. rewrite Hx. destruct x as [| |s]; [done|by apply Hnext|].
  destruct (String.eqb s k); [by rewrite Hy|by apply Hnext].
Qed.

Lemma lookup_total (m : Map) (k : string) :
  reachable m -> is_Some (map_get_nostack m k).
Proof.
  intros Hr. unfold map_get_nostack. destruct (key m) as [mk|] eqn:Hk; [|done].
  destruct (reachable_arrays m mk Hr Hk)
    as (mv & n & Hv & Hn & Hsz & Hkl & Hvl & Hu & Hl & j & Hj & Hnull).
  rewrite Hv, Hsz in *. simpl.
  apply (get_probe_total mk mv n k j); try done; try lia.
  - apply mask_range. lia.
  - pose proof (Z.mod_pos_bound (j - Z.land (hash k) (2 ^ n - 1)) (2 ^ n)). lia.
Qed.

Lemma nth_parent_0 (m : Map) : nth_parent m 0 = Some m.
Proof. by destruct m. Qed.

Lemma chain_prefix_0 (m : Map) : chain_prefix m 0 = [].
Proof. by destruct m. Qed.

Lemma is_dup_0 (p : Map) (k : string) : is_dup 0 p k = Some false.
Proof. by destruct p. Qed.

Lemma nth_parent_unfold (m : Map) (d : nat) :
  nth_parent m (S d) = p ← parent m; nth_parent p d.
Proof. by destruct m as [[p|] ? ? ? ? ?]. Qed.

Lemma chain_reachable_unfold (m : Map) :
  chain_reachable m
  <-> reachable m /\ match parent m with Some p => chain_reachable p | None => True end.
Proof. by destruct m as [[p|] ? ? ? ? ?]. Qed.

Lemma chain_prefix_unfold (m : Map) (d : nat) :
  chain_prefix m (S d)
  = m :: match parent m with Some p => chain_prefix p d | None => [] end.
Proof. by destruct m as [[p|] ? ? ? ? ?]. Qed.

Lemma iteration_from_unfold (inner : list Map) (cur : Map) :
  iteration_from inner cur
  = filter (unshadowed inner) (bindings cur)
    ++ match parent cur with Some p => iteration_from (inner ++ [cur]) p | None => [] end.
Proof. by destruct cur as [[p|] ? ? ? ? ?]. Qed.

Lemma is_dup_unfold (d : nat) (p : Map) (k : string) :
  is_dup (S d) p k
  = (r ← map_get_nostack p k;
     if negb (r =? NULL) then Some true
     else match parent p with Some q => is_dup d q k | None => None end).
Proof. by destruct p as [[q|] ? ? ? ? ?]. Qed.

Lemma nth_parent_reachable (d : nat) :
  forall top cur, chain_reachable top -> nth_parent top d = Some cur -> chain_reachable cur.
Proof.
  induction d as [|d IH]; intros top cur Hc Hn.
  - rewrite nth_parent_0 in Hn. by simplify_eq.
  - rewrite nth_parent_unfold in Hn. apply chain_reachable_unfold in Hc as [_ Hc].
    destruct (parent top) as [p|]; [|done]. simpl in Hn. by eapply IH.
Qed.

Lemma chain_prefix_snoc (d : nat) :
  forall top cur, nth_parent top d = Some cur ->
    chain_prefix top (S d) = chain_prefix top d ++ [cur].
Proof.
  induction d as [|d IH]; intros top cur Hn.
  - rewrite nth_parent_0 in Hn. simplify_eq.
    rewrite chain_prefix_unfold, chain_prefix_0.
    destruct (parent cur); [by rewrite chain_prefix_0|done].
  - rewrite nth_parent_unfold in Hn. rewrite (chain_prefix_unfold top (S d)).
    rewrite (chain_prefix_unfold top d).
    destruct (parent top) as [p|]; [|done]. simpl in Hn.
    by rewrite (IH p cur Hn).
Qed.

(** [is_dup] says whether one of the more nested tables finds the key. *)
Lemma is_dup_spec (k : string) (x : vptr) (d : nat) :
  forall top cur, chain_reachable top -> nth_parent top d = Some cur ->
    is_dup d top k = Some (bool_decide (~ unshadowed (chain_prefix top d) (k, x))).
Proof.
  induction d as [|d IH]; intros top cur Hc Hn.
  - by rewrite is_dup_0, chain_prefix_0.
  - rewrite is_dup_unfold, chain_prefix_unfold.
    rewrite nth_parent_unfold in Hn. apply chain_reachable_unfold in Hc as [Hr Hc].
    destruct (lookup_total top k Hr) as [r Hget]. rewrite Hget. simpl.
    destruct (parent top) as [p|]; [|done]. simpl in Hn.
    destruct (Z.eqb_spec r NULL) as [->|Hnz]; simpl.
    + rewrite (IH p cur Hc Hn). f_equal. apply bool_decide_ext. unfold unshadowed.
      rewrite Forall_cons. simpl. tauto.
    + f_equal. symmetry. apply bool_decide_eq_true. unfold unshadowed.
      rewrite Forall_cons. simpl. rewrite Hget. intros [[=] _]. done.
Qed.

Lemma reachable_scan (m : Map) :
  reachable m ->
  Z.of_nat (length (slots m)) = size m
  /\ (length (slots m) <= length (default [] (val m)))%nat.
Proof.
  intros Hr. unfold slots. destruct (key m) as [mk|] eqn:Hk.
  - destruct (reachable_arrays m mk Hr Hk) as (mv & n & Hv & _ & _ & Hkl & Hvl & _).
    rewrite Hv. simpl. lia.
  - apply reachable_inv in Hr as [Hwf _]. unfold wf in Hwf. rewrite Hk in Hwf.
    simpl. destruct Hwf as (-> & _). split; [done|lia].
Qed.

(** [do_map_next] returns the first binding at or after slot [i], and the
    index behind it. *)
Lemma do_map_next_spec (m : Map) (mk : list kptr) (mv : list vptr) :
  Z.of_nat (length mk) = size m -> (length mk <= length mv)%nat ->
  forall (n : nat) (i : Z),
    0 <= i -> (Z.to_nat i + n)%nat = length mk ->
    (entries (drop (Z.to_nat i) mk) (drop (Z.to_nat i) mv) = []
     /\ do_map_next n m mk mv i = Some (None, size m))
    \/ (exists e i',
          i < i' <= size m /\ do_map_next n m mk mv i = Some (Some e, i')
          /\ entries (drop (Z.to_nat i) mk) (drop (Z.to_nat i) mv)
             = e :: entries (drop (Z.to_nat i') mk) (drop (Z.to_nat i') mv)).
Proof.
  intros Hsz Hlen. induction n as [|n IH]; intros i Hi Hn.
  { left. rewrite (drop_ge mk) by lia. done. }
  destruct (lookup_lt_is_Some_2 mk (Z.to_nat i)) as [x Hx]; [lia|].
  destruct (lookup_lt_is_Some_2 mv (Z.to_nat i)) as [y Hy]; [lia|].
  rewrite (drop_S _ _ _ Hx), (drop_S _ _ _ Hy).
  assert (Z.to_nat (i + 1) = S (Z.to_nat i)) as Hsucc by lia.
  simpl do_map_next. rewrite Hx.
  assert (is_str x = false ->
    (entries (x :: drop (S (Z.to_nat i)) mk) (y :: drop (S (Z.to_nat i)) mv) = []
     /\ do_map_next n m mk mv (i + 1) = Some (None, size m))
    \/ (exists e i',
          i < i' <= size m /\ do_map_next n m mk mv (i + 1) = Some (Some e, i')
          /\ entries (x :: drop (S (Z.to_nat i)) mk) (y :: drop (S (Z.to_nat i)) mv)
             = e :: entries (drop (Z.to_nat i') mk) (drop (Z.to_nat i') mv))) as Hskip.
  { intros Hx0.
    assert (entries (x :: drop (S (Z.to_nat i)) mk) (y :: drop (S (Z.to_nat i)) mv)
            = entries (drop (S (Z.to_nat i)) mk) (drop (S (Z.to_nat i)) mv)) as ->
      by (by destruct x).
    destruct (IH (i + 1)) as [[He Hr]|(e & i' & Hi' & Hr & He)]; [lia|lia| |].
    - left. by rewrite Hsucc in He.
    - right. exists e, i'. rewrite Hsucc in He. split; [lia|done]. }
  destruct x as [| |s]; [by apply Hskip..|].
  right. exists (s, y), (i + 1). rewrite Hy, Hsucc. simpl. split; [lia|done].
Qed.

Lemma next_in_table_unfold (fuel : nat) (top : Map) (d : nat) (cur : Map) (i : Z) :
  next_in_table (S fuel) top d cur i
  = ('(r, i') ← do_map_next (Z.to_nat (size cur - i)) cur
                  (slots cur) (default [] (val cur)) i;
     match r with
     | None => Some (None, i')
     | Some (k, x) =>
         dup ← is_dup d top k;
         if (dup : bool) then next_in_table fuel top d cur i' else Some (Some (k, x), i')
     end).
Proof. done. Qed.

(** The loop of [map_next] inside one table returns the first binding at
    or after slot [i] that no more nested table shadows. *)
Lemma next_in_table_spec (top : Map) (d : nat) (cur : Map) (inner : list Map) :
  reachable cur ->
  (forall k x, is_dup d top k = Some (bool_decide (~ unshadowed inner (k, x)))) ->
  forall (n : nat) (i : Z) (fuel : nat),
    0 <= i -> (Z.to_nat i + n)%nat = length (slots cur) -> (n < fuel)%nat ->
    (filter (unshadowed inner)
       (entries (drop (Z.to_nat i) (slots cur)) (drop (Z.to_nat i) (default [] (val cur)))) = []
     /\ next_in_table fuel top d cur i = Some (None, size cur))
    \/ (exists e i',
          i < i' <= size cur /\ next_in_table fuel top d cur i = Some (Some e, i')
          /\ filter (unshadowed inner)
               (entries (drop (Z.to_nat i) (slots cur))
                  (drop (Z.to_nat i) (default [] (val cur))))
             = e :: filter (unshadowed inner)
                      (entries (drop (Z.to_nat i') (slots cur))
                         (drop (Z.to_nat i') (default [] (val cur))))).
Proof.
  intros Hr Hdup. destruct (reachable_scan cur Hr) as [Hsz Hlen].
  induction n as [n IH] using lt_wf_ind. intros i [|fuel] Hi Hn Hfuel; [lia|].
  rewrite next_in_table_unfold.
  replace (Z.to_nat (size cur - i)) with n by lia.
  destruct (do_map_next_spec cur _ _ Hsz Hlen n i Hi Hn)
    as [[He Hres]|([k x] & i' & Hi' & Hres & He)]; rewrite Hres, He; simpl.
  { by left. }
  rewrite (Hdup k x). simpl.
  destruct (decide (unshadowed inner (k, x))) as [Hvis|Hhid].
  - rewrite bool_decide_eq_false_2 by tauto.
    right. exists (k, x), i'. split; [done|]. split; [done|].
    by rewrite filter_cons_True.
  - rewrite bool_decide_eq_true_2 by done. rewrite filter_cons_False by done.
    destruct (IH (length (slots cur) - Z.to_nat i')%nat) with (i := i') (fuel := fuel)
      as [[He' Hres']|(e & i'' & Hi'' & Hres' & He')]; try lia.
    + by left.
    + right. exists e, i''. split; [lia|done].
Qed.

Lemma map_next_at_unfold (top : Map) (d : nat) (cur : Map) (i : Z) :
  map_next_at top d cur i
  = ('(r, i') ← next_in_table (Z.to_nat (size cur - i) + 1) top d cur i;
     match r with
     | Some kv => Some (Some kv, mkIter top (Some d) i')
     | None =>
         match parent cur with
         | Some p => map_next_at top (S d) p 0
         | None => Some (None, mkIter top None i')
         end
     end).
Proof. by destruct cur as [[p|] ? ? ? ? ?]. Qed.

Lemma Map_parent_ind (P : Map -> Prop) :
  (forall m, (forall p, parent m = Some p -> P p) -> P m) -> forall m, P m.
Proof.
  intros H. fix IH 1. intros [[p|] mk mv sz ne nu].
  - pose proof (IH p) as Hp. apply H. simpl. intros p' [= <-]. exact Hp.
  - apply H. simpl. intros p' Hp'. discriminate Hp'.
Qed.

Lemma nth_parent_S_r (d : nat) :
  forall top cur p, nth_parent top d = Some cur -> parent cur = Some p ->
    nth_parent top (S d) = Some p.
Proof.
  induction d as [|d IH]; intros top cur p Hn Hp.
  - rewrite nth_parent_0 in Hn. simplify_eq. rewrite nth_parent_unfold, Hp. simpl.
    apply nth_parent_0.
  - rewrite nth_parent_unfold in Hn. rewrite nth_parent_unfold.
    destruct (parent top) as [q|]; [|done]. simpl in *. by eapply IH.
Qed.

Lemma remaining_parent (top : Map) (d : nat) (cur p : Map) :
  nth_parent top d = Some cur -> parent cur = Some p ->
  remaining top (S d) p 0 = iteration_from (chain_prefix top d ++ [cur]) p.
Proof.
  intros Hn Hp. unfold remaining. rewrite (chain_prefix_snoc d top cur Hn).
  change (Z.to_nat 0) with 0%nat. rewrite !drop_0. by rewrite iteration_from_unfold.
Qed.

(** One call of [map_next]: it yields the first binding left, or [NULL]
    when nothing is left. *)
Lemma map_next_at_spec (top : Map) (Htop : chain_reachable top) (cur : Map) :
  forall (d : nat) (i : Z),
    nth_parent top d = Some cur -> 0 <= i <= size cur ->
    (remaining top d cur i = []
     /\ exists it, map_next_at top d cur i = Some (None, it) /\ it_cur it = None)
    \/ (exists e d' cur' i',
          map_next_at top d cur i = Some (Some e, mkIter top (Some d') i')
          /\ nth_parent top d' = Some cur' /\ 0 <= i' <= size cur'
          /\ remaining top d cur i = e :: remaining top d' cur' i').
Proof.
  induction cur as [cur IH] using Map_parent_ind. intros d i Hn Hi.
  pose proof (nth_parent_reachable d top cur Htop Hn) as Hcur.
  apply chain_reachable_unfold in Hcur as [Hr Hpar].
  destruct (reachable_scan cur Hr) as [Hsz Hlen].
  rewrite map_next_at_unfold.
  set (R := remaining top d cur i).
  assert (R = filter (unshadowed (chain_prefix top d))
                (entries (drop (Z.to_nat i) (slots cur))
                   (drop (Z.to_nat i) (default [] (val cur))))
              ++ match parent cur with
                 | Some p => iteration_from (chain_prefix top d ++ [cur]) p
                 | None => []
                 end) as HR by done.
  clearbody R.
  destruct (next_in_table_spec top d cur (chain_prefix top d) Hr
              (λ k x, is_dup_spec k x d top cur Htop Hn)
              (length (slots cur) - Z.to_nat i)%nat i (Z.to_nat (size cur - i) + 1)%nat)
    as [[He Hres]|(e & i' & Hi' & Hres & He)]; try lia; rewrite Hres; rewrite He in HR;
    simpl.
  - simpl in HR. destruct (parent cur) as [p|] eqn:Hp.
    + pose proof (nth_parent_S_r d top cur p Hn Hp) as Hn'.
      rewrite <- (remaining_parent top d cur p Hn Hp) in HR. subst R.
      apply (IH p eq_refl (S d) 0 Hn').
      pose proof (nth_parent_reachable _ _ _ Htop Hn') as [Hrp _]%chain_reachable_unfold.
      destruct (reachable_scan p Hrp). lia.
    + left. split; [done|]. by eexists.
  - right. exists e, d, cur, i'. split; [done|]. split; [done|]. split; [lia|].
    by rewrite HR.
Qed.

Lemma drain_spec (top : Map) (Htop : chain_reachable top) :
  forall (fuel : nat) (d : nat) (cur : Map) (i : Z),
    nth_parent top d = Some cur -> 0 <= i <= size cur ->
    (length (remaining top d cur i) < fuel)%nat ->
    drain fuel (mkIter top (Some d) i) = Some (remaining top d cur i).
Proof.
  induction fuel as [|fuel IH]; intros d cur i Hn Hi Hfuel; [lia|].
  simpl. unfold map_next. simpl. rewrite Hn. simpl.
  destruct (map_next_at_spec top Htop cur d i Hn Hi)
    as [[He (it & Hres & _)]|(e & d' & cur' & i' & Hres & Hn' & Hi' & He)];
    rewrite Hres, He; simpl; [done|].
  rewrite He in Hfuel. simpl in Hfuel.
  by rewrite (IH d' cur' i' Hn' Hi') by lia.
Qed.

(** X10.  Iteration, with shadowing: when every table of the parent chain
    is reachable, calling [map_next] until it returns [NULL] yields the
    bindings of the table in slot order, then of each ancestor in turn
    those bindings, in slot order, whose key no more nested table finds;
    it stops after them (one call more than there are bindings
    suffices). *)
Theorem iteration_yields (m : Map) (fuel : nat) :
  chain_reachable m -> (length (iteration_from [] m) < fuel)%nat ->
  drain fuel (map_iter m) = Some (iteration_from [] m).
Proof.
  intros Hc Hfuel.
  assert (remaining m 0 m 0 = iteration_from [] m) as Hrem.
  { unfold remaining. rewrite chain_prefix_0. change (Z.to_nat 0) with 0%nat.
    rewrite !drop_0. by rewrite iteration_from_unfold. }
  unfold map_iter. rewrite <- Hrem.
  apply (drain_spec m Hc); [apply nth_parent_0| |by rewrite Hrem].
  apply chain_reachable_unfold in Hc as [Hr _].
  destruct (reachable_scan m Hr). lia.
Qed.

Lemma iteration_yields_witness :
  exists a b,
    run [Put "q" 10; Put "z" 11] make_map = Some a
    /\ run [Put "q" 3; Put "b" 4] (make_map_parent a) = Some b
    /\ chain_reachable b /\ (length (iteration_from [] b) < 8)%nat
    /\ drain 8 (map_iter b) = Some (iteration_from [] b)
    /\ iteration_from [] b = [("b"%string, 4); ("q"%string, 3); ("z"%string, 11)].
Proof.
  do 2 eexists. split; [by vm_compute|].
  match goal with |- run ?ops (make_map_parent ?a) = Some ?b /\ _ =>
    assert (run [Put "q" 10; Put "z" 11] make_map = Some a) as Ha by (by vm_compute);
    assert (run ops (make_map_parent a) = Some b) as Hb by (by vm_compute);
    assert (chain_reachable b) as Hc;
    [split;
     [exists (make_map_parent a), ops; split; [apply (fresh_make (Some a))|exact Hb]
     |split; [|done];
      exists make_map, [Put "q" 10; Put "z" 11]; split; [apply (fresh_make None)|exact Ha]]|]
  end.
  split; [exact Hb|]. split; [exact Hc|].
  match goal with |- (?n < 8)%nat /\ _ =>
    assert (n < 8)%nat as Hlen by (vm_compute; lia) end.
  split; [exact Hlen|]. split; [|by vm_compute].
  apply (iteration_yields _ 8 Hc Hlen).
Defined.

(** ** codegen.c *)

(** *** The register cache, in general *)

Lemma cache_inv_length (n : nat) (l : list (nat * string)) :
  cache_inv n l -> (length l <= NUMREGS)%nat.
Proof.
  intros (_ & _ & Hregs). apply Permutation_length in Hregs.
  rewrite length_fmap, length_take in Hregs. unfold NUMREGS. simpl in Hregs. lia.
Qed.

Lemma cache_inv_nil (n : nat) : cache_inv n [].
Proof. split; [constructor|]. split; [|done]. intros x Hx. by apply elem_of_nil in Hx. Qed.

Lemma omap_reg_slots_of l : omap rm_reg (slots_of l) = l.*2.
Proof.
  unfold slots_of. rewrite omap_app.
  assert (forall n, omap rm_reg (replicate n (mkRegmap None None)) = []) as ->.
  { induction n; simpl; auto. }
  rewrite app_nil_r. induction l as [|b l IH]; [done|]. simpl. f_equal. exact IH.
Qed.

(** One call of [regname] on a well-formed cache, for a value on [vars]:
    either the value is cached or there is room, and only the cache
    changes; or the cache is full, and the last binding is evicted. *)
Lemma regname_step (s : State) (l : list (nat * string)) (v : nat) :
  reg2var s = slots_of l -> cache_inv (length (vars s)) l -> (v < length (vars s))%nat ->
  exists reg l',
    l' !! 0%nat = Some (v, reg) /\ cache_inv (length (vars s)) l'
    /\ (length l <= length l')%nat
    /\ (forall x, x ∈ l'.*1 -> x = v \/ x ∈ l.*1)
    /\ ((regname v s = Some (Some reg, set_reg2var (slots_of l') s)
         /\ (v ∈ l.*1 \/ (length l < NUMREGS)%nat))
        \/ (exists l0 w wc c,
              l = l0 ++ [(w, reg)] /\ length l0 = (NUMREGS - 1)%nat /\ (v ∉ l.*1)
              /\ vars s !! w = Some wc /\ vars s !! v = Some c
              /\ l' = (v, reg) :: l0
              /\ regname v s = Some (Some reg, evicted s l' w wc reg c))).
Proof.
  intros Hslots Hinv Hv. pose proof (cache_inv_length _ _ Hinv) as Hlen.
  destruct Hinv as (Hnd & Hsub & Hregs).
  destruct (decide (v ∈ l.*1)) as [Hin|Hnew].
  - apply list_elem_of_fmap in Hin as ([v' reg] & Hv' & Hb). simpl in Hv'. subst v'.
    pose proof Hb as Hb'. apply list_elem_of_lookup in Hb as [i Hi].
    assert ((v, reg) :: delete i l ≡ₚ l) as Hperm
      by (symmetry; by apply delete_Permutation).
    exists reg, ((v, reg) :: delete i l). split; [done|]. split; [|split; [|split]].
    + split; [by rewrite Hperm|]. split; [intros x; rewrite Hperm; apply Hsub|].
      by rewrite Hperm.
    + by rewrite (Permutation_length Hperm).
    + intros x. rewrite Hperm. by right.
    + left. split.
      * apply regname_cached; try done.
        intros j b Hj Hbj Heq.
        assert (j = i); [|lia].
        apply (NoDup_lookup _ _ _ v Hnd); rewrite list_lookup_fmap.
        -- by rewrite Hbj; simpl; rewrite Heq.
        -- by rewrite Hi.
      * left. apply list_elem_of_fmap. by exists (v, reg).
  - destruct (decide (length l < NUMREGS)%nat) as [Hroom|Hfull].
    + destruct (lookup_lt_is_Some_2 regs (length l)) as [reg Hreg]; [done|].
      exists reg, ((v, reg) :: l). split; [done|]. split; [|split; [|split]].
      * split; [simpl; by apply NoDup_cons|]. split.
        -- intros x [->|Hx]%elem_of_cons; auto.
        -- simpl length. rewrite (take_S_r _ _ _ Hreg), <- Hregs.
           simpl. apply Permutation_cons_append.
      * simpl. lia.
      * intros x [->|Hx]%elem_of_cons; auto.
      * left. split; [by apply regname_empty|by right].
    + assert (length l = NUMREGS) as Hl by lia.
      destruct l as [|b0 l1] using rev_ind; [done|]. clear IHl1.
      destruct b0 as [w reg]. rename l1 into l0.
      rewrite length_app in Hl. simpl in Hl.
      assert (length l0 = (NUMREGS - 1)%nat) as Hl0 by (unfold NUMREGS in *; lia).
      assert (w < length (vars s))%nat as Hw.
      { apply Hsub. rewrite fmap_app. apply elem_of_app. right. simpl. left. }
      destruct (lookup_lt_is_Some_2 _ _ Hw) as [wc Hwc].
      destruct (lookup_lt_is_Some_2 _ _ Hv) as [c Hc].
      exists reg, ((v, reg) :: l0). split; [done|]. split; [|split; [|split]].
      * rewrite fmap_app in Hnd, Hnew, Hsub. simpl in Hnd, Hnew, Hsub.
        apply NoDup_app in Hnd as (Hnd0 & _ & _). split; [|split].
        -- simpl. apply NoDup_cons. split; [|done].
           intros Hx. apply Hnew, elem_of_app. by left.
        -- intros x [->|Hx]%elem_of_cons; [done|]. apply Hsub, elem_of_app. by left.
        -- rewrite fmap_app, length_app in Hregs. simpl in Hregs.
           replace (length l0 + 1)%nat with (S (length l0)) in Hregs by lia.
           simpl length. rewrite <- Hregs. simpl. apply Permutation_cons_append.
      * rewrite length_app. simpl. lia.
      * intros x [->|Hx]%elem_of_cons; [by left|]. right.
        rewrite fmap_app. apply elem_of_app. by left.
      * right. exists l0, w, wc, c. repeat split; try done.
        by apply regname_evict.
Qed.

(** What any number of calls of [regname] keep, from a well-formed cache
    and for values on [vars]: all return, the cache stays well formed
    and does not shrink, it holds no values but old ones and those
    resolved, and the cell of a value neither cached nor resolved is
    not touched; no cell changes but in its [spilled] member. *)
Lemma resolve_all_inv (vs : list nat) :
  forall (s : State) (l : list (nat * string)),
    reg2var s = slots_of l -> cache_inv (length (vars s)) l ->
    Forall (λ x, (x < length (vars s))%nat) vs ->
    exists s' l',
      resolve_all vs s = Some s' /\ reg2var s' = slots_of l'
      /\ cache_inv (length (vars s')) l' /\ length (vars s') = length (vars s)
      /\ (length l <= length l')%nat
      /\ (forall x, x ∈ l'.*1 -> x ∈ vs \/ x ∈ l.*1)
      /\ (forall w, w ∉ vs -> w ∉ l.*1 -> vars s' !! w = vars s !! w)
      /\ v_off <$> vars s' = v_off <$> vars s.
Proof.
  induction vs as [|v vs IH]; intros s l Hslots Hinv Hvs.
  { exists s, l. do 5 (split; [done|]). split; [by right|done]. }
  apply Forall_cons in Hvs as [Hv Hvs].
  destruct (regname_step s l v Hslots Hinv Hv)
    as (reg & l1 & _ & Hinv1 & Hlen1 & Hsub1 & [[Hrun _]|Hevict]).
  - destruct (IH (set_reg2var (slots_of l1) s) l1) as
      (s' & l' & Hrun' & Hslots' & Hinv' & Hvars' & Hlen' & Hsub' & Hkeep' & Hoff');
      try done.
    exists s', l'. simpl resolve_all. rewrite Hrun. simpl.
    do 4 (split; [done || lia|]). split; [lia|]. split; [|split; [|done]].
    + intros x Hx. apply Hsub' in Hx as [Hx|Hx]; [left; by right|].
      apply Hsub1 in Hx as [->|Hx]; [left; left|by right].
    + intros w Hw Hwl. apply not_elem_of_cons in Hw as [Hne Hw].
      rewrite Hkeep'; [done|done|]. intros Hx. by apply Hsub1 in Hx as [->|Hx].
  - destruct Hevict as (l0 & w & wc & c & -> & Hl0 & Hnew & Hwc & Hc & -> & Hrun).
    set (s1 := evicted s ((v, reg) :: l0) w wc reg c) in *.
    assert (length (vars s1) = length (vars s)) as Hn by (simpl; by rewrite length_insert).
    destruct (IH s1 ((v, reg) :: l0)) as
      (s' & l' & Hrun' & Hslots' & Hinv' & Hvars' & Hlen' & Hsub' & Hkeep' & Hoff');
      try done.
    { by rewrite Hn. }
    { by rewrite Hn. }
    exists s', l'. simpl resolve_all. rewrite Hrun. simpl.
    do 4 (split; [done || lia|]). split; [lia|]. split; [|split].
    + intros x Hx. apply Hsub' in Hx as [Hx|Hx]; [left; by right|].
      apply Hsub1 in Hx as [->|Hx]; [left; left|by right].
    + intros x Hx Hxl. apply not_elem_of_cons in Hx as [Hne Hx].
      rewrite Hkeep'; [|done|].
      * simpl. apply list_lookup_insert_ne. intros <-. apply Hxl.
        rewrite fmap_app. apply elem_of_app. right. simpl. left.
      * intros Hin. by apply Hsub1 in Hin as [->|Hin].
    + rewrite Hoff'. simpl. rewrite list_fmap_insert. simpl.
      apply list_insert_id. by rewrite list_lookup_fmap, Hwc.
Qed.

(** X11.  The register cache stays consistent.  Start from the empty
    cache and resolve any values that are on [vars], in any order and as
    often as one likes.  Every call of [regname] returns, and returns one
    of the six registers; after it the first slot of the cache binds the
    value just resolved to the register returned, no value is in two
    slots and no register is bound to two values. *)
Theorem cache_stays_consistent (s : State) (vs : list nat) (v : nat) :
  reg2var s = reg2var init_state ->
  Forall (λ x, (x < length (vars s))%nat) vs -> (v < length (vars s))%nat ->
  exists s1 reg s2,
    resolve_all vs s = Some s1 /\ regname v s1 = Some (Some reg, s2)
    /\ reg ∈ regs
    /\ reg2var s2 !! 0%nat = Some (mkRegmap (Some v) (Some reg))
    /\ NoDup (cached_vars s2) /\ NoDup (cached_regs s2)
    /\ length (cached_regs s2) = length (cached_vars s2).
Proof.
  intros Hinit Hvs Hv.
  destruct (resolve_all_inv vs s [] Hinit (cache_inv_nil _) Hvs)
    as (s1 & l1 & Hrun1 & Hslots1 & Hinv1 & Hn1 & _).
  rewrite <- Hn1 in Hv.
  destruct (regname_step s1 l1 v Hslots1 Hinv1 Hv)
    as (reg & l2 & Hfront & Hinv2 & _ & _ & Hcase).
  assert (exists s2, regname v s1 = Some (Some reg, s2) /\ reg2var s2 = slots_of l2)
    as (s2 & Hrun2 & Hslots2).
  { destruct Hcase as [[Hrun _]|(l0 & w & wc & c & _ & _ & _ & _ & _ & -> & Hrun)];
      eexists; (split; [exact Hrun|done]). }
  exists s1, reg, s2. split; [done|]. split; [done|].
  destruct Hinv2 as (Hnd & _ & Hregs).
  assert (reg ∈ l2.*2) as Hreg.
  { apply list_elem_of_fmap. exists (v, reg). split; [done|].
    by eapply list_elem_of_lookup_2. }
  unfold cached_vars, cached_regs. rewrite Hslots2, omap_slots_of, omap_reg_slots_of.
  repeat split.
  - rewrite Hregs in Hreg. by eapply subseteq_take.
  - by rewrite (slots_of_lookup_lt _ _ _ Hfront).
  - done.
  - rewrite Hregs. apply (sublist_NoDup _ regs); [|apply sublist_take].
    apply (bool_decide_unpack _). vm_compute. exact I.
  - by rewrite !length_fmap.
Qed.

Lemma cache_stays_consistent_witness :
  let s := set_vars ((λ i, mkVar i (- 8 * i) false) <$> [1; 2; 3; 4; 5; 6; 7; 8]) init_state in
  reg2var s = reg2var init_state
  /\ Forall (λ x, (x < length (vars s))%nat) [0; 1; 2; 3; 4; 5; 6; 1; 7; 0]%nat
  /\ exists s1 reg s2,
    resolve_all [0; 1; 2; 3; 4; 5; 6; 1; 7; 0]%nat s = Some s1
    /\ regname 3 s1 = Some (Some reg, s2)
    /\ reg ∈ regs
    /\ reg2var s2 !! 0%nat = Some (mkRegmap (Some 3%nat) (Some reg))
    /\ NoDup (cached_vars s2) /\ NoDup (cached_regs s2)
    /\ length (cached_regs s2) = length (cached_vars s2).
Proof.
  intros s. split; [reflexivity|].
  assert (Forall (λ x, (x < length (vars s))%nat) [0; 1; 2; 3; 4; 5; 6; 1; 7; 0]%nat) as Hvs
    by (repeat constructor; simpl; lia).
  split; [exact Hvs|].
  apply (cache_stays_consistent s [0; 1; 2; 3; 4; 5; 6; 1; 7; 0]%nat 3);
    [reflexivity|exact Hvs|simpl; lia].
Defined.

(** With the cache full and the value not in it, [regname] evicts. *)
Lemma regname_full (s : State) (l : list (nat * string)) (v : nat) :
  reg2var s = slots_of l -> cache_inv (length (vars s)) l -> (v < length (vars s))%nat ->
  length l = NUMREGS -> v ∉ l.*1 ->
  exists l0 w reg wc c,
    l = l0 ++ [(w, reg)] /\ vars s !! w = Some wc /\ vars s !! v = Some c
    /\ cache_inv (length (vars s)) ((v, reg) :: l0)
    /\ regname v s = Some (Some reg, evicted s ((v, reg) :: l0) w wc reg c).
Proof.
  intros Hslots Hinv Hv Hfull Hnew.
  destruct (regname_step s l v Hslots Hinv Hv)
    as (reg & l1 & _ & Hinv1 & _ & _ & [[_ [Hin|Hroom]]|Hevict]); [done|lia|].
  destruct Hevict as (l0 & w & wc & c & -> & _ & _ & Hwc & Hc & -> & Hrun).
  by exists l0, w, reg, wc, c.
Qed.

(** X12.  A value that was spilled is loaded back from the slot it was
    spilled to.  Let the cache, filled by earlier calls, be full with [w]
    in its last slot, and resolve a value [v] that is not cached:
    [regname] writes the spill of [w]'s register to [w]'s offset.
    Resolve any values but [w] after that; when [w] is resolved again,
    the two lines [regname] writes are the spill of the value it evicts
    and the load of [w] from that same offset of [w], into the register
    it returns. *)
Theorem spilled_value_reloaded (s0 s : State) (pre mid : list nat) (v w : nat)
    (wc c : VarCell) :
  reg2var s0 = reg2var init_state ->
  Forall (λ x, (x < length (vars s0))%nat) pre -> resolve_all pre s0 = Some s ->
  length (cached_vars s) = NUMREGS -> last (cached_vars s) = Some w ->
  v ∉ cached_vars s -> vars s !! w = Some wc -> vars s !! v = Some c ->
  Forall (λ x, (x < length (vars s))%nat /\ x <> w) mid ->
  exists reg0 s1 s2 reg u uc s3,
    regname v s = Some (Some reg0, s1)
    /\ out s1 = out s ++ [spill_line reg0 (v_off wc)]
                  ++ (if v_spilled c then [load_line reg0 (v_off c)] else [])
    /\ resolve_all mid s1 = Some s2
    /\ regname w s2 = Some (Some reg, s3)
    /\ last (cached_vars s2) = Some u /\ vars s2 !! u = Some uc
    /\ out s3 = out s2 ++ [spill_line reg (v_off uc); load_line reg (v_off wc)].
Proof.
  intros Hinit Hpre Hrun Hfull Hlast Hnew Hwc Hc Hmid.
  destruct (resolve_all_inv pre s0 [] Hinit (cache_inv_nil _) Hpre)
    as (s' & l & Hrun' & Hslots & Hinv & Hn & _).
  rewrite Hrun in Hrun'. injection Hrun' as <-.
  unfold cached_vars in Hfull, Hlast, Hnew.
  rewrite Hslots, omap_slots_of in Hfull, Hlast, Hnew. rewrite length_fmap in Hfull.
  assert (v < length (vars s))%nat as Hv by (by eapply lookup_lt_Some).
  destruct (regname_full s l v Hslots Hinv Hv Hfull Hnew)
    as (l0 & w' & reg0 & wc' & c' & -> & Hwc' & Hc' & Hinv1 & Hrun1).
  rewrite fmap_app in Hlast. change ([(w', reg0)].*1) with [w'] in Hlast.
  rewrite last_snoc in Hlast. injection Hlast as ->.
  rewrite Hwc in Hwc'. injection Hwc' as <-. rewrite Hc in Hc'. injection Hc' as <-.
  set (s1 := evicted s ((v, reg0) :: l0) w wc reg0 c) in *.
  assert (length (vars s1) = length (vars s)) as Hn1 by (simpl; by rewrite length_insert).
  assert (w ∉ ((v, reg0) :: l0).*1) as Hw1.
  { destruct Hinv as (Hnd & _ & _). rewrite fmap_app in Hnd, Hnew.
    apply NoDup_app in Hnd as (_ & Hdisj & _). simpl.
    intros [->|Hin]%elem_of_cons.
    - apply Hnew, elem_of_app. right. left.
    - apply (Hdisj _ Hin). left. }
  destruct (resolve_all_inv mid s1 ((v, reg0) :: l0))
    as (s2 & l2 & Hrun2 & Hslots2 & Hinv2 & Hn2 & Hlen2 & Hsub2 & Hkeep2 & _).
  { done. }
  { by rewrite Hn1. }
  { rewrite Hn1. eapply Forall_impl; [exact Hmid|]. by intros x [? _]. }
  assert (w ∉ mid) as Hwmid.
  { intros Hin. rewrite Forall_forall in Hmid. by destruct (Hmid w Hin). }
  assert (vars s2 !! w = Some (set_spilled wc)) as Hw2.
  { rewrite Hkeep2 by done. simpl. apply list_lookup_insert_eq. by eapply lookup_lt_Some. }
  assert (w ∉ l2.*1) as Hnew2.
  { intros Hin. by apply Hsub2 in Hin as [?|?]. }
  assert (length l2 = NUMREGS) as Hfull2.
  { pose proof (cache_inv_length _ _ Hinv2). simpl in Hlen2. rewrite length_app in Hfull.
    simpl in Hfull. lia. }
  assert (w < length (vars s2))%nat as Hwv by (by eapply lookup_lt_Some).
  destruct (regname_full s2 l2 w Hslots2 Hinv2 Hwv Hfull2 Hnew2)
    as (l3 & u & reg & uc & c2 & -> & Huc & Hc2 & _ & Hrun3).
  rewrite Hw2 in Hc2. injection Hc2 as <-.
  exists reg0, s1, s2, reg, u, uc. eexists.
  split; [exact Hrun1|]. split; [done|]. split; [exact Hrun2|]. split; [exact Hrun3|].
  split; [|split; [exact Huc|done]].
  unfold cached_vars. rewrite Hslots2, omap_slots_of, fmap_app.
  change ([(u, reg)].*1) with [u]. by rewrite last_snoc.
Qed.

Lemma spilled_value_reloaded_witness :
  let s0 := set_vars ((λ i, mkVar i (- 8 * i) false) <$> [1; 2; 3; 4; 5; 6; 7; 8]) init_state in
  exists s reg0 s1 s2 reg u uc s3,
    resolve_all [0; 1; 2; 3; 4; 5]%nat s0 = Some s
    /\ regname 6 s = Some (Some reg0, s1)
    /\ out s1 = out s ++ [spill_line reg0 (-8)] ++ []
    /\ resolve_all [7; 3; 6]%nat s1 = Some s2
    /\ regname 0 s2 = Some (Some reg, s3)
    /\ last (cached_vars s2) = Some u /\ vars s2 !! u = Some uc
    /\ out s3 = out s2 ++ [spill_line reg (v_off uc); load_line reg (-8)].
Proof.
  intros s0. eexists.
  assert (Forall (λ x, (x < length (vars s0))%nat) [0; 1; 2; 3; 4; 5]%nat) as Hpre
    by (repeat constructor; simpl; lia).
  match goal with |- exists reg0 s1 s2 reg u uc s3, ?r = Some ?s /\ _ =>
    assert (r = Some s) as Hrun by (vm_compute; reflexivity);
    destruct (spilled_value_reloaded s0 s [0; 1; 2; 3; 4; 5]%nat [7; 3; 6]%nat 6 0
                (mkVar 1 (-8) false) (mkVar 7 (-56) false)) as
      (reg0 & s1 & s2 & reg & u & uc & s3 & H)
  end.
  - reflexivity.
  - exact Hpre.
  - exact Hrun.
  - reflexivity.
  - reflexivity.
  - apply (bool_decide_unpack _). vm_compute. exact I.
  - reflexivity.
  - reflexivity.
  - repeat constructor; simpl; lia.
  - exists reg0, s1, s2, reg, u, uc, s3. split; [exact Hrun|exact H].
Defined.

(** *** Translation *)

(** *** The layout of the frame *)

Lemma laid_out_app (l1 l2 : list (Z * Z)) (mid bottom : Z) :
  forall top, laid_out top l1 mid -> laid_out mid l2 bottom -> laid_out top (l1 ++ l2) bottom.
Proof.
  induction l1 as [|[o n] l1 IH]; intros top H1 H2; simpl in *; [by subst|].
  destruct H1 as (Hn & Ho & H1). auto.
Qed.

Lemma laid_out_bounds (l : list (Z * Z)) (bottom : Z) :
  forall top, laid_out top l bottom ->
    bottom <= top
    /\ forall (i : nat) o n, l !! i = Some (o, n) -> 8 <= n /\ bottom <= o /\ o + n <= top.
Proof.
  induction l as [|[o n] l IH]; intros top H; simpl in H.
  { split; [lia|]. by intros i o n Hi. }
  destruct H as (Hn & Ho & H). destruct (IH o H) as [Hle Hall]. split; [lia|].
  intros [|i] o' n' Hi; simpl in Hi.
  - injection Hi as <- <-. lia.
  - destruct (Hall i o' n' Hi) as (? & ? & ?). lia.
Qed.

Lemma laid_out_ordered (l : list (Z * Z)) (bottom : Z) :
  forall top, laid_out top l bottom ->
    forall (i j : nat) o n o' n',
      (i < j)%nat -> l !! i = Some (o, n) -> l !! j = Some (o', n') -> o' + n' <= o.
Proof.
  induction l as [|[o0 n0] l IH]; intros top H i j o n o' n' Hij Hi Hj; [done|].
  destruct H as (Hn & Ho & H). destruct j as [|j]; [lia|]. simpl in Hj.
  destruct i as [|i]; simpl in Hi.
  - injection Hi as <- <-. by destruct (proj2 (laid_out_bounds _ _ _ H) j o' n' Hj) as (_ & _ & ?).
  - eapply (IH o0 H i j); [lia|done|done].
Qed.

(** Every [Mem] on [mems] has the offset [make_mem] computed for it: the
    sizes up to and including its own, added up and negated as [int]s. *)
Lemma walk_mem_offsets (uninit : Z -> Z * bool) (node : Node) (s s' : State)
    (r : option Var) :
  offset s = wrap_int (sum_sizes (mems s)) ->
  (forall (i : nat) m, mems s !! i = Some m ->
     m_off m = wrap_int (- wrap_int (sum_sizes (take (S i) (mems s))))) ->
  walk uninit node s = Some (r, s') ->
  forall (i : nat) m, mems s' !! i = Some m ->
    m_off m = wrap_int (- wrap_int (sum_sizes (take (S i) (mems s')))).
Proof.
  intros Ho Hm Hw.
  set (P := λ t : State,
         offset t = wrap_int (sum_sizes (mems t))
         /\ forall (i : nat) m, mems t !! i = Some m ->
              m_off m = wrap_int (- wrap_int (sum_sizes (take (S i) (mems t))))).
  assert (P s') as [_ H]; [|exact H].
  apply (walk_preserves uninit P) with (node := node) (s := s) (r := r);
    [|by intros t [? ?]|by intros t i [? ?]|by split|done].
  intros t size name lv [Ht Hoff] Hsize _. unfold P. simpl. split.
  - by rewrite sum_sizes_snoc, Ht, wrap_int_add_l.
  - intros i m Hi. destruct (decide (i < length (mems t))%nat) as [Hlt|Hge].
    + rewrite lookup_app_l in Hi by done. rewrite take_app_le by lia. by apply Hoff.
    + pose proof (lookup_lt_Some _ _ _ Hi) as Hlen. rewrite length_app in Hlen.
      simpl in Hlen. assert (i = length (mems t)) as -> by lia.
      rewrite lookup_app_r, Nat.sub_diag in Hi by lia. injection Hi as <-. simpl.
      rewrite take_ge by (rewrite length_app; simpl; lia).
      by rewrite sum_sizes_snoc, Ht, wrap_int_add_l.
Qed.

(** As long as the sizes add up to an [int], the [Mem]s lie one below
    the other. *)
Lemma mems_laid_out (l : list Mem) :
  Forall (λ m, 8 <= m_size m) l -> sum_sizes l <= 2147483647 ->
  (forall (i : nat) m, l !! i = Some m ->
     m_off m = wrap_int (- wrap_int (sum_sizes (take (S i) l)))) ->
  laid_out 0 ((λ m, (m_off m, m_size m)) <$> l) (- sum_sizes l).
Proof.
  induction l as [|m l IH] using rev_ind; intros Hs Hfit Hoff; [done|].
  apply Forall_app in Hs as [Hs Hm]. apply Forall_inv in Hm.
  pose proof (sum_sizes_nonneg l Hs) as Hpos.
  rewrite sum_sizes_snoc in Hfit. rewrite fmap_app.
  eapply laid_out_app.
  - apply IH; [done|lia|]. intros i m0 Hi.
    pose proof (lookup_lt_Some _ _ _ Hi) as Hlt.
    rewrite (Hoff i m0) by (by apply lookup_app_l_Some). by rewrite take_app_le by lia.
  - specialize (Hoff (length l) m). rewrite lookup_app_r, Nat.sub_diag in Hoff by lia.
    specialize (Hoff eq_refl).
    rewrite take_ge, sum_sizes_snoc in Hoff by (rewrite length_app; simpl; lia).
    rewrite (wrap_int_small (sum_sizes l + m_size m)) in Hoff by lia.
    rewrite wrap_int_small in Hoff by lia.
    simpl. rewrite sum_sizes_snoc. repeat split; lia.
Qed.

(** As long as the frame offset stays an [int], [regalloc] lays the slots
    of the [VAR]s below what is there. *)
Lemma regalloc_loop_layout (l : list VarCell) :
  forall o, 0 <= o -> o + 8 * Z.of_nat (length l) <= 2147483647 ->
    laid_out (- o) ((λ c, (v_off c, 8)) <$> (regalloc_loop l o).1)
      (- (o + 8 * Z.of_nat (length l)))
    /\ (regalloc_loop l o).2 = o + 8 * Z.of_nat (length l).
Proof.
  induction l as [|v l IH]; intros o Ho Hfit; simpl in *; [split; [f_equal|]; lia|].
  rewrite (wrap_int_small (o + 8)) by lia.
  destruct (IH (o + 8)) as [Hlay Hoff]; [lia|lia|].
  destruct (regalloc_loop l (o + 8)) as [r o']. simpl in *.
  rewrite wrap_int_small by lia.
  split; [|lia]. repeat split; [lia|lia|].
  replace (o + 8 * Z.of_nat (S (length l)))
    with (o + 8 + 8 * Z.of_nat (length l)) by lia.
  exact Hlay.
Qed.

Lemma compile_head_frame (f : Func) (s : State) :
  mems (compile_head f s) = mems s
  /\ vars (compile_head f s) = (regalloc_loop (vars s) (offset s)).1
  /\ offset (compile_head f s) = (regalloc_loop (vars s) (offset s)).2.
Proof.
  unfold compile_head, regalloc. by destruct (regalloc_loop (vars s) (offset s)).
Qed.

(** X13.  The stack slots do not overlap and lie inside the frame.  When a
    translation unit is translated from the initial state and the sizes
    of its [Mem]s plus eight for every [VAR] add up to no more than the
    largest [int], so that the frame offset does not overflow, then,
    once [compile] has run [regalloc] and written the prologue, every
    slot of a [Mem] or of a [VAR] has at least eight bytes and lies
    between the frame offset below [%rbp] and [%rbp]; and of two slots
    the one made later ends where the other starts, or lower. *)
Theorem stack_slots_disjoint (uninit : Z -> Z * bool) (toplevels : list Node)
    (f : Func) (s : State) :
  translate uninit toplevels init_state = Some (f, s) ->
  sum_sizes (mems s) + 8 * Z.of_nat (length (vars s)) <= 2147483647 ->
  let s' := compile_head f s in
  (forall (i : nat) o n,
      frame_slots s' !! i = Some (o, n) -> 8 <= n /\ - offset s' <= o /\ o + n <= 0)
  /\ (forall (i j : nat) o n o' n',
        (i < j)%nat -> frame_slots s' !! i = Some (o, n) ->
        frame_slots s' !! j = Some (o', n') -> o' + n' <= o).
Proof.
  intros Ht Hfit s'. unfold translate in Ht.
  destruct toplevels as [|[fname body| | | | | | | | |] [|]]; try done.
  apply bind_Some in Ht as ([r s1] & Hw & Ht). injection Ht as <- <-.
  destruct (walk_offset uninit body init_state s1 r eq_refl ltac:(constructor) Hw)
    as [Ho Hs].
  pose proof (walk_mem_offsets uninit body init_state s1 r eq_refl
                ltac:(by intros i m Hi) Hw) as Hoff.
  pose proof (sum_sizes_nonneg _ Hs) as Hpos.
  rewrite wrap_int_small in Ho by lia.
  destruct (regalloc_loop_layout (vars s1) (offset s1)) as [Hlay Hend]; [lia|lia|].
  assert (laid_out 0 (frame_slots s') (- offset s')) as Hall.
  { unfold frame_slots, s'.
    destruct (compile_head_frame (mkFunc fname (insts s1)) s1) as (-> & -> & ->).
    rewrite Hend. eapply laid_out_app; [|exact Hlay].
    rewrite Ho. apply mems_laid_out; [done|lia|done]. }
  split.
  - apply (laid_out_bounds _ _ _ Hall).
  - apply (laid_out_ordered _ _ _ Hall).
Qed.

Lemma stack_slots_disjoint_witness :
  exists f s,
    translate zeroed add_two init_state = Some (f, s)
    /\ sum_sizes (mems s) + 8 * Z.of_nat (length (vars s)) <= 2147483647
    /\ frame_slots (compile_head f s) = [(-8, 8); (-16, 8); (-24, 8); (-32, 8); (-40, 8)]
    /\ (forall (i : nat) o n,
          frame_slots (compile_head f s) !! i = Some (o, n) ->
          8 <= n /\ - offset (compile_head f s) <= o /\ o + n <= 0)
    /\ (forall (i j : nat) o n o' n',
          (i < j)%nat -> frame_slots (compile_head f s) !! i = Some (o, n) ->
          frame_slots (compile_head f s) !! j = Some (o', n') -> o' + n' <= o).
Proof.
  do 2 eexists. split; [vm_compute; reflexivity|].
  match goal with |- ?a <= ?b /\ _ => assert (a <= b) as Hfit by (by vm_compute) end.
  split; [exact Hfit|]. split; [vm_compute; reflexivity|].
  eapply (stack_slots_disjoint zeroed add_two); [vm_compute; reflexivity|exact Hfit].
Defined.

(** ** map.c: a key held by one slot *)

(** *** Distances along the probe sequence *)

Section Distances.
Variable N : Z.
Hypothesis HN : 0 < N.

Lemma dist_zero (a j : Z) : 0 <= a < N -> 0 <= j < N -> (j - a) mod N = 0 -> a = j.
Proof.
  intros Ha Hj H. destruct (decide (a <= j)).
  - rewrite Z.mod_small in H by lia. lia.
  - replace (j - a) with (j - a + N + -1 * N) in H by lia.
    rewrite Z.mod_add, Z.mod_small in H by lia. lia.
Qed.

Lemma dist_diff (h a j : Z) :
  (a - h) mod N <= (j - h) mod N -> (j - a) mod N = (j - h) mod N - (a - h) mod N.
Proof.
  intros H. replace (j - a) with ((j - h) - (a - h)) by lia.
  rewrite Zminus_mod. apply Z.mod_small.
  pose proof (Z.mod_pos_bound (j - h) N HN). pose proof (Z.mod_pos_bound (a - h) N HN). lia.
Qed.

Lemma dist_to_inj (j x i : Z) :
  0 <= x < N -> 0 <= i < N -> (j - x) mod N = (j - i) mod N -> x = i.
Proof.
  intros Hx Hi H. apply dist_zero; try done.
  replace (i - x) with ((j - x) - (j - i)) by lia.
  rewrite Zminus_mod, H, Z.sub_diag. by apply Z.mod_0_l; lia.
Qed.

Lemma dist_from_inj (h a j : Z) :
  0 <= a < N -> 0 <= j < N -> (a - h) mod N = (j - h) mod N -> a = j.
Proof.
  intros Ha Hj H. apply dist_zero; try done.
  replace (j - a) with ((j - h) - (a - h)) by lia.
  rewrite Zminus_mod, H, Z.sub_diag. by apply Z.mod_0_l; lia.
Qed.
End Distances.

Lemma pow2_pos (n : Z) : 0 <= n -> 0 < 2 ^ n.
Proof. intros. apply Z.pow_pos_nonneg; lia. Qed.

(** *** The lookup loop finds a key that can be reached *)

Section LookupFinds.
Variables (mk : list kptr) (mv : list vptr) (n : Z) (k : string) (i0 : Z).
Hypothesis Hn : 0 <= n.
Hypothesis Hklen : Z.of_nat (length mk) = 2 ^ n.
Hypothesis Hi0 : 0 <= i0 < 2 ^ n.
Hypothesis Hk : mk !! Z.to_nat i0 = Some (KStr k).
Hypothesis Huniq : forall x, 0 <= x < 2 ^ n -> mk !! Z.to_nat x = Some (KStr k) -> x = i0.

Lemma get_probe_finds :
  forall (fuel : nat) (i : Z),
    0 <= i < 2 ^ n -> (i0 - i) mod 2 ^ n < Z.of_nat fuel ->
    (forall x, 0 <= x < 2 ^ n -> 0 < (i0 - x) mod 2 ^ n <= (i0 - i) mod 2 ^ n ->
       mk !! Z.to_nat x <> Some KNull) ->
    get_probe fuel mk mv (2 ^ n - 1) i k = mv !! Z.to_nat i0.
Proof.
  induction fuel as [|fuel IH]; intros i Hi Hd Hpath.
  { pose proof (Z.mod_pos_bound (i0 - i) (2 ^ n) (pow2_pos n Hn)). lia. }
  simpl. destruct (decide (i = i0)) as [->|Hne].
  { by rewrite Hk, String.eqb_refl. }
  pose proof (probe_dist_pos n Hn i i0 Hi Hi0 Hne) as Hpos.
  assert (get_probe fuel mk mv (2 ^ n - 1) (Z.land (i + 1) (2 ^ n - 1)) k
          = mv !! Z.to_nat i0) as Hnext.
  { apply IH; [by apply mask_range| |].
    - rewrite probe_closer by done. lia.
    - intros x Hx Hdx. rewrite probe_closer in Hdx by done. apply Hpath; [done|lia]. }
  destruct (lookup_in_range mk (2 ^ n) i Hklen Hi) as [x Hx]. rewrite Hx.
  destruct x as [| |s]; [|done|].
  - exfalso. apply (Hpath i Hi); [lia|done].
  - destruct (String.eqb s k) eqn:Hsk; [|done].
    apply String.eqb_eq in Hsk. rewrite Hsk in Hx. by apply Huniq in Hx.
Qed.
End LookupFinds.

(** *** Where the insertion loops stop *)

Section InsertPath.
Variables (n : Z).
Hypothesis Hn : 0 <= n.

(** The slots the loop of [map_put] passes hold other keys. *)
Lemma put_probe_path (m : Map) (mk : list kptr) (mv : list vptr) (k : string) (v : vptr) :
  Z.of_nat (length mk) = 2 ^ n ->
  forall (fuel : nat) (i : Z) (m' : Map),
    0 <= i < 2 ^ n ->
    put_probe fuel m mk mv (2 ^ n - 1) i k v = Some m' ->
    exists j : Z,
      0 <= j < 2 ^ n
      /\ (mk !! Z.to_nat j = Some KNull \/ mk !! Z.to_nat j = Some KTomb
          \/ mk !! Z.to_nat j = Some (KStr k))
      /\ key m' = Some (<[Z.to_nat j := KStr k]> mk)
      /\ val m' = Some (<[Z.to_nat j := v]> mv)
      /\ size m' = size m /\ parent m' = parent m
      /\ forall x, 0 <= x < 2 ^ n -> 0 < (j - x) mod 2 ^ n <= (j - i) mod 2 ^ n ->
           exists k', mk !! Z.to_nat x = Some (KStr k') /\ k' <> k.
Proof.
  intros Hklen. induction fuel as [|fuel IH]; intros i m' Hi Hput; [done|].
  simpl in Hput.
  assert (forall x, 0 <= x < 2 ^ n -> 0 < (i - x) mod 2 ^ n <= (i - i) mod 2 ^ n ->
            exists k', mk !! Z.to_nat x = Some (KStr k') /\ k' <> k) as Hnone.
  { intros x _. rewrite Z.sub_diag, Z.mod_0_l by (pose proof (pow2_pos n Hn); lia). lia. }
  destruct (mk !! Z.to_nat i) as [[| |s]|] eqn:Hx; [| | |done].
  - injection Hput as <-. exists i. repeat split; auto; lia.
  - injection Hput as <-. exists i. repeat split; auto; lia.
  - destruct (String.eqb s k) eqn:Hsk.
    + apply String.eqb_eq in Hsk. rewrite Hsk in Hx.
      injection Hput as <-. exists i. repeat split; auto; try lia.
      simpl. by rewrite (list_insert_id mk _ _ Hx).
    + apply String.eqb_neq in Hsk.
      destruct (IH (Z.land (i + 1) (2 ^ n - 1)) m')
        as (j & Hj & Hslot & Hk' & Hv' & Hsz' & Hp' & Hpath); [by apply mask_range|done|].
      assert (i <> j) as Hij.
      { intros <-. rewrite Hx in Hslot. destruct Hslot as [?|[?|[= ?]]]; done. }
      exists j. do 6 (split; [done|]). intros x Hxr Hdx.
      rewrite probe_closer in Hpath by done.
      destruct (decide ((j - x) mod 2 ^ n = (j - i) mod 2 ^ n)) as [Heq|Hneq].
      * apply dist_to_inj in Heq; [|by apply pow2_pos|done..]. subst x. by exists s.
      * apply Hpath; [done|lia].
Qed.

(** The slots the inner loop of [maybe_rehash] passes are not [NULL]. *)
Lemma rehash_probe_path (k : list kptr) :
  forall (fuel : nat) (i j : Z),
    0 <= i < 2 ^ n ->
    rehash_probe fuel k (2 ^ n - 1) i = Some j ->
    0 <= j < 2 ^ n /\ k !! Z.to_nat j = Some KNull
    /\ forall x, 0 <= x < 2 ^ n -> 0 < (j - x) mod 2 ^ n <= (j - i) mod 2 ^ n ->
         k !! Z.to_nat x <> Some KNull.
Proof.
  induction fuel as [|fuel IH]; intros i j Hi H; [done|]. simpl in H.
  destruct (k !! Z.to_nat i) as [x0|] eqn:Hx; [|done].
  assert (x0 <> KNull -> rehash_probe fuel k (2 ^ n - 1) (Z.land (i + 1) (2 ^ n - 1)) = Some j ->
          0 <= j < 2 ^ n /\ k !! Z.to_nat j = Some KNull
          /\ forall x, 0 <= x < 2 ^ n -> 0 < (j - x) mod 2 ^ n <= (j - i) mod 2 ^ n ->
               k !! Z.to_nat x <> Some KNull) as Hnext.
  { intros Hnn Hrun. destruct (IH _ _ (mask_range n Hn (i + 1)) Hrun) as (Hj & Hnull & Hpath).
    assert (i <> j) as Hij by (intros <-; congruence).
    do 2 (split; [done|]). intros x Hxr Hdx.
    rewrite probe_closer in Hpath by done.
    destruct (decide ((j - x) mod 2 ^ n = (j - i) mod 2 ^ n)) as [Heq|Hneq].
    - apply dist_to_inj in Heq; [|by apply pow2_pos|done..]. subst x. congruence.
    - apply Hpath; [done|lia]. }
  destruct x0 as [| |s]; [|by apply Hnext..].
  injection H as <-. do 2 (split; [done|]). intros x _.
  rewrite Z.sub_diag, Z.mod_0_l by (pose proof (pow2_pos n Hn); lia). lia.
Qed.
End InsertPath.

(** *** Every binding can be reached *)

Lemma no_orphan_insert (mk : list kptr) (N j : Z) (k : string) :
  no_orphan mk N -> 0 <= j < N ->
  (forall x, 0 <= x < N -> 0 < (j - x) mod N <= (j - hash k) mod N ->
     mk !! Z.to_nat x <> Some KNull) ->
  no_orphan (<[Z.to_nat j := KStr k]> mk) N.
Proof.
  intros Hno Hj Hpath i k' Hi Hlook x Hx Hd.
  destruct (decide (x = j)) as [->|Hxj].
  { intros Hnull. pose proof (lookup_lt_Some _ _ _ Hnull) as Hlt.
    rewrite length_insert in Hlt. by rewrite list_lookup_insert_eq in Hnull. }
  rewrite list_lookup_insert_ne by lia.
  destruct (decide (i = j)) as [->|Hij].
  - pose proof (lookup_lt_Some _ _ _ Hlook) as Hlt. rewrite length_insert in Hlt.
    rewrite list_lookup_insert_eq in Hlook by done. injection Hlook as <-.
    by apply Hpath.
  - rewrite list_lookup_insert_ne in Hlook by lia. exact (Hno i k' Hi Hlook x Hx Hd).
Qed.

Lemma no_orphan_tomb (mk : list kptr) (N : Z) (j : nat) :
  no_orphan mk N -> no_orphan (<[j := KTomb]> mk) N.
Proof.
  intros Hno i k Hi Hlook x Hx Hd.
  destruct (decide (Z.to_nat i = j)) as [Hij|Hij].
  { pose proof (lookup_lt_Some _ _ _ Hlook) as Hlt. rewrite length_insert in Hlt.
    subst j. by rewrite list_lookup_insert_eq in Hlook. }
  rewrite list_lookup_insert_ne in Hlook by done.
  destruct (decide (Z.to_nat x = j)) as [Hxj|Hxj].
  - intros Hnull. pose proof (lookup_lt_Some _ _ _ Hnull) as Hlt.
    rewrite length_insert in Hlt. subst j. by rewrite list_lookup_insert_eq in Hnull.
  - rewrite list_lookup_insert_ne by done. exact (Hno i k Hi Hlook x Hx Hd).
Qed.

Lemma no_orphan_calloc (s N : Z) : no_orphan (calloc_keys s) N.
Proof.
  intros i k _ Hlook. unfold calloc_keys in Hlook.
  by apply lookup_replicate_1 in Hlook as [? _].
Qed.

(** The scan of [maybe_rehash] leaves every binding it moves where a
    lookup reaches it. *)
Lemma rehash_loop_no_orphan (n : Z) (mk : list kptr) (mv : list vptr) :
  0 <= n ->
  forall (cnt : nat) (i : Z) (k : list kptr) (v : list vptr) (k' : list kptr) (v' : list vptr),
    no_orphan k (2 ^ n) ->
    rehash_loop cnt i mk mv (2 ^ n - 1) k v = Some (k', v') ->
    no_orphan k' (2 ^ n).
Proof.
  intros Hn. induction cnt as [|cnt IH]; intros i k v k' v' Hno H; simpl in H.
  { by injection H as <- <-. }
  destruct (mk !! Z.to_nat i) as [[| |s]|]; [by eapply IH..| |done].
  apply bind_Some in H as (y & _ & H). apply bind_Some in H as (j & Hj & H).
  apply rehash_probe_path in Hj as (Hjr & _ & Hpath); [|done|by apply mask_range].
  eapply IH; [|exact H]. apply no_orphan_insert; [done..|].
  intros x Hx Hd. apply Hpath; [done|].
  by rewrite mask_land, Zminus_mod_idemp_r.
Qed.

Lemma run_snoc (ops : list op) (o : op) :
  forall m m', run (ops ++ [o]) m = Some m' ->
    exists m1, run ops m = Some m1 /\ step m1 o = Some m'.
Proof.
  induction ops as [|a ops IH]; intros m m' H; simpl in H.
  - apply bind_Some in H as (m1 & Hs & H). injection H as <-. by exists m.
  - apply bind_Some in H as (m1 & Hs & H). apply IH in H as (m2 & Hrun & Hstep).
    exists m2. simpl. by rewrite Hs.
Qed.

(** Induction on the calls that made a reachable table. *)
Lemma reachable_induction (P : Map -> Prop) :
  (forall m, fresh m -> P m) ->
  (forall m m' o, reachable m -> P m -> step m o = Some m' -> P m') ->
  forall m, reachable m -> P m.
Proof.
  intros Hfresh Hstep m (m0 & ops & Hf & Hrun). revert m Hrun.
  induction ops as [|o ops IH] using rev_ind; intros m Hrun.
  - injection Hrun as <-. by apply Hfresh.
  - apply run_snoc in Hrun as (m1 & Hrun & Hs).
    apply (Hstep m1 m o); [by exists m0, ops|by apply IH|done].
Qed.

Lemma maybe_rehash_no_orphan (m m1 : Map) :
  reachable m -> no_orphan (slots m) (size m) -> maybe_rehash m = Some m1 ->
  no_orphan (slots m1) (size m1).
Proof.
  intros Hr Hno Hre. unfold maybe_rehash in Hre. destruct (key m) as [mk|] eqn:Hk.
  - destruct (reachable_arrays m mk Hr Hk) as (mv & n & Hv & Hn & Hsz & _).
    destruct (lt_07 (nused m) (size m)); [by injection Hre as <-|].
    apply bind_Some in Hre as ([k v] & Hloop & Hre). injection Hre as <-.
    unfold slots. simpl.
    assert (exists n', 0 <= n'
              /\ (if lt_035 (nelem m) (size m) then size m else size m * 2) = 2 ^ n')
      as (n' & Hn' & Hns).
    { destruct (lt_035 (nelem m) (size m)); [exists n; lia|].
      exists (n + 1). rewrite Z.pow_add_r by lia. lia. }
    rewrite Hns in *.
    eapply (rehash_loop_no_orphan n'); [done| |exact Hloop]. apply no_orphan_calloc.
  - injection Hre as <-. apply no_orphan_calloc.
Qed.

Lemma reachable_no_orphan (m : Map) : reachable m -> no_orphan (slots m) (size m).
Proof.
  revert m. apply reachable_induction.
  { intros m [p|]; [apply no_orphan_calloc|]. by intros i k _ Hlook. }
  intros m m' [k v|k] Hr Hno Hstep; simpl in Hstep.
  - unfold map_put in Hstep.
    destruct (maybe_rehash_bindings m Hr) as (m1 & Hre & Hwf1 & [mk Hk] & _).
    pose proof (maybe_rehash_no_orphan m m1 Hr Hno Hre) as Hno1.
    rewrite Hre in Hstep. simpl in Hstep. rewrite Hk in Hstep. simpl in Hstep.
    unfold wf in Hwf1. rewrite Hk in Hwf1.
    destruct (val m1) as [mv|] eqn:Hv; [|done]. simpl in Hstep.
    destruct Hwf1 as [(n & Hn & Hsz) Hkl _ _ _].
    rewrite Hsz in Hstep, Hkl.
    destruct (put_probe_path n ltac:(lia) m1 mk mv k v Hkl _ _ _
                (mask_range n ltac:(lia) (hash k)) Hstep)
      as (j & Hj & _ & Hk' & _ & Hsz' & _ & Hpath).
    unfold slots in *. rewrite Hk', Hsz', Hsz. rewrite Hk, Hsz in Hno1. simpl in *.
    apply no_orphan_insert; [done..|].
    intros x Hx Hd. rewrite mask_land, Zminus_mod_idemp_r in Hpath by lia.
    destruct (Hpath x Hx Hd) as (k' & -> & _). done.
  - unfold map_remove in Hstep. destruct (key m) as [mk|] eqn:Hk.
    + apply remove_probe_cases in Hstep as [[-> _]|(j & mv & _ & _ & ->)]; [done|].
      unfold slots in *. rewrite Hk in Hno. simpl in *. by apply no_orphan_tomb.
    + by injection Hstep as <-.
Qed.

Lemma count_two (f : kptr -> bool) (l : list kptr) (a b : nat) (x y : kptr) :
  f KNull = false ->
  l !! a = Some x -> l !! b = Some y -> a <> b -> f x = true -> f y = true ->
  2 <= count f l.
Proof.
  intros Hnull Ha Hb Hab Hx Hy.
  pose proof (count_insert f l a x KNull Ha) as Hc.
  assert (<[a := KNull]> l !! b = Some y) as Hb' by (by rewrite list_lookup_insert_ne).
  pose proof (count_insert f _ b y KNull Hb') as Hc'.
  pose proof (count_range f (<[b := KNull]> (<[a := KNull]> l))).
  rewrite Hx, Hnull in Hc. rewrite Hy, Hnull in Hc'. unfold b2z in *. lia.
Qed.

(** A key that one slot holds is found in that slot. *)
Lemma lookup_unique_slot (m : Map) (i : nat) (k : string) (v : vptr) :
  reachable m ->
  slots m !! i = Some (KStr k) -> default [] (val m) !! i = Some v ->
  key_count k (slots m) <= 1 ->
  map_get_nostack m k = Some v.
Proof.
  intros Hr Hi Hvi Hone. pose proof (reachable_no_orphan m Hr) as Hno.
  unfold map_get_nostack. unfold slots in *. destruct (key m) as [mk|] eqn:Hk; [|done].
  destruct (reachable_arrays m mk Hr Hk) as (mv & n & Hv & Hn & Hsz & Hkl & Hvl & _).
  rewrite Hv, Hsz in *. simpl in *.
  pose proof (lookup_lt_Some _ _ _ Hi) as Hlt.
  rewrite <- Hvi, <- (Nat2Z.id i).
  apply (get_probe_finds mk mv n k (Z.of_nat i)); try done; try lia.
  - by rewrite Nat2Z.id.
  - intros x Hx Hxk. destruct (decide (x = Z.of_nat i)) as [|Hne]; [done|].
    pose proof (count_two (holds k) mk (Z.to_nat x) i _ _ eq_refl Hxk Hi ltac:(lia)) as Hc.
    simpl in Hc. rewrite String.eqb_refl in Hc. unfold key_count in Hone.
    specialize (Hc eq_refl eq_refl). lia.
  - apply mask_range. lia.
  - pose proof (Z.mod_pos_bound (Z.of_nat i - Z.land (hash k) (2 ^ n - 1)) (2 ^ n)). lia.
  - intros x Hx Hd. rewrite mask_land, Zminus_mod_idemp_r in Hd by lia.
    apply (Hno (Z.of_nat i) k); try done; try lia. by rewrite Nat2Z.id.
Qed.

(** X14.  A lookup finds the binding of a key that one slot holds.  On a
    reachable table, removals and rehashes included, if slot [i] holds
    the key with the value [v] and no other slot holds the key, then
    [map_get_nostack] returns [v]; if [v] is not [NULL], so does
    [map_get], whatever the ancestors bind. *)
Theorem lookup_finds_binding (m : Map) (i : nat) (k : string) (v : vptr) :
  reachable m ->
  slots m !! i = Some (KStr k) -> default [] (val m) !! i = Some v ->
  key_count k (slots m) <= 1 ->
  map_get_nostack m k = Some v /\ (v <> NULL -> map_get m k = Some v).
Proof.
  intros Hr Hi Hvi Hone.
  pose proof (lookup_unique_slot m i k v Hr Hi Hvi Hone) as Hget.
  split; [done|]. intros Hnn. rewrite map_get_unfold, Hget. simpl.
  destruct (v =? NULL) eqn:E; [|done]. apply Z.eqb_eq in E. done.
Qed.

Lemma lookup_finds_binding_witness :
  exists m,
    run (dup_ops ++ [Remove "q"; Put "a" 5]) make_map = Some m
    /\ slots m !! 13%nat = Some (KStr "q") /\ default [] (val m) !! 13%nat = Some 2
    /\ key_count "q" (slots m) <= 1
    /\ map_get_nostack m "q" = Some 2 /\ (2 <> NULL -> map_get m "q" = Some 2).
Proof.
  eexists. split; [by vm_compute|].
  split; [by vm_compute|]. split; [by vm_compute|]. split; [by vm_compute|].
  apply (lookup_finds_binding _ 13 "q" 2).
  - exists make_map, (dup_ops ++ [Remove "q"; Put "a" 5]).
    split; [apply (fresh_make None)|vm_compute; reflexivity].
  - vm_compute; reflexivity.
  - vm_compute; reflexivity.
  - by vm_compute.
Defined.

(** ** map.c: tables that were only put to *)

Lemma entries_lookup (mk : list kptr) :
  forall (mv : list vptr) (k : string) (v : vptr),
    (k, v) ∈ entries mk mv -> exists i : nat, mk !! i = Some (KStr k) /\ mv !! i = Some v.
Proof.
  induction mk as [|a mk IH]; intros [|b mv] k v H; simpl in H;
    try (by apply elem_of_nil in H); try (by destruct a; apply elem_of_nil in H).
  assert ((k, v) ∈ entries mk mv ->
          exists i : nat, (a :: mk) !! i = Some (KStr k) /\ (b :: mv) !! i = Some v) as Hrest.
  { intros Hin. destruct (IH mv k v Hin) as (i & ? & ?). by exists (S i). }
  destruct a as [| |s]; [by apply Hrest..|].
  apply elem_of_cons in H as [[= -> ->]|H]; [by exists 0%nat|by apply Hrest].
Qed.

Lemma lookup_entries (mk : list kptr) (mv : list vptr) (i : nat) (k : string) (v : vptr) :
  mk !! i = Some (KStr k) -> mv !! i = Some v -> (k, v) ∈ entries mk mv.
Proof.
  intros Hk Hv. rewrite (entries_split i mk mv _ _ Hk Hv). simpl.
  apply elem_of_app. right. left.
Qed.

Lemma key_count_absent (k : string) (mk : list kptr) :
  forall mv : list vptr,
    (length mk <= length mv)%nat -> k ∉ (entries mk mv).*1 -> key_count k mk = 0.
Proof.
  induction mk as [|a mk IH]; intros [|b mv] Hlen Habs; simpl in *; try done; try lia.
  unfold key_count in *. rewrite count_cons.
  destruct a as [| |s]; simpl in *; try (rewrite (IH mv) by (lia || done); done).
  apply not_elem_of_cons in Habs as [Hne Habs].
  rewrite (IH mv) by (lia || done).
  destruct (String.eqb s k) eqn:E; [|done]. apply String.eqb_eq in E. done.
Qed.

Lemma key_count_NoDup (k : string) (mk : list kptr) :
  forall mv : list vptr,
    (length mk <= length mv)%nat -> NoDup (entries mk mv).*1 -> key_count k mk <= 1.
Proof.
  induction mk as [|a mk IH]; intros [|b mv] Hlen Hnd; simpl in *; try done; try lia.
  unfold key_count in *. rewrite count_cons.
  destruct a as [| |s]; simpl in *; try (specialize (IH mv ltac:(lia) Hnd); lia).
  apply NoDup_cons in Hnd as [Hs Hnd].
  destruct (String.eqb s k) eqn:E.
  - apply String.eqb_eq in E. subst s.
    pose proof (key_count_absent k mk mv ltac:(lia) Hs) as H0.
    unfold key_count in H0. simpl. lia.
  - specialize (IH mv ltac:(lia) Hnd). simpl. lia.
Qed.

(** What [map_put] does on a reachable table: after the rehash check it
    writes one slot, which held the key, a tombstone or [NULL]; and it
    fills a [NULL] slot only when no slot holds the key. *)
Lemma map_put_cases (m m' : Map) (k : string) (v : vptr) :
  reachable m -> map_put m k v = Some m' ->
  exists (m1 : Map) (mk : list kptr) (mv : list vptr) (j : nat) (x : kptr) (y : vptr),
    bindings m1 ≡ₚ bindings m /\ (m1 = m \/ ~ In KTomb (slots m1))
    /\ key m1 = Some mk /\ val m1 = Some mv /\ length mv = length mk
    /\ mk !! j = Some x /\ mv !! j = Some y
    /\ key m' = Some (<[j := KStr k]> mk) /\ val m' = Some (<[j := v]> mv)
    /\ parent m' = parent m
    /\ (x = KStr k \/ x = KTomb \/ (x = KNull /\ ~ In (KStr k) mk)).
Proof.
  intros Hr Hput. unfold map_put in Hput.
  destruct (maybe_rehash_bindings m Hr)
    as (m1 & Hre & Hwf1 & [mk Hk] & _ & Hb & _ & Hp & Htomb).
  pose proof (maybe_rehash_no_orphan m m1 Hr (reachable_no_orphan m Hr) Hre) as Hno.
  rewrite Hre in Hput. simpl in Hput. rewrite Hk in Hput. simpl in Hput.
  unfold wf in Hwf1. rewrite Hk in Hwf1.
  destruct (val m1) as [mv|] eqn:Hv; [|done]. simpl in Hput.
  destruct Hwf1 as [(n & Hn & Hsz) Hkl Hvl _ _].
  rewrite Hsz in Hput, Hkl, Hvl. unfold slots in Hno. rewrite Hk, Hsz in Hno. simpl in Hno.
  assert (0 < 2 ^ n) as Hpos by (apply pow2_pos; lia).
  destruct (put_probe_path n ltac:(lia) m1 mk mv k v Hkl _ _ _
              (mask_range n ltac:(lia) (hash k)) Hput)
    as (j & Hj & Hslot & Hk' & Hv' & _ & Hp' & Hpath).
  rewrite mask_land in Hpath by lia.
  destruct (lookup_lt_is_Some_2 mv (Z.to_nat j)) as [y Hy]; [lia|].
  assert (exists x, mk !! Z.to_nat j = Some x
            /\ (x = KStr k \/ x = KTomb \/ (x = KNull /\ ~ In (KStr k) mk)))
    as (x & Hx & Hcase).
  { destruct Hslot as [Hnull|[Htb|Hkk]]; [|by exists KTomb; auto|by exists (KStr k); auto].
    exists KNull. split; [done|]. right. right. split; [done|].
    intros Hin. apply list_elem_of_In, list_elem_of_lookup in Hin as [a Ha].
    pose proof (lookup_lt_Some _ _ _ Ha) as Hlt.
    assert (0 <= Z.of_nat a < 2 ^ n) as Har by lia.
    rewrite <- (Nat2Z.id a) in Ha.
    destruct (Z.lt_trichotomy ((Z.of_nat a - hash k) mod 2 ^ n) ((j - hash k) mod 2 ^ n))
      as [Hlt'|[Heq|Hgt]].
    - destruct (Hpath (Z.of_nat a) Har) as (k' & Hk'' & Hne).
      { rewrite Zminus_mod_idemp_r.
        rewrite (dist_diff (2 ^ n) Hpos (hash k) (Z.of_nat a) j) by lia.
        pose proof (Z.mod_pos_bound (Z.of_nat a - hash k) (2 ^ n) Hpos). lia. }
      congruence.
    - apply dist_from_inj in Heq; [|done..]. congruence.
    - apply (Hno (Z.of_nat a) k Har Ha j Hj); [|done].
      rewrite (dist_diff (2 ^ n) Hpos (hash k) j (Z.of_nat a)) by lia.
      pose proof (Z.mod_pos_bound (j - hash k) (2 ^ n) Hpos). lia. }
  exists m1, mk, mv, (Z.to_nat j), x, y.
  split; [done|]. split; [destruct Htomb as [?|[? _]]; auto|].
  do 2 (split; [done|]). split; [lia|]. do 4 (split; [done|]).
  split; [congruence|done].
Qed.

Lemma NoDup_keys_replace (A B : list (string * vptr)) (k : string) (v : vptr)
    (old : list (string * vptr)) :
  (old = [] /\ (k ∉ (A ++ B).*1)) \/ (exists y, old = [(k, y)]) ->
  NoDup (A ++ old ++ B).*1 ->
  NoDup (A ++ [(k, v)] ++ B).*1
  /\ (forall e, e ∈ A ++ [(k, v)] ++ B <-> e = (k, v) \/ (e.1 <> k /\ e ∈ A ++ old ++ B))
  /\ (forall k', k' ∉ (A ++ [(k, v)] ++ B).*1 -> k' <> k /\ (k' ∉ (A ++ old ++ B).*1)).
Proof.
  intros Hold Hnd.
  assert (NoDup (A ++ B).*1 /\ (k ∉ (A ++ B).*1)) as (Hnd' & Hk).
  { destruct Hold as [[-> Hk]|[y ->]]; [done|].
    rewrite !fmap_app in Hnd. simpl in Hnd.
    assert (A.*1 ++ k :: B.*1 ≡ₚ k :: A.*1 ++ B.*1) as Hperm
      by (symmetry; apply Permutation_middle).
    rewrite Hperm in Hnd. apply NoDup_cons in Hnd as [Hk Hnd].
    by rewrite fmap_app. }
  assert (forall e, e ∈ A ++ old ++ B <-> e ∈ old \/ e ∈ A ++ B) as Hin.
  { intros e. rewrite !elem_of_app. tauto. }
  assert (forall e, e ∈ old -> e.1 = k) as Hisk.
  { intros e He. destruct Hold as [[-> _]|[y ->]]; [by apply elem_of_nil in He|].
    apply list_elem_of_singleton in He. by subst e. }
  assert (forall e, e ∈ A ++ B -> e.1 <> k) as Hother.
  { intros e He <-. apply Hk. apply list_elem_of_fmap. by exists e. }
  split; [|split].
  - rewrite fmap_app. simpl.
    assert (A.*1 ++ k :: B.*1 ≡ₚ k :: A.*1 ++ B.*1) as ->
      by (symmetry; apply Permutation_middle).
    rewrite <- fmap_app. by apply NoDup_cons.
  - intros e. rewrite Hin. split.
    + intros He. assert (e = (k, v) \/ e ∈ A ++ B) as [->|He'].
      { revert He. rewrite !elem_of_app, list_elem_of_singleton. tauto. }
      * by left.
      * right. split; [by apply Hother|by right].
    + intros [->|[Hne [He|He]]].
      * rewrite !elem_of_app, list_elem_of_singleton. auto.
      * by apply Hisk in He.
      * revert He. rewrite !elem_of_app, list_elem_of_singleton. tauto.
  - intros k' Hk'. rewrite !fmap_app in Hk'. simpl in Hk'.
    rewrite elem_of_app, elem_of_cons in Hk'.
    split; [intros ->; tauto|].
    rewrite !fmap_app, !elem_of_app. intros [?|[Ho|?]]; [tauto| |tauto].
    apply list_elem_of_fmap in Ho as (e & -> & He). apply Hisk in He. tauto.
Qed.

Lemma last_put_snoc (k : string) (ops : list op) (k' : string) (v : vptr) :
  last_put k (ops ++ [Put k' v]) = if String.eqb k' k then v else last_put k ops.
Proof. unfold last_put. by rewrite foldl_app. Qed.

(** What a table that was only put to satisfies. *)
Lemma puts_only_inv (m0 : Map) (ops : list op) :
  fresh m0 -> Forall is_put ops ->
  forall m, run ops m0 = Some m ->
    reachable m /\ NoDup (bindings m).*1 /\ ~ In KTomb (slots m)
    /\ (forall k v, (k, v) ∈ bindings m -> v = last_put k ops)
    /\ (forall k, k ∉ (bindings m).*1 -> last_put k ops = NULL).
Proof.
  intros Hf. induction ops as [|o ops IH] using rev_ind; intros Hput m Hrun.
  { injection Hrun as <-. split; [by apply reachable_fresh|].
    assert (bindings m0 = [] /\ ~ In KTomb (slots m0)) as [Hb Ht].
    { destruct Hf as [p|]; [|by split; [|intros []]]. split.
      - apply entries_calloc.
      - unfold slots, calloc_keys. cbn [key do_make_map default].
        intros Hin%list_elem_of_In. by apply elem_of_replicate in Hin as [? _]. }
    rewrite Hb. repeat split; try done; [constructor|].
    intros k v Hin. by apply elem_of_nil in Hin. }
  apply Forall_app in Hput as [Hput Ho]. apply Forall_inv in Ho.
  destruct o as [k v|k]; [|done].
  apply run_snoc in Hrun as (m1 & Hrun & Hstep). simpl in Hstep.
  destruct (IH Hput m1 Hrun) as (Hr & Hnd & Htomb & Hval & Habs).
  pose proof (reachable_step m1 m (Put k v) Hr Hstep) as Hr'.
  destruct (map_put_cases m1 m k v Hr Hstep)
    as (m2 & mk & mv & j & x & y & Hb & Hre & Hk & Hv & Hlen & Hx & Hy & Hk' & Hv' & _ & Hcase).
  pose proof (lookup_lt_Some _ _ _ Hx) as Hj.
  assert (~ In KTomb mk) as Htomb2.
  { destruct Hre as [->|Hre]; unfold slots in *; [by rewrite Hk in Htomb|by rewrite Hk in Hre]. }
  assert (bindings m = entries (take j mk) (take j mv) ++ [(k, v)]
                         ++ entries (drop (S j) mk) (drop (S j) mv)) as Hnew.
  { unfold bindings, slots. rewrite Hk', Hv'. simpl. apply entries_insert; lia. }
  assert (bindings m2 = entries (take j mk) (take j mv) ++ slot_entry x y
                          ++ entries (drop (S j) mk) (drop (S j) mv)) as Hold.
  { unfold bindings, slots. rewrite Hk, Hv. simpl. by apply entries_split. }
  assert (NoDup (bindings m2).*1) as Hnd2 by (by rewrite Hb).
  assert (forall k v, (k, v) ∈ bindings m2 -> v = last_put k ops) as Hval2.
  { intros k0 v0 Hin. apply Hval. by rewrite <- Hb. }
  assert (forall k, k ∉ (bindings m2).*1 -> last_put k ops = NULL) as Habs2.
  { intros k0 Hout. apply Habs. by rewrite <- Hb. }
  clear Hnd Hval Habs.
  destruct (NoDup_keys_replace (entries (take j mk) (take j mv))
              (entries (drop (S j) mk) (drop (S j) mv)) k v (slot_entry x y))
    as (Hnd' & Hin' & Hout').
  { destruct Hcase as [->|[->|[-> Hnone]]].
    - right. by exists y.
    - exfalso. apply Htomb2. apply list_elem_of_In. by eapply list_elem_of_lookup_2.
    - left. split; [done|]. intros Hin. apply Hnone.
      assert (k ∈ (bindings m2).*1) as Hin2 by (by rewrite Hold).
      apply list_elem_of_fmap in Hin2 as ([k0 v0] & -> & Hin2).
      unfold bindings, slots in Hin2. rewrite Hk, Hv in Hin2. simpl in Hin2.
      apply entries_lookup in Hin2 as (a & Ha & _).
      apply list_elem_of_In. by eapply list_elem_of_lookup_2. }
  { by rewrite <- Hold. }
  rewrite <- Hold in Hin', Hout'. rewrite <- Hnew in Hnd', Hin', Hout'.
  split; [done|]. split; [done|]. split; [|split].
  - unfold slots. rewrite Hk'. simpl. intros [?|?]%in_insert; [done|tauto].
  - intros k' v' Hin. rewrite last_put_snoc. apply Hin' in Hin as [[= -> ->]|[Hne Hin]].
    + by rewrite String.eqb_refl.
    + simpl in Hne. apply String.eqb_neq in Hne. rewrite String.eqb_sym, Hne. by apply Hval2.
  - intros k' Hk0. apply Hout' in Hk0 as [Hne Hk0]. rewrite last_put_snoc.
    apply String.eqb_neq in Hne. rewrite String.eqb_sym, Hne. by apply Habs2.
Qed.

(** After [map_put] calls only, every key is in at most one slot and a
    lookup returns the value last put. *)
Lemma puts_only_get (m0 m : Map) (ops : list op) (k : string) :
  fresh m0 -> Forall is_put ops -> run ops m0 = Some m ->
  key_count k (slots m) <= 1 /\ map_get_nostack m k = Some (last_put k ops).
Proof.
  intros Hf Hput Hrun.
  destruct (puts_only_inv m0 ops Hf Hput m Hrun) as (Hr & Hnd & Htomb & Hval & Habs).
  assert (key_count k (slots m) <= 1) as Hone.
  { unfold bindings, slots in *. destruct (key m) as [mk|] eqn:Hk; [|done].
    destruct (reachable_arrays m mk Hr Hk) as (mv & n & Hv & _ & _ & Hkl & Hvl & _).
    rewrite Hv in Hnd. simpl in *. apply (key_count_NoDup k mk mv); [lia|done]. }
  split; [done|].
  destruct (decide (k ∈ (bindings m).*1)) as [Hin|Hout].
  - apply list_elem_of_fmap in Hin as ([k0 v] & -> & Hin). simpl in *.
    rewrite <- (Hval _ _ Hin). apply entries_lookup in Hin as (i & Hi & Hvi).
    by apply (lookup_unique_slot m i k0 v).
  - rewrite (Habs k Hout). apply lookup_absent; [done|].
    intros Hin. apply Hout. apply list_elem_of_In, list_elem_of_lookup in Hin as [i Hi].
    unfold bindings, slots in *. destruct (key m) as [mk|] eqn:Hk; [|done].
    destruct (reachable_arrays m mk Hr Hk) as (mv & n & Hv & _ & _ & Hkl & Hvl & _).
    rewrite Hv. simpl in *. pose proof (lookup_lt_Some _ _ _ Hi) as Hlt.
    destruct (lookup_lt_is_Some_2 mv i) as [y Hy]; [lia|].
    apply list_elem_of_fmap. exists (k, y). split; [done|]. by eapply lookup_entries.
Qed.

(** X15.  Without removals the table is a map.  After any sequence of
    [map_put] calls on a fresh table (all of them return), no key is in
    two slots, no slot is a tombstone, and a lookup of any key returns
    the value of the last [map_put] of that key, [NULL] if there was
    none; so does [map_get] when the table has no parent. *)
Theorem puts_only_lookup (m0 : Map) (ops : list op) :
  fresh m0 -> Forall is_put ops ->
  exists m,
    run ops m0 = Some m
    /\ NoDup (bindings m).*1 /\ ~ In KTomb (slots m)
    /\ forall k,
         key_count k (slots m) <= 1
         /\ map_get_nostack m k = Some (last_put k ops)
         /\ (parent m0 = None -> map_get m k = Some (last_put k ops)).
Proof.
  intros Hf Hput.
  destruct (run_spec ops m0 (wf_fresh _ Hf) (fresh_load _ Hf)) as (m & Hrun & _).
  exists m. split; [done|].
  destruct (puts_only_inv m0 ops Hf Hput m Hrun) as (Hr & Hnd & Htomb & _).
  split; [done|]. split; [done|]. intros k.
  destruct (puts_only_get m0 m ops k Hf Hput Hrun) as [Hone Hget].
  split; [done|]. split; [done|]. intros Hp.
  rewrite map_get_unfold, Hget. simpl.
  rewrite (run_parent ops m0 m (wf_fresh _ Hf) (fresh_load _ Hf) Hrun), Hp.
  by destruct (last_put k ops =? NULL) eqn:E; [apply Z.eqb_eq in E; rewrite E|].
Qed.

Lemma puts_only_lookup_witness :
  fresh make_map /\ Forall is_put (twelve_puts ++ [Put "a" 42; Put "zz" 7])
  /\ last_put "a" (twelve_puts ++ [Put "a" 42; Put "zz" 7]) = 42
  /\ exists m,
      run (twelve_puts ++ [Put "a" 42; Put "zz" 7]) make_map = Some m
      /\ NoDup (bindings m).*1 /\ ~ In KTomb (slots m)
      /\ forall k,
           key_count k (slots m) <= 1
           /\ map_get_nostack m k = Some (last_put k (twelve_puts ++ [Put "a" 42; Put "zz" 7]))
           /\ (parent make_map = None ->
               map_get m k = Some (last_put k (twelve_puts ++ [Put "a" 42; Put "zz" 7]))).
Proof.
  assert (Forall is_put (twelve_puts ++ [Put "a" 42; Put "zz" 7])) as Hput
    by (repeat constructor).
  split; [apply (fresh_make None)|]. split; [exact Hput|]. split; [reflexivity|].
  apply (puts_only_lookup make_map _ (fresh_make None) Hput).
Defined.

(** ** codegen.c: names *)

Lemma run_snoc_r (ops : list op) (o : op) :
  forall m m1 m', run ops m = Some m1 -> step m1 o = Some m' ->
    run (ops ++ [o]) m = Some m'.
Proof.
  induction ops as [|a ops IH]; intros m m1 m' Hrun Hstep; simpl in *.
  - injection Hrun as ->. by rewrite Hstep.
  - apply bind_Some in Hrun as (m2 & Hs & Hrun). rewrite Hs. simpl. by eapply IH.
Qed.

Lemma puts_only_reachable (m : Map) : puts_only m -> reachable m.
Proof. intros (m0 & ops & Hf & _ & Hrun). by exists m0, ops. Qed.

(** On a table that was only put to, [map_put] binds the key and leaves
    the lookups of all other keys as they were. *)
Lemma puts_only_put (m m' : Map) (k : string) (v : vptr) :
  puts_only m -> map_put m k v = Some m' ->
  puts_only m' /\ map_get_nostack m' k = Some v /\ parent m' = parent m
  /\ forall k', k' <> k -> map_get m' k' = map_get m k'.
Proof.
  intros Hp Hput. pose proof (puts_only_reachable m Hp) as Hr.
  destruct Hp as (m0 & ops & Hf & Hops & Hrun).
  pose proof (run_snoc_r ops (Put k v) m0 m m' Hrun Hput) as Hrun'.
  assert (Forall is_put (ops ++ [Put k v])) as Hops'.
  { apply Forall_app. split; [done|]. by repeat constructor. }
  assert (parent m' = parent m) as Hpar.
  { by destruct (map_put_cases m m' k v Hr Hput)
      as (? & ? & ? & ? & ? & ? & ? & ? & ? & ? & ? & ? & ? & ? & ? & ? & ?). }
  split; [by exists m0, (ops ++ [Put k v])|]. split; [|split; [done|]].
  - destruct (puts_only_get m0 m' _ k Hf Hops' Hrun') as [_ ->].
    by rewrite last_put_snoc, String.eqb_refl.
  - intros k' Hne. rewrite !map_get_unfold, Hpar.
    destruct (puts_only_get m0 m' _ k' Hf Hops' Hrun') as [_ ->].
    destruct (puts_only_get m0 m _ k' Hf Hops Hrun) as [_ ->].
    rewrite last_put_snoc. apply String.eqb_neq in Hne.
    by rewrite String.eqb_sym, Hne.
Qed.

(** Walking a tree that does not declare [x] leaves the lookup of [x] in
    [lvars] as it was. *)
Lemma walk_keeps_lookup (uninit : Z -> Z * bool) (x : string) (node : Node) :
  declares x node = false ->
  forall (s s' : State) (r : option Var),
    puts_only (lvars s) -> walk uninit node s = Some (r, s') ->
    puts_only (lvars s') /\ CMap.map_get (lvars s') x = CMap.map_get (lvars s) x.
Proof.
  induction node as [fname body IH|ty_size varname declinit IH|varname|stmts IH
                    |retval IH|operand IH|l r IHl IHr|l r IHl IHr|k i|]
    using Node_nested_ind; intros Hd s s' res Hp H; simpl in H, Hd; try done.
  - apply orb_false_elim in Hd as [Hne Hd]. apply String.eqb_neq in Hne.
    apply bind_Some in H as (lv & Hput & H).
    destruct (puts_only_put _ _ _ _ Hp Hput) as (Hp1 & _ & _ & Hget).
    specialize (Hget x ltac:(congruence)).
    destruct declinit as [|init rest].
    + by injection H as _ <-.
    + apply bind_Some in H as ([rhs s3] & Hw & H). injection H as _ <-.
      apply Forall_cons in IH as [IH _]. simpl in Hd.
      apply orb_false_elim in Hd as [Hd _].
      match type of Hw with walk _ _ ?t = _ =>
        destruct (IH Hd t _ _ Hp1 Hw) as [Hp3 Hget3] end.
      simpl in *. split; [done|congruence].
  - apply bind_Some in H as (m & _ & H). destruct (m =? CMap.NULL); [done|].
    by injection H as _ <-.
  - apply bind_Some in H as (s1 & Hloop & H). injection H as _ <-.
    revert s Hp Hloop Hd. induction IH as [|n rest Hn _ IHrest]; intros s Hp Hloop Hd.
    + by injection Hloop as <-.
    + apply bind_Some in Hloop as ([r1 s2] & Hw & Hloop). simpl in Hd.
      apply orb_false_elim in Hd as [Hd1 Hd2].
      destruct (Hn Hd1 _ _ _ Hp Hw) as [Hp2 Hg2].
      destruct (IHrest s2 Hp2 Hloop Hd2) as [Hp' Hg']. split; [done|congruence].
  - apply bind_Some in H as ([v s1] & Hw & H). injection H as _ <-.
    by apply (IH Hd _ _ _ Hp Hw).
  - by eapply IH.
  - apply orb_false_elim in Hd as [Hdl Hdr].
    apply bind_Some in H as ([lhs s2] & Hl & H).
    apply bind_Some in H as ([rhs s3] & Hr & H). injection H as _ <-.
    match type of Hl with walk _ _ ?t = _ =>
      destruct (IHl Hdl t _ _ Hp Hl) as [Hp2 Hg2] end.
    destruct (IHr Hdr _ _ _ Hp2 Hr) as [Hp3 Hg3]. simpl in *. split; [done|congruence].
  - apply orb_false_elim in Hd as [Hdl Hdr].
    apply bind_Some in H as ([lhs s2] & Hl & H).
    apply bind_Some in H as ([rhs s3] & Hr & H). injection H as _ <-.
    match type of Hl with walk _ _ ?t = _ =>
      destruct (IHl Hdl t _ _ Hp Hl) as [Hp2 Hg2] end.
    destruct (IHr Hdr _ _ _ Hp2 Hr) as [Hp3 Hg3]. simpl in *. split; [done|congruence].
  - destruct k; [|done]. by injection H as _ <-.
Qed.

(** [walk] only adds to [mems]. *)
Lemma walk_mems_prefix (uninit : Z -> Z * bool) (node : Node) (s s' : State)
    (r : option Var) :
  walk uninit node s = Some (r, s') -> exists l, mems s' = mems s ++ l.
Proof.
  apply (walk_preserves uninit (λ t, exists l, mems t = mems s ++ l)).
  - intros t size name lv [l Hl] _ _. simpl. rewrite Hl.
    eexists. by rewrite <- app_assoc.
  - intros t [l Hl]. by exists l.
  - intros t i [l Hl]. by exists l.
  - exists []. by rewrite app_nil_r.
Qed.

(** X16.  A reference resolves to the declaration that precedes it.  Let
    [lvars] be a table that was only put to, as it is during
    translation.  After [walk] has translated a declaration of [x], and
    then any tree that does not declare [x] again, [walk] on a reference
    to [x] returns a new [VAR], the only cell it adds to [vars], with
    the next id, and adds to [insts] one instruction and no more: the
    [LOAD] of that [VAR] from the [Mem] the declaration allocated; it
    changes nothing else.  That [Mem] is still where [alloc] put it on
    [mems], with the size of the declared type, at least eight, and the
    offset [make_mem] computed from the frame offset before the
    declaration. *)
Theorem reference_resolves (uninit : Z -> Z * bool) (x : string) (ty_size : Z)
    (declinit : list Node) (rest : Node) (s s1 s2 : State) (r1 r2 : option Var) :
  puts_only (lvars s) ->
  walk uninit (AST_DECL ty_size x declinit) s = Some (r1, s1) ->
  existsb (declares x) declinit = false -> declares x rest = false ->
  walk uninit rest s1 = Some (r2, s2) ->
  exists s3,
    walk uninit (AST_LVAR x) s2 = Some (Some (VarAt (length (vars s2))), s3)
    /\ vars s3
       = vars s2 ++ [mkVar (next_id s2) (uninit (next_id s2)).1 (uninit (next_id s2)).2]
    /\ insts s3
       = insts s2 ++ [mkInst LOAD (AVar (VarAt (length (vars s2))))
                        (AMem (length (mems s))) ANull 0]
    /\ next_id s3 = next_id s2 + 1
    /\ mems s3 = mems s2 /\ lvars s3 = lvars s2 /\ offset s3 = offset s2
    /\ out s3 = out s2 /\ reg2var s3 = reg2var s2
    /\ mems s2 !! length (mems s)
       = Some (mkMem (wrap_int (- wrap_int (offset s + Z.max ty_size 8)))
                 (Z.max ty_size 8)).
Proof.
  intros Hp Hdecl Hinit Hrest Hwalk.
  set (m := mkMem (wrap_int (- wrap_int (offset s + Z.max ty_size 8))) (Z.max ty_size 8)).
  assert (puts_only (lvars s1)
          /\ CMap.map_get (lvars s1) x = Some (mem_ptr (length (mems s)))
          /\ mems s1 !! length (mems s) = Some m)
    as (Hp1 & Hget1 & Hmem1).
  { simpl in Hdecl. apply bind_Some in Hdecl as (lv & Hput & Hdecl).
    destruct (puts_only_put _ _ _ _ Hp Hput) as (Hpl & Hgl & _ & _).
    assert (CMap.map_get lv x = Some (mem_ptr (length (mems s)))) as Hgl'.
    { rewrite map_get_unfold, Hgl. simpl. unfold mem_ptr, CMap.NULL.
      assert ((Z.of_nat (length (mems s)) + 1 =? 0) = false) as ->
        by (apply Z.eqb_neq; lia).
      done. }
    assert ((mems s ++ [m]) !! length (mems s) = Some m) as Hm.
    { by rewrite lookup_app_r, Nat.sub_diag by lia. }
    destruct declinit as [|init more].
    - injection Hdecl as _ <-. split; [done|]. split; [done|]. exact Hm.
    - apply bind_Some in Hdecl as ([rhs s3] & Hw & Hdecl). injection Hdecl as _ <-.
      simpl in Hinit. apply orb_false_elim in Hinit as [Hinit _].
      match type of Hw with walk _ _ ?t = _ =>
        destruct (walk_keeps_lookup uninit x init Hinit t _ _ Hpl Hw) as [Hp3 Hg3] end.
      destruct (walk_mems_prefix uninit init _ _ _ Hw) as [l Hl].
      simpl in *. split; [done|]. split; [congruence|].
      rewrite Hl. apply lookup_app_l_Some. exact Hm. }
  destruct (walk_keeps_lookup uninit x rest Hrest _ _ _ Hp1 Hwalk) as [_ Hget2].
  destruct (walk_mems_prefix uninit rest _ _ _ Hwalk) as [l Hl].
  eexists. split.
  { simpl. rewrite Hget2, Hget1. simpl. unfold mem_ptr, CMap.NULL.
    assert ((Z.of_nat (length (mems s)) + 1 =? 0) = false) as ->
      by (apply Z.eqb_neq; lia).
    replace (Z.to_nat (Z.of_nat (length (mems s)) + 1 - 1)) with (length (mems s)) by lia.
    done. }
  simpl. do 8 (split; [done|]). rewrite Hl. by apply lookup_app_l_Some.
Qed.

Lemma reference_resolves_witness :
  exists r1 s1 r2 s2 s3,
    walk zeroed (AST_DECL 4 "a" [AST_LITERAL true 1]) init_state = Some (r1, s1)
    /\ walk zeroed (AST_DECL 4 "b" [AST_LITERAL true 2]) s1 = Some (r2, s2)
    /\ walk zeroed (AST_LVAR "a") s2 = Some (Some (VarAt 0), s3)
    /\ vars s3 = [mkVar 1 0 false]
    /\ insts s3
       = insts s2 ++ [mkInst LOAD (AVar (VarAt 0)) (AMem 0) ANull 0]
    /\ mems s2 !! 0%nat = Some (mkMem (-8) 8).
Proof.
  do 4 eexists.
  match goal with |- exists s3, ?a = Some (?r1, ?s1) /\ ?b = Some (?r2, ?s2) /\ _ =>
    assert (a = Some (r1, s1)) as H1 by (vm_compute; reflexivity);
    assert (b = Some (r2, s2)) as H2 by (vm_compute; reflexivity);
    destruct (reference_resolves zeroed "a" 4 [AST_LITERAL true 1]
                (AST_DECL 4 "b" [AST_LITERAL true 2]) init_state s1 s2 r1 r2)
      as (s3 & Hw & Hv & Hi & _ & _ & _ & _ & _ & _ & Hm)
  end.
  - exists EMPTY_MAP, []. split; [apply fresh_empty|]. split; [constructor|reflexivity].
  - exact H1.
  - reflexivity.
  - reflexivity.
  - exact H2.
  - exists s3. split; [exact H1|]. split; [exact H2|]. split; [exact Hw|].
    split; [exact Hv|]. split; [exact Hi|exact Hm].
Defined.

(** X17.  A reference to a name that was not declared stops the
    translation.  Let [lvars] be a table that was only put to, in which
    a lookup of [x] misses.  If among the nodes [walk] visits in a tree
    there is a reference to [x], and the tree has no declaration of [x],
    then [walk] does not return: the [assert] on the result of
    [map_get] fails, unless something else stopped the translation
    before. *)
Theorem undeclared_reference_fails (uninit : Z -> Z * bool) (x : string) (node : Node) :
  declares x node = false -> references x node = true ->
  forall s : State,
    puts_only (lvars s) -> CMap.map_get (lvars s) x = Some CMap.NULL ->
    walk uninit node s = None.
Proof.
  induction node as [fname body IH|ty_size varname declinit IH|varname|stmts IH
                    |retval IH|operand IH|l r IHl IHr|l r IHl IHr|k i|]
    using Node_nested_ind; intros Hd Hr s Hp Hmiss; simpl in Hd, Hr; try done.
  - destruct declinit as [|init more]; [done|]. simpl in Hd.
    apply orb_false_elim in Hd as [Hne Hd]. apply orb_false_elim in Hd as [Hd _].
    apply String.eqb_neq in Hne. apply Forall_cons in IH as [IH _].
    simpl. destruct (CMap.map_put (lvars s) varname (mem_ptr (length (mems s))))
      as [lv|] eqn:Hput; [|done].
    destruct (puts_only_put _ _ _ _ Hp Hput) as (Hp1 & _ & _ & Hget).
    specialize (Hget x ltac:(congruence)). simpl.
    match goal with |- context [walk uninit init ?t] =>
      rewrite (IH Hd Hr t Hp1 ltac:(simpl; congruence)) end.
    done.
  - apply String.eqb_eq in Hr. subst varname. simpl. by rewrite Hmiss.
  - simpl.
    assert ((fix loop (body : list Node) (s0 : State) {struct body} : option State :=
               match body with
               | [] => Some s0
               | n :: body' => walk uninit n s0 ≫= λ '(_, s1), loop body' s1
               end) stmts s = None) as ->; [|done].
    revert s Hp Hmiss Hd Hr.
    induction IH as [|n rest Hn _ IHrest]; intros s Hp Hmiss Hd Hr; [done|].
    simpl in Hd, Hr. apply orb_false_elim in Hd as [Hd1 Hd2].
    destruct (walk uninit n s) as [[r1 s1]|] eqn:Hw; [|done]. simpl.
    destruct (walk_keeps_lookup uninit x n Hd1 _ _ _ Hp Hw) as [Hp1 Hg1].
    apply orb_true_elim in Hr as [Hr|Hr].
    + by rewrite (Hn Hd1 Hr s Hp Hmiss) in Hw.
    + apply IHrest; [done|congruence|done|done].
  - simpl. by rewrite (IH Hd Hr s Hp Hmiss).
  - simpl. by apply IH.
  - apply orb_false_elim in Hd as [Hdl Hdr]. simpl.
    match goal with |- context [walk uninit l ?t] =>
      destruct (walk uninit l t) as [[lhs s2]|] eqn:Hl; [|done] end.
    simpl.
    match type of Hl with walk _ _ ?t = _ =>
      destruct (walk_keeps_lookup uninit x l Hdl t _ _ Hp Hl) as [Hp2 Hg2];
      pose proof (IHl Hdl) as IHl'; specialize (fun H => IHl' H t Hp Hmiss)
    end.
    apply orb_true_elim in Hr as [Hr|Hr].
    + by rewrite (IHl' Hr) in Hl.
    + rewrite (IHr Hdr Hr s2 Hp2); [done|]. simpl in Hg2. congruence.
  - apply orb_false_elim in Hd as [Hdl Hdr]. simpl.
    match goal with |- context [walk uninit l ?t] =>
      destruct (walk uninit l t) as [[lhs s2]|] eqn:Hl; [|done] end.
    simpl.
    match type of Hl with walk _ _ ?t = _ =>
      destruct (walk_keeps_lookup uninit x l Hdl t _ _ Hp Hl) as [Hp2 Hg2];
      pose proof (IHl Hdl) as IHl'; specialize (fun H => IHl' H t Hp Hmiss)
    end.
    apply orb_true_elim in Hr as [Hr|Hr].
    + by rewrite (IHl' Hr) in Hl.
    + rewrite (IHr Hdr Hr s2 Hp2); [done|]. simpl in Hg2. congruence.
Qed.

Lemma undeclared_reference_fails_witness :
  puts_only (lvars init_state) /\ CMap.map_get (lvars init_state) "b" = Some CMap.NULL
  /\ walk zeroed
       (AST_COMPOUND_STMT [AST_DECL 4 "a" [AST_LITERAL true 1];
                           AST_RETURN (AST_ADD (AST_LVAR "a") (AST_LVAR "b"))])
       init_state = None.
Proof.
  assert (puts_only (lvars init_state)) as Hp.
  { exists EMPTY_MAP, []. split; [apply fresh_empty|]. split; [constructor|reflexivity]. }
  split; [exact Hp|]. split; [reflexivity|].
  apply (undeclared_reference_fails zeroed "b"); [reflexivity|reflexivity|exact Hp|reflexivity].
Defined.

(** ** codegen.c: functions with at most six values *)

Lemma arg_ok_mono (n n' : nat) (a : arg) : (n <= n')%nat -> arg_ok n a -> arg_ok n' a.
Proof. intros Hn. destruct a as [| |[v|]]; simpl; try done. lia. Qed.

Lemma inst_ok_mono (n n' : nat) (i : Inst) : (n <= n')%nat -> inst_ok n i -> inst_ok n' i.
Proof. intros Hn (H1 & H2 & H3). repeat split; by eapply arg_ok_mono. Qed.

(** The instructions [walk] emits name no [VAR] but those on [vars]. *)
Lemma walk_insts_ok (uninit : Z -> Z * bool) (node : Node) :
  forall (s s' : State) (r : option Var),
    Forall (inst_ok (length (vars s))) (insts s) ->
    walk uninit node s = Some (r, s') ->
    Forall (inst_ok (length (vars s'))) (insts s')
    /\ arg_ok (length (vars s')) (var_arg r)
    /\ (length (vars s) <= length (vars s'))%nat.
Proof.
  induction node as [fname body IH|ty_size varname declinit IH|varname|stmts IH
                    |retval IH|operand IH|l r IHl IHr|l r IHl IHr|k i|]
    using Node_nested_ind; intros s s' res Hok H; simpl in H; try done.
  - apply bind_Some in H as (lv & _ & H). destruct declinit as [|init rest].
    + by injection H as <- <-.
    + apply bind_Some in H as ([rhs s3] & Hw & H). injection H as <- <-.
      apply Forall_cons in IH as [IH _].
      match type of Hw with walk _ _ ?t = _ =>
        destruct (IH t _ _ Hok Hw) as (Hok3 & Hr3 & Hlen3) end.
      simpl in *. split; [|done]. apply Forall_app. split; [done|].
      by repeat constructor.
  - apply bind_Some in H as (m & _ & H). destruct (m =? CMap.NULL); [done|].
    injection H as <- <-. simpl. rewrite length_app. simpl. split; [|split; [lia|lia]].
    apply Forall_app. split.
    + eapply Forall_impl; [exact Hok|]. intros i. apply inst_ok_mono. lia.
    + repeat constructor; simpl; lia.
  - apply bind_Some in H as (s1 & Hloop & H). injection H as <- <-.
    revert s Hok Hloop. induction IH as [|n rest Hn _ IHrest]; intros s Hok Hloop.
    + by injection Hloop as <-.
    + apply bind_Some in Hloop as ([r1 s2] & Hw & Hloop).
      destruct (Hn _ _ _ Hok Hw) as (Hok2 & _ & Hlen2).
      destruct (IHrest s2 Hok2 Hloop) as (Hok' & _ & Hlen'). repeat split; [done|lia].
  - apply bind_Some in H as ([v s1] & Hw & H). injection H as <- <-.
    destruct (IH _ _ _ Hok Hw) as (Hok1 & Hr1 & Hlen1). simpl. split; [|done].
    apply Forall_app. split; [done|]. by repeat constructor.
  - by eapply IH.
  - apply bind_Some in H as ([lhs s2] & Hl & H).
    apply bind_Some in H as ([rhs s3] & Hr & H). injection H as <- <-.
    match type of Hl with walk _ _ ?t = _ =>
      destruct (IHl t _ _ ltac:(simpl; rewrite length_app;
                  eapply Forall_impl; [exact Hok|]; intros i; apply inst_ok_mono; lia) Hl)
        as (Hok2 & Hr2 & Hlen2) end.
    destruct (IHr _ _ _ Hok2 Hr) as (Hok3 & Hr3 & Hlen3).
    simpl in *. rewrite length_app in Hlen2. simpl in Hlen2.
    split; [|split; [lia|lia]]. apply Forall_app. split; [done|].
    repeat constructor; simpl; [lia| |done]. eapply arg_ok_mono; [exact Hlen3|done].
  - apply bind_Some in H as ([lhs s2] & Hl & H).
    apply bind_Some in H as ([rhs s3] & Hr & H). injection H as <- <-.
    match type of Hl with walk _ _ ?t = _ =>
      destruct (IHl t _ _ ltac:(simpl; rewrite length_app;
                  eapply Forall_impl; [exact Hok|]; intros i; apply inst_ok_mono; lia) Hl)
        as (Hok2 & Hr2 & Hlen2) end.
    destruct (IHr _ _ _ Hok2 Hr) as (Hok3 & Hr3 & Hlen3).
    simpl in *. rewrite length_app in Hlen2. simpl in Hlen2.
    split; [|split; [lia|lia]]. apply Forall_app. split; [done|].
    repeat constructor; simpl; [lia| |done]. eapply arg_ok_mono; [exact Hlen3|done].
  - destruct k; [|done]. by injection H as <- <-.
Qed.

Lemma walk_reg2var (uninit : Z -> Z * bool) (node : Node) (s s' : State) (r : option Var) :
  walk uninit node s = Some (r, s') -> reg2var s' = reg2var s.
Proof. by apply (walk_preserves uninit (λ t, reg2var t = reg2var s)). Qed.

(** On [vars] of at most six cells the cache never evicts. *)
Lemma regname_no_evict (s : State) (l : list (nat * string)) (v : nat) :
  reg2var s = slots_of l -> cache_inv (length (vars s)) l ->
  (v < length (vars s))%nat -> (length (vars s) <= NUMREGS)%nat ->
  exists reg l',
    regname v s = Some (Some reg, set_reg2var (slots_of l') s)
    /\ cache_inv (length (vars s)) l'.
Proof.
  intros Hslots Hinv Hv Hsix.
  destruct (regname_step s l v Hslots Hinv Hv)
    as (reg & l' & _ & Hinv' & _ & _ & [[Hrun _]|Hevict]); [by exists reg, l'|].
  exfalso. destruct Hevict as (l0 & w & wc & c & -> & Hl0 & Hnew & _).
  destruct Hinv as (Hnd & Hsub & _).
  assert (v :: (l0 ++ [(w, reg)]).*1 ⊆+ seq 0 (length (vars s))) as Hle.
  { apply NoDup_submseteq; [by apply NoDup_cons|].
    intros x [->|Hx]%elem_of_cons; apply elem_of_seq; [lia|]. apply Hsub in Hx. lia. }
  apply submseteq_length in Hle. simpl in Hle.
  rewrite length_fmap, length_app, length_seq in Hle. simpl in Hle.
  unfold NUMREGS in *. lia.
Qed.

Lemma quiet_write (s s' : State) (k : nat) (line : string) :
  quiet s s' k -> quiet s (write line s') (S k).
Proof.
  intros (Hv & Hm & Ho & Hc). repeat split; try done.
  simpl. rewrite length_app. simpl. lia.
Qed.

Section Quiet.
Variable n : nat.
Hypothesis Hsix : (n <= NUMREGS)%nat.

Lemma str_quiet (a : arg) (s0 s s' : State) (k : nat) (x : string) :
  length (vars s0) = n -> quiet s0 s k -> arg_ok n a ->
  str a s = Some (x, s') -> quiet s0 s' k.
Proof.
  intros Hn (Hv & Hm & Ho & l & Hslots & Hinv) Ha H.
  destruct a as [| |[v|val]]; simpl in H; try done.
  - apply bind_Some in H as ([r s1] & Hreg & H). injection H as _ <-.
    simpl in Ha. rewrite <- Hn, <- Hv in Ha, Hsix.
    destruct (regname_no_evict s l v Hslots Hinv Ha Hsix) as (reg & l' & Hrun & Hinv').
    rewrite Hrun in Hreg. injection Hreg as _ <-.
    repeat split; try done. by exists l'.
  - injection H as _ <-. repeat split; try done. by exists l.
Qed.

Lemma str2_quiet (ltr : bool) (a b : arg) (s0 s s' : State) (k : nat) (x y : string) :
  length (vars s0) = n -> quiet s0 s k -> arg_ok n a -> arg_ok n b ->
  str2 ltr a b s = Some (x, y, s') -> quiet s0 s' k.
Proof.
  intros Hn Hq Ha Hb H. unfold str2 in H. destruct ltr.
  - apply bind_Some in H as ([x1 s1] & E1 & H). apply bind_Some in H as ([y1 s2] & E2 & H).
    injection H as _ _ <-.
    exact (str_quiet b s0 s1 s2 k y1 Hn (str_quiet a s0 s s1 k x1 Hn Hq Ha E1) Hb E2).
  - apply bind_Some in H as ([y1 s1] & E1 & H). apply bind_Some in H as ([x1 s2] & E2 & H).
    injection H as _ _ <-.
    exact (str_quiet a s0 s1 s2 k x1 Hn (str_quiet b s0 s s1 k y1 Hn Hq Hb E1) Ha E2).
Qed.

Lemma arith_quiet (ltr : bool) (mnemonic : string) (i : Inst) (s0 s s' : State) (k : nat) :
  length (vars s0) = n -> quiet s0 s k -> inst_ok n i ->
  ('(x, y, s1) ← str2 ltr (arg2 i) (arg1 i) s;
   let s2 := write ("movq " +:+ x +:+ ", " +:+ y) s1 in
   '(x', y', s3) ← str2 ltr (arg3 i) (arg1 i) s2;
   Some (write (mnemonic +:+ x' +:+ ", " +:+ y') s3)) = Some s' ->
  quiet s0 s' (S (S k)).
Proof.
  intros Hn Hq (H1 & H2 & H3) H. apply bind_Some in H as ([[x y] s1] & E1 & H).
  apply bind_Some in H as ([[x' y'] s3] & E2 & H). injection H as <-.
  apply quiet_write.
  refine (str2_quiet ltr _ _ s0 _ s3 _ x' y' Hn _ H3 H1 E2).
  apply quiet_write. exact (str2_quiet ltr _ _ s0 s s1 k x y Hn Hq H2 H1 E1).
Qed.

Lemma print_inst_quiet (ltr : bool) (i : Inst) (s0 s s' : State) (k : nat) :
  length (vars s0) = n -> quiet s0 s k -> inst_ok n i ->
  print_inst ltr i s = Some s' -> quiet s0 s' (k + inst_lines i).
Proof.
  intros Hn Hq Hi H. pose proof Hi as (H1 & H2 & H3).
  unfold print_inst in H. unfold inst_lines. destruct (kind i); try done.
  - replace (k + 2)%nat with (S (S k)) by lia. by eapply (arith_quiet ltr "addq ").
  - replace (k + 2)%nat with (S (S k)) by lia. by eapply (arith_quiet ltr "imulq ").
  - apply bind_Some in H as ([x s1] & E & H). injection H as <-.
    replace (k + 2)%nat with (S (S k)) by lia.
    do 2 apply quiet_write. exact (str_quiet _ s0 s s1 k x Hn Hq H1 E).
  - destruct (arg2 i); try done.
    apply bind_Some in H as (rhs & _ & H). apply bind_Some in H as ([x s1] & E & H).
    injection H as <-. replace (k + 1)%nat with (S k) by lia.
    apply quiet_write. exact (str_quiet _ s0 s s1 k x Hn Hq H1 E).
  - destruct (arg1 i); try done.
    apply bind_Some in H as (lhs & _ & H). apply bind_Some in H as ([x s1] & E & H).
    injection H as <-. replace (k + 1)%nat with (S k) by lia.
    apply quiet_write. exact (str_quiet _ s0 s s1 k x Hn Hq H2 E).
Qed.

Lemma print_insts_quiet (ltr : bool) (l : list Inst) (s0 : State) :
  length (vars s0) = n -> Forall (inst_ok n) l ->
  forall (s s' : State) (k : nat),
    quiet s0 s k -> print_insts ltr l s = Some s' ->
    quiet s0 s' (k + sum_list (inst_lines <$> l)).
Proof.
  intros Hn. induction 1 as [|i l Hi _ IH]; intros s s' k Hq H; simpl in H.
  - injection H as <-. simpl. by rewrite Nat.add_0_r.
  - apply bind_Some in H as (s1 & E & H). simpl.
    rewrite Nat.add_assoc. eapply IH; [|exact H]. by eapply print_inst_quiet.
Qed.
End Quiet.

(** X18.  Six values fit the registers.  When the function translated
    has at most six [VAR]s, compiling it never spills: every cell of
    [vars] is as [regalloc] left it, none marked spilled by the emitter,
    and between the six lines of the prologue and the four lines of the
    epilogue the output has exactly the lines of the instructions, two
    for each [ADD], [MUL] and [RET] and one for each [LOAD] and
    [STORE]. *)
Theorem no_spill_up_to_six (ltr : bool) (uninit : Z -> Z * bool) (toplevels : list Node)
    (f : Func) (s s' : State) :
  translate uninit toplevels init_state = Some (f, s) ->
  (length (vars s) <= NUMREGS)%nat ->
  compile ltr f s = Some s' ->
  vars s' = vars (regalloc s)
  /\ length (out s') = (6 + sum_list (inst_lines <$> f_insts f) + 4)%nat.
Proof.
  intros Ht Hsix Hc. unfold translate in Ht.
  destruct toplevels as [|[fname body| | | | | | | | |] [|]]; try done.
  apply bind_Some in Ht as ([r s1] & Hw & Ht). injection Ht as <- <-.
  pose proof (walk_insts_ok uninit body init_state s1 r ltac:(constructor) Hw)
    as (Hok & _ & _).
  pose proof (walk_reg2var uninit body _ _ _ Hw) as Hreg.
  pose proof (walk_frame_kept uninit body _ _ _ Hw) as [_ Hout].
  unfold compile in Hc. apply bind_Some in Hc as (s2 & Hprint & Hc). injection Hc as <-.
  set (f := mkFunc fname (insts s1)) in *.
  destruct (compile_head_frame f s1) as (Hm0 & Hv0 & _).
  assert (length (vars (compile_head f s1)) = length (vars s1)) as Hlen.
  { rewrite Hv0. apply regalloc_loop_length. }
  assert (vars (compile_head f s1) = vars (regalloc s1)) as Hvr.
  { rewrite Hv0. unfold regalloc. by destruct (regalloc_loop (vars s1) (offset s1)). }
  assert (quiet (compile_head f s1) (compile_head f s1) 0) as Hq.
  { repeat split; [lia|]. exists []. split; [|apply cache_inv_nil].
    unfold compile_head, regalloc. destruct (regalloc_loop (vars s1) (offset s1)).
    simpl. by rewrite Hreg. }
  destruct (print_insts_quiet (length (vars s1)) Hsix ltr (insts s1) (compile_head f s1)
              Hlen Hok _ _ _ Hq Hprint) as (Hv & _ & Ho & _).
  split.
  - simpl. by rewrite Hv.
  - unfold compile_tail, write. simpl. rewrite !length_app. simpl. rewrite Ho.
    unfold compile_head, write, write_noindent, regalloc.
    destruct (regalloc_loop (vars s1) (offset s1)). simpl. rewrite !length_app. simpl.
    rewrite Hout. simpl. lia.
Qed.

Lemma no_spill_up_to_six_witness :
  exists f s s',
    translate zeroed add_two init_state = Some (f, s)
    /\ (length (vars s) <= NUMREGS)%nat
    /\ compile true f s = Some s'
    /\ vars s' = vars (regalloc s)
    /\ length (out s') = (6 + sum_list (inst_lines <$> f_insts f) + 4)%nat.
Proof.
  do 3 eexists. split; [vm_compute; reflexivity|].
  match goal with |- (?a <= ?b)%nat /\ _ =>
    assert (a <= b)%nat as Hsix by (vm_compute; lia) end.
  split; [exact Hsix|]. split; [vm_compute; reflexivity|].
  eapply (no_spill_up_to_six true zeroed add_two);
    [vm_compute; reflexivity|exact Hsix|vm_compute; reflexivity].
Defined.

(** The emitter changes neither [mems] nor the number of cells on
    [vars]. *)
Lemma regname_frame (v : nat) (s s' : State) (r : option string) :
  regname v s = Some (r, s') -> mems s' = mems s /\ length (vars s') = length (vars s).
Proof.
  unfold regname. intros H.
  apply bind_Some in H as (cached & _ & H). destruct cached as [i|].
  { apply bind_Some in H as (r1 & _ & H). apply bind_Some in H as (x & _ & H).
    by injection H as _ <-. }
  apply bind_Some in H as (empty & _ & H). destruct empty as [i|].
  { apply bind_Some in H as (reg & _ & H). apply bind_Some in H as (r1 & _ & H).
    by injection H as _ <-. }
  apply bind_Some in H as (last & _ & H). apply bind_Some in H as (lv & _ & H).
  apply bind_Some in H as (lc & _ & H). apply bind_Some in H as (c & _ & H).
  apply bind_Some in H as (r1 & _ & H). injection H as _ <-.
  destruct (v_spilled c); simpl; by rewrite length_insert.
Qed.

Lemma str_frame (a : arg) (s s' : State) (x : string) :
  str a s = Some (x, s') -> mems s' = mems s /\ length (vars s') = length (vars s).
Proof.
  destruct a as [| |[v|val]]; simpl; intros H; try done.
  - apply bind_Some in H as ([r s1] & E & H). injection H as _ <-.
    by eapply regname_frame.
  - by injection H as _ <-.
Qed.

Lemma str2_frame (ltr : bool) (a b : arg) (s s' : State) (x y : string) :
  str2 ltr a b s = Some (x, y, s') ->
  mems s' = mems s /\ length (vars s') = length (vars s).
Proof.
  unfold str2. intros H. destruct ltr.
  - apply bind_Some in H as ([x1 s1] & E1 & H). apply bind_Some in H as ([y1 s2] & E2 & H).
    injection H as _ _ <-. apply str_frame in E1 as [<- <-]. by eapply str_frame.
  - apply bind_Some in H as ([y1 s1] & E1 & H). apply bind_Some in H as ([x1 s2] & E2 & H).
    injection H as _ _ <-. apply str_frame in E1 as [<- <-]. by eapply str_frame.
Qed.

Lemma print_inst_frame (ltr : bool) (i : Inst) (s s' : State) :
  print_inst ltr i s = Some s' -> mems s' = mems s /\ length (vars s') = length (vars s).
Proof.
  unfold print_inst. destruct (kind i); intros H; try done.
  - apply bind_Some in H as ([[x y] s1] & E1 & H).
    apply bind_Some in H as ([[x' y'] s3] & E2 & H). injection H as <-.
    apply str2_frame in E1 as [<- <-]. apply str2_frame in E2 as [E2 E3]. by simpl in *.
  - apply bind_Some in H as ([[x y] s1] & E1 & H).
    apply bind_Some in H as ([[x' y'] s3] & E2 & H). injection H as <-.
    apply str2_frame in E1 as [<- <-]. apply str2_frame in E2 as [E2 E3]. by simpl in *.
  - apply bind_Some in H as ([x s1] & E & H). injection H as <-.
    by apply str_frame in E as [<- <-].
  - destruct (arg2 i); try done.
    apply bind_Some in H as (rhs & _ & H). apply bind_Some in H as ([x s1] & E & H).
    injection H as <-. by apply str_frame in E as [<- <-].
  - destruct (arg1 i); try done.
    apply bind_Some in H as (lhs & _ & H). apply bind_Some in H as ([x s1] & E & H).
    injection H as <-. by apply str_frame in E as [<- <-].
Qed.

(** X19.  The shape of the output.  Whenever [codegen] returns for a
    translation unit, started from the initial state, the unit is one
    function and the output is, in this order: [.text], [.globl] and
    the label of the function, unindented; [push], [mov] and the [sub]
    that reserves the frame; the lines of the body, all indented;
    [end:], the [add] that releases as many bytes as the [sub]
    reserved, [popq] and [ret], indented.  The operand of the [sub] and
    of the [add] is the frame offset, an [int]: the sizes of the [Mem]s
    made and eight for every [VAR] made, added up as [int]s. *)
Theorem codegen_output_shape (ltr : bool) (uninit : Z -> Z * bool)
    (toplevels : list Node) (s' : State) :
  codegen ltr uninit toplevels init_state = Some s' ->
  exists (fname : string) (fbody : Node) (N : Z) (body : list string),
    toplevels = [AST_FUNC fname fbody]
    /\ N = wrap_int (sum_sizes (mems s') + 8 * Z.of_nat (length (vars s')))
    /\ Forall indented body
    /\ out s'
       = [".text"; ".globl " +:+ fname; fname +:+ ":";
          "    push %rbp"; "    mov %rsp, %rbp";
          "    sub $" +:+ dec N +:+ ", %rsp"]
         ++ body
         ++ ["    end:"; "    add $" +:+ dec N +:+ ", %rsp"; "    popq %rbp"; "    ret"].
Proof.
  intros H. unfold codegen in H. apply bind_Some in H as ([f s] & Ht & Hc).
  destruct (translate_offset uninit toplevels f s Ht) as (Ho & _ & Hout).
  assert (mems s' = mems s /\ length (vars s') = length (vars s)) as [Hm Hv].
  { unfold compile in Hc. apply bind_Some in Hc as (s1 & Hprint & Hc). injection Hc as <-.
    unfold print in Hprint. simpl.
    assert (forall l t t', print_insts ltr l t = Some t' ->
              mems t' = mems t /\ length (vars t') = length (vars t)) as Hkeep.
    { clear. induction l as [|i l IH]; intros t t' H; simpl in H.
      - by injection H as <-.
      - apply bind_Some in H as (t1 & Hi & H). apply IH in H as [-> ->].
        clear IH. revert Hi. apply print_inst_frame. }
    apply Hkeep in Hprint as [-> ->].
    destruct (compile_head_frame f s) as (-> & -> & _).
    by rewrite regalloc_loop_length. }
  unfold translate in Ht.
  destruct toplevels as [|[fname fbody| | | | | | | | |] [|]]; try done.
  apply bind_Some in Ht as ([r s1] & Hw & Ht). injection Ht as <- <-.
  apply compile_structure in Hc as (body & Hind & Hc). simpl in Hc.
  rewrite Hout in Hc. simpl in Hc.
  exists fname, fbody, (offset (regalloc s1)), body.
  split; [done|]. split; [by rewrite Hm, Hv|]. split; done.
Qed.

Lemma codegen_output_shape_witness :
  exists s',
    codegen true zeroed seven_values init_state = Some s'
    /\ exists (fname : string) (fbody : Node) (N : Z) (body : list string),
         seven_values = [AST_FUNC fname fbody]
         /\ N = wrap_int (sum_sizes (mems s') + 8 * Z.of_nat (length (vars s')))
         /\ Forall indented body
         /\ out s'
            = [".text"; ".globl " +:+ fname; fname +:+ ":";
               "    push %rbp"; "    mov %rsp, %rbp";
               "    sub $" +:+ dec N +:+ ", %rsp"]
              ++ body
              ++ ["    end:"; "    add $" +:+ dec N +:+ ", %rsp"; "    popq %rbp"; "    ret"].
Proof.
  eexists. split; [vm_compute; reflexivity|].
  eapply (codegen_output_shape true zeroed seven_values). vm_compute; reflexivity.
Defined.

(** ** codegen.c: the translation returns *)

Lemma val_arg_mono (n n' : nat) (a : arg) : (n <= n')%nat -> val_arg n a -> val_arg n' a.
Proof. intros Hn. destruct a as [| |[v|]]; simpl; try done. lia. Qed.

Lemma mem_arg_mono (n n' : nat) (a : arg) : (n <= n')%nat -> mem_arg n a -> mem_arg n' a.
Proof. intros Hn. destruct a as [|m|]; simpl; try done. lia. Qed.

Lemma printable_mono (nv nv' nm nm' : nat) (i : Inst) :
  (nv <= nv')%nat -> (nm <= nm')%nat -> printable nv nm i -> printable nv' nm' i.
Proof.
  intros Hv Hm. unfold printable. destruct (kind i); try done.
  - intros (? & ? & ?). repeat split; by eapply val_arg_mono.
  - intros (? & ? & ?). repeat split; by eapply val_arg_mono.
  - by apply val_arg_mono.
  - intros (? & ?). split; [by eapply val_arg_mono|by eapply mem_arg_mono].
  - intros (? & ?). split; [by eapply mem_arg_mono|by eapply val_arg_mono].
Qed.

Lemma printable_all_mono (nv nv' nm nm' : nat) (l : list Inst) :
  (nv <= nv')%nat -> (nm <= nm')%nat ->
  Forall (printable nv nm) l -> Forall (printable nv' nm') l.
Proof.
  intros Hv Hm H. eapply Forall_impl; [exact H|]. intros i. by apply printable_mono.
Qed.

(** [walk] returns a value for an expression, changes neither [lvars]
    nor [mems], and emits instructions that can be printed. *)
Lemma walk_expr (uninit : Z -> Z * bool) (env : list string) (node : Node) :
  is_expr env node = true ->
  forall s : State,
    scope_ok env s ->
    Forall (printable (length (vars s)) (length (mems s))) (insts s) ->
    exists (v : Var) (s' : State),
      walk uninit node s = Some (Some v, s')
      /\ val_arg (length (vars s')) (AVar v)
      /\ Forall (printable (length (vars s')) (length (mems s'))) (insts s')
      /\ lvars s' = lvars s /\ mems s' = mems s
      /\ (length (vars s) <= length (vars s'))%nat.
Proof.
  induction node as [fname body IH|ty_size varname declinit IH|varname|stmts IH
                    |retval IH|operand IH|l r IHl IHr|l r IHl IHr|k i|]
    using Node_nested_ind; intros He s Hsc Hpr; simpl in He; try done.
  - apply bool_decide_eq_true in He. destruct Hsc as [_ Hsc].
    destruct (Hsc varname He) as (a & Hget & Ha).
    eexists _, _. simpl. rewrite Hget. simpl. unfold mem_ptr, CMap.NULL.
    assert ((Z.of_nat a + 1 =? 0) = false) as -> by (apply Z.eqb_neq; lia).
    split; [done|]. simpl. rewrite length_app. simpl.
    split; [lia|]. split; [|split; [done|split; [done|lia]]].
    apply Forall_app. split.
    + eapply printable_all_mono; [| |exact Hpr]; lia.
    + repeat constructor; simpl; [lia|]. lia.
  - by apply IH.
  - apply andb_prop in He as [Hel Her]. simpl.
    match goal with |- context [walk uninit l ?t] =>
      destruct (IHl Hel t) as (vl & s2 & Hwl & Hvl & Hp2 & Hlv2 & Hm2 & Hlen2) end.
    { destruct Hsc as [Hp Hsc]. split; [done|]. exact Hsc. }
    { simpl. rewrite length_app. eapply printable_all_mono; [| |exact Hpr]; lia. }
    destruct (IHr Her s2) as (vr & s3 & Hwr & Hvr & Hp3 & Hlv3 & Hm3 & Hlen3).
    { destruct Hsc as [Hp Hsc]. split; [by rewrite Hlv2|]. intros x Hx.
      destruct (Hsc x Hx) as (a & Hget & Ha). exists a. by rewrite Hlv2, Hm2. }
    { done. }
    rewrite Hwl. simpl. rewrite Hwr. simpl. eexists _, _. split; [done|].
    simpl in *. rewrite length_app in Hlen2. simpl in Hlen2.
    split; [lia|]. split; [|split; [congruence|split; [congruence|lia]]].
    apply Forall_app. split; [done|]. repeat constructor; simpl; [lia| |done].
    destruct vl; [lia|done].
  - apply andb_prop in He as [Hel Her]. simpl.
    match goal with |- context [walk uninit l ?t] =>
      destruct (IHl Hel t) as (vl & s2 & Hwl & Hvl & Hp2 & Hlv2 & Hm2 & Hlen2) end.
    { destruct Hsc as [Hp Hsc]. split; [done|]. exact Hsc. }
    { simpl. rewrite length_app. eapply printable_all_mono; [| |exact Hpr]; lia. }
    destruct (IHr Her s2) as (vr & s3 & Hwr & Hvr & Hp3 & Hlv3 & Hm3 & Hlen3).
    { destruct Hsc as [Hp Hsc]. split; [by rewrite Hlv2|]. intros x Hx.
      destruct (Hsc x Hx) as (a & Hget & Ha). exists a. by rewrite Hlv2, Hm2. }
    { done. }
    rewrite Hwl. simpl. rewrite Hwr. simpl. eexists _, _. split; [done|].
    simpl in *. rewrite length_app in Hlen2. simpl in Hlen2.
    split; [lia|]. split; [|split; [congruence|split; [congruence|lia]]].
    apply Forall_app. split; [done|]. repeat constructor; simpl; [lia| |done].
    destruct vl; [lia|done].
  - subst k. eexists _, _. simpl. repeat split; done.
Qed.

(** The same for an expression used as a statement. *)
Lemma walk_expr_stmt (uninit : Z -> Z * bool) (env : list string) (node : Node) (s : State) :
  is_expr env node = true -> scope_ok env s ->
  Forall (printable (length (vars s)) (length (mems s))) (insts s) ->
  exists (r : option Var) (s' : State),
    walk uninit node s = Some (r, s') /\ scope_ok env s'
    /\ Forall (printable (length (vars s')) (length (mems s'))) (insts s').
Proof.
  intros He Hsc Hpr.
  destruct (walk_expr uninit env node He s Hsc Hpr) as (v & s' & Hw & _ & Hp & Hlv & Hm & _).
  exists (Some v), s'. split; [done|]. split; [|done].
  destruct Hsc as [Hpo Hsc]. split; [by rewrite Hlv|]. intros x Hx.
  destruct (Hsc x Hx) as (a & Hget & Ha). exists a. by rewrite Hlv, Hm.
Qed.

(** [walk] returns for a statement that uses declared names only. *)
Lemma walk_stmt (uninit : Z -> Z * bool) (node : Node) :
  forall (env env' : list string) (s : State),
    stmt_ok env node = Some env' -> scope_ok env s ->
    Forall (printable (length (vars s)) (length (mems s))) (insts s) ->
    exists (r : option Var) (s' : State),
      walk uninit node s = Some (r, s') /\ scope_ok env' s'
      /\ Forall (printable (length (vars s')) (length (mems s'))) (insts s').
Proof.
  induction node as [fname body IH|ty_size varname declinit IH|varname|stmts IH
                    |retval IH|operand IH|l r IHl IHr|l r IHl IHr|k i|]
    using Node_nested_ind; intros env env' s Hok Hsc Hpr; try done.
  - (* a declaration *)
    destruct Hsc as [Hpo Hsc].
    destruct (map_put_spec (lvars s) varname (mem_ptr (length (mems s))))
      as (lv & Hput & _); [by apply reachable_inv, puts_only_reachable|].
    destruct (puts_only_put _ _ _ _ Hpo Hput) as (Hpo1 & Hgx & Hpar & Hgo).
    set (s2 := set_lvars lv (alloc (Z.max ty_size 8) s).2).
    assert (scope_ok (varname :: env) s2) as Hsc2.
    { split; [done|]. intros x Hx. simpl. rewrite length_app. simpl.
      destruct (decide (x = varname)) as [->|Hne].
      - exists (length (mems s)). split; [|lia].
        rewrite map_get_unfold, Hgx. simpl. unfold mem_ptr, CMap.NULL.
        by assert ((Z.of_nat (length (mems s)) + 1 =? 0) = false) as ->
          by (apply Z.eqb_neq; lia).
      - apply elem_of_cons in Hx as [?|Hx]; [done|].
        destruct (Hsc x Hx) as (a & Hget & Ha). exists a. split; [|lia].
        by rewrite (Hgo x Hne). }
    assert (Forall (printable (length (vars s2)) (length (mems s2))) (insts s2)) as Hpr2.
    { simpl. rewrite length_app. eapply printable_all_mono; [| |exact Hpr]; lia. }
    simpl in Hok. simpl walk. rewrite Hput. simpl. fold s2.
    destruct declinit as [|init more].
    + injection Hok as <-. by exists None, s2.
    + destruct (is_expr (varname :: env) init) eqn:He; [|done]. injection Hok as <-.
      destruct (walk_expr uninit _ init He s2 Hsc2 Hpr2)
        as (v & s3 & Hw & Hv & Hp3 & Hlv3 & Hm3 & Hlen3).
      pose proof Hw as Hw'. unfold s2 in Hw'. simpl in Hw'. rewrite Hw'.
      simpl. eexists _, _. split; [done|]. split.
      * destruct Hsc2 as [? Hsc2]. split; [simpl; by rewrite Hlv3|]. intros x Hx.
        destruct (Hsc2 x Hx) as (a & Hget & Ha). exists a. simpl. by rewrite Hlv3, Hm3.
      * simpl. apply Forall_app. split; [done|]. repeat constructor; simpl; [|done].
        rewrite Hm3. simpl. rewrite length_app. simpl. lia.
  - simpl in Hok. destruct (bool_decide (varname ∈ env)) eqn:He; [|done].
    injection Hok as <-. by apply (walk_expr_stmt uninit env (AST_LVAR varname)).
  - (* a block *)
    simpl in Hok. simpl walk.
    assert (exists s', (fix loop (body : list Node) (s0 : State) {struct body} : option State :=
                          match body with
                          | [] => Some s0
                          | n :: body' => walk uninit n s0 ≫= λ '(_, s1), loop body' s1
                          end) stmts s = Some s'
              /\ scope_ok env' s'
              /\ Forall (printable (length (vars s')) (length (mems s'))) (insts s'))
      as (s' & -> & Hsc' & Hpr').
    { revert env s Hok Hsc Hpr.
      induction IH as [|n rest Hn _ IHrest]; intros env s Hok Hsc Hpr.
      - injection Hok as <-. by exists s.
      - apply bind_Some in Hok as (env1 & Hok1 & Hok).
        destruct (Hn env env1 s Hok1 Hsc Hpr) as (r1 & s1 & Hw & Hsc1 & Hpr1).
        rewrite Hw. simpl. by apply (IHrest env1). }
    by exists None, s'.
  - (* return *)
    simpl in Hok. destruct (is_expr env retval) eqn:He; [|done]. injection Hok as <-.
    destruct (walk_expr uninit env retval He s Hsc Hpr)
      as (v & s1 & Hw & Hv & Hp1 & Hlv1 & Hm1 & Hlen1).
    simpl. rewrite Hw. simpl. eexists _, _. split; [done|]. split.
    + destruct Hsc as [? Hsc]. split; [simpl; by rewrite Hlv1|]. intros x Hx.
      destruct (Hsc x Hx) as (a & Hget & Ha). exists a. simpl. by rewrite Hlv1, Hm1.
    + simpl. apply Forall_app. split; [done|]. by repeat constructor.
  - simpl in Hok. destruct (is_expr env operand) eqn:He; [|done]. injection Hok as <-.
    by apply (walk_expr_stmt uninit env (AST_CONV operand)).
  - simpl in Hok. destruct (is_expr env l && is_expr env r) eqn:He; [|done].
    injection Hok as <-. by apply (walk_expr_stmt uninit env (AST_ADD l r)).
  - simpl in Hok. destruct (is_expr env l && is_expr env r) eqn:He; [|done].
    injection Hok as <-. by apply (walk_expr_stmt uninit env (AST_MUL l r)).
  - simpl in Hok. destruct k; [|done]. injection Hok as <-.
    by apply (walk_expr_stmt uninit env (AST_LITERAL true i)).
Qed.

(** *** The emitter returns *)

Lemma ready_write (nv nm : nat) (line : string) (s : State) :
  ready nv nm s -> ready nv nm (write line s).
Proof. done. Qed.

Lemma regname_ready (nv nm : nat) (v : nat) (s : State) :
  ready nv nm s -> (v < nv)%nat ->
  exists reg s', regname v s = Some (Some reg, s') /\ ready nv nm s'.
Proof.
  intros (Hv & Hm & l & Hslots & Hinv) Hlt. subst nv.
  destruct (regname_step s l v Hslots Hinv Hlt)
    as (reg & l' & _ & Hinv' & _ & _ & [[Hrun _]|Hevict]).
  - exists reg. eexists. split; [exact Hrun|]. repeat split; try done. by exists l'.
  - destruct Hevict as (l0 & w & wc & c & -> & _ & _ & _ & _ & -> & Hrun).
    exists reg. eexists. split; [exact Hrun|]. repeat split; try done.
    + simpl. by rewrite length_insert.
    + by exists ((v, reg) :: l0).
Qed.

Lemma str_ready (nv nm : nat) (a : arg) (s : State) :
  ready nv nm s -> val_arg nv a ->
  exists x s', str a s = Some (x, s') /\ ready nv nm s'.
Proof.
  intros Hr Ha. destruct a as [| |[v|val]]; simpl in *; try done.
  - destruct (regname_ready nv nm v s Hr Ha) as (reg & s' & -> & Hr').
    simpl. by eexists _, _.
  - by eexists _, _.
Qed.

Lemma str2_ready (ltr : bool) (nv nm : nat) (a b : arg) (s : State) :
  ready nv nm s -> val_arg nv a -> val_arg nv b ->
  exists x y s', str2 ltr a b s = Some (x, y, s') /\ ready nv nm s'.
Proof.
  intros Hr Ha Hb. unfold str2. destruct ltr.
  - destruct (str_ready nv nm a s Hr Ha) as (x & s1 & -> & Hr1). simpl.
    destruct (str_ready nv nm b s1 Hr1 Hb) as (y & s2 & -> & Hr2). simpl.
    by eexists _, _, _.
  - destruct (str_ready nv nm b s Hr Hb) as (y & s1 & -> & Hr1). simpl.
    destruct (str_ready nv nm a s1 Hr1 Ha) as (x & s2 & -> & Hr2). simpl.
    by eexists _, _, _.
Qed.

Lemma print_inst_ready (ltr : bool) (nv nm : nat) (i : Inst) (s : State) :
  ready nv nm s -> printable nv nm i ->
  exists s', print_inst ltr i s = Some s' /\ ready nv nm s'.
Proof.
  intros Hr Hi. unfold printable in Hi. unfold print_inst. destruct (kind i); try done.
  - destruct Hi as (H1 & H2 & H3).
    destruct (str2_ready ltr nv nm _ _ s Hr H2 H1) as (x & y & s1 & -> & Hr1). simpl.
    match goal with |- context [str2 ltr (arg3 i) (arg1 i) ?t] =>
      destruct (str2_ready ltr nv nm (arg3 i) (arg1 i) t) as (x' & y' & s3 & -> & Hr3);
        [by apply ready_write|done|done|] end.
    simpl. eexists. split; [done|]. by apply ready_write.
  - destruct Hi as (H1 & H2 & H3).
    destruct (str2_ready ltr nv nm _ _ s Hr H2 H1) as (x & y & s1 & -> & Hr1). simpl.
    match goal with |- context [str2 ltr (arg3 i) (arg1 i) ?t] =>
      destruct (str2_ready ltr nv nm (arg3 i) (arg1 i) t) as (x' & y' & s3 & -> & Hr3);
        [by apply ready_write|done|done|] end.
    simpl. eexists. split; [done|]. by apply ready_write.
  - destruct (str_ready nv nm _ s Hr Hi) as (x & s1 & -> & Hr1). simpl.
    eexists. split; [done|]. by do 2 apply ready_write.
  - destruct Hi as [H1 H2]. destruct (arg2 i) as [|a|]; try done. simpl in H2.
    destruct Hr as (Hv & Hm & Hc).
    destruct (lookup_lt_is_Some_2 (mems s) a) as [rhs ->]; [lia|]. simpl.
    destruct (str_ready nv nm _ s (conj Hv (conj Hm Hc)) H1) as (x & s1 & -> & Hr1). simpl.
    eexists. split; [done|]. by apply ready_write.
  - destruct Hi as [H1 H2]. destruct (arg1 i) as [|a|]; try done. simpl in H1.
    destruct Hr as (Hv & Hm & Hc).
    destruct (lookup_lt_is_Some_2 (mems s) a) as [lhs ->]; [lia|]. simpl.
    destruct (str_ready nv nm _ s (conj Hv (conj Hm Hc)) H2) as (x & s1 & -> & Hr1). simpl.
    eexists. split; [done|]. by apply ready_write.
Qed.

Lemma print_insts_ready (ltr : bool) (nv nm : nat) (l : list Inst) :
  Forall (printable nv nm) l ->
  forall s, ready nv nm s -> exists s', print_insts ltr l s = Some s' /\ ready nv nm s'.
Proof.
  induction 1 as [|i l Hi _ IH]; intros s Hr; simpl; [by exists s|].
  destruct (print_inst_ready ltr nv nm i s Hr Hi) as (s1 & -> & Hr1). simpl. by apply IH.
Qed.

(** X20.  The code generator returns on every well-formed function.  If
    the body of a function is a statement in which no name is used
    before its declaration, in the order [walk] visits the nodes, made
    of declarations with or without an initialiser, blocks, returns and
    expressions over names, conversions, sums, products and [int]
    literals, then [codegen], started from the initial state, returns:
    no [assert] fails, [error] is not called and no array or list is
    read out of its range, whatever the evaluation order of the
    arguments and whatever [malloc] left in the cells. *)
Theorem codegen_returns (ltr : bool) (uninit : Z -> Z * bool) (fname : string)
    (body : Node) (env : list string) :
  stmt_ok [] body = Some env ->
  exists s', codegen ltr uninit [AST_FUNC fname body] init_state = Some s'.
Proof.
  intros Hok.
  destruct (walk_stmt uninit body [] env init_state Hok) as (r & s & Hw & _ & Hpr).
  { split.
    - exists EMPTY_MAP, []. split; [apply fresh_empty|]. split; [constructor|done].
    - intros x Hx. by apply elem_of_nil in Hx. }
  { constructor. }
  pose proof (walk_reg2var uninit body _ _ _ Hw) as Hreg.
  unfold codegen, translate. rewrite Hw. simpl. unfold compile, print. simpl.
  set (f := mkFunc fname (insts s)).
  destruct (compile_head_frame f s) as (Hm0 & Hv0 & _).
  assert (length (vars (compile_head f s)) = length (vars s)) as Hlen.
  { rewrite Hv0. apply regalloc_loop_length. }
  destruct (print_insts_ready ltr (length (vars s)) (length (mems s)) (insts s) Hpr
              (compile_head f s)) as (s1 & -> & _).
  { split; [done|]. split; [by rewrite Hm0|]. exists []. split; [|apply cache_inv_nil].
    unfold compile_head, regalloc. destruct (regalloc_loop (vars s) (offset s)).
    simpl. by rewrite Hreg. }
  simpl. by eexists.
Qed.

Lemma codegen_returns_witness :
  stmt_ok [] (AST_COMPOUND_STMT
     [AST_DECL 4 "a" [AST_LITERAL true 1];
      AST_RETURN
        (AST_ADD (AST_ADD (AST_ADD (AST_LVAR "a") (AST_LVAR "a")) (AST_LVAR "a"))
                 (AST_LVAR "a"))]) = Some ["a"%string]
  /\ exists s', codegen true stale_flag seven_values init_state = Some s'.
Proof.
  split; [reflexivity|].
  apply (codegen_returns true stale_flag "f" _ ["a"%string]). reflexivity.
Defined.

(** ** codegen.c: the cache holds the values used last *)

Lemma filter_other_notin (v : nat) (l : list nat) :
  v ∉ l -> filter (λ x, x <> v) l = l.
Proof.
  induction l as [|x l IH]; intros Hv; [done|].
  apply not_elem_of_cons in Hv as [Hne Hv].
  rewrite filter_cons_True by done. by rewrite IH.
Qed.

Lemma delete_filter_NoDup (v : nat) (l : list nat) :
  forall i : nat, NoDup l -> l !! i = Some v -> delete i l = filter (λ x, x <> v) l.
Proof.
  induction l as [|x l IH]; intros i Hnd Hi; [done|].
  apply NoDup_cons in Hnd as [Hx Hnd]. destruct i as [|i]; simpl in Hi.
  - injection Hi as ->. simpl. rewrite filter_cons_False by tauto.
    by rewrite filter_other_notin.
  - assert (x <> v) as Hne.
    { intros ->. apply Hx. by eapply list_elem_of_lookup_2. }
    simpl. rewrite filter_cons_True by done. by rewrite (IH i).
Qed.

Lemma remove_dups_snoc (v : nat) (vs : list nat) :
  remove_dups (vs ++ [v]) = filter (λ x, x <> v) (remove_dups vs) ++ [v].
Proof.
  induction vs as [|x vs IH]; [done|]. simpl. rewrite IH.
  destruct (decide (x = v)) as [->|Hne].
  - destruct (decide_rel elem_of v (vs ++ [v])) as [_|Hout].
    2: { exfalso. apply Hout, elem_of_app. right. left. }
    destruct (decide_rel elem_of v vs); [done|].
    by rewrite filter_cons_False by tauto.
  - destruct (decide_rel elem_of x vs) as [Hin|Hout].
    + destruct (decide_rel elem_of x (vs ++ [v])) as [_|Hout]; [done|].
      exfalso. apply Hout, elem_of_app. by left.
    + destruct (decide_rel elem_of x (vs ++ [v])) as [Hin|_].
      * apply elem_of_app in Hin as [Hin|Hin]; [done|].
        apply list_elem_of_singleton in Hin. done.
      * by rewrite filter_cons_True by done.
Qed.

Lemma take_filter_other (v : nat) (l : list nat) :
  NoDup l ->
  forall n : nat,
    take n (filter (λ x, x <> v) (take (S n) l)) = take n (filter (λ x, x <> v) l).
Proof.
  induction 1 as [|x l Hx Hnd IH]; intros n; [done|].
  destruct n as [|n]; [done|]. simpl take at 2.
  destruct (decide (x = v)) as [->|Hne].
  - rewrite !filter_cons_False by tauto.
    rewrite (filter_other_notin v l) by done.
    rewrite filter_other_notin; [by rewrite take_take, Nat.min_id|].
    intros Hin. apply Hx. eapply elem_of_sublist; [exact Hin|]. apply sublist_take.
  - rewrite !filter_cons_True by done. simpl. by rewrite IH.
Qed.

Lemma recently_used_snoc (vs : list nat) (v : nat) :
  recently_used (vs ++ [v])
  = take NUMREGS (v :: filter (λ x, x <> v) (recently_used vs)).
Proof.
  unfold recently_used. rewrite remove_dups_snoc, reverse_snoc.
  rewrite <- filter_reverse. unfold NUMREGS. simpl. f_equal.
  rewrite take_filter_other; [done|]. rewrite reverse_Permutation. apply NoDup_remove_dups.
Qed.

(** One call of [regname] on a well-formed cache: the value moves to the
    front, the others keep their order, and with the cache full and the
    value not in it the last one leaves, with a spill; nothing else is
    written or marked. *)
Lemma regname_order (s : State) (l : list (nat * string)) (v : nat) :
  reg2var s = slots_of l -> cache_inv (length (vars s)) l -> (v < length (vars s))%nat ->
  exists reg s',
    regname v s = Some (Some reg, s')
    /\ cached_vars s' = take NUMREGS (v :: filter (λ x, x <> v) (cached_vars s))
    /\ ((v ∈ cached_vars s \/ (length (cached_vars s) < NUMREGS)%nat)
        /\ out s' = out s /\ vars s' = vars s
        \/ (v ∉ cached_vars s) /\ length (cached_vars s) = NUMREGS
           /\ exists w wc c,
                last (cached_vars s) = Some w
                /\ vars s !! w = Some wc /\ vars s !! v = Some c
                /\ out s' = out s ++ [spill_line reg (v_off wc)]
                              ++ (if v_spilled c then [load_line reg (v_off c)] else [])
                /\ vars s' = <[w := set_spilled wc]> (vars s)
                /\ (w ∉ cached_vars s')).
Proof.
  intros Hslots Hinv Hv. pose proof (cache_inv_length _ _ Hinv) as Hlen.
  assert (cached_vars s = l.*1) as Hc.
  { unfold cached_vars. by rewrite Hslots, omap_slots_of. }
  rewrite Hc. destruct Hinv as (Hnd & Hsub & Hregs).
  destruct (decide (v ∈ l.*1)) as [Hin|Hnew].
  - pose proof Hin as Hin'.
    apply list_elem_of_fmap in Hin as ([v' reg] & Hv' & Hb). simpl in Hv'. subst v'.
    apply list_elem_of_lookup in Hb as [i Hi].
    exists reg. eexists. split; [|split].
    + apply (regname_cached s l v) with (i := i); try done.
      intros j b Hj Hbj Heq.
      assert (j = i); [|lia].
      apply (NoDup_lookup _ _ _ v Hnd); rewrite list_lookup_fmap.
      * by rewrite Hbj; simpl; rewrite Heq.
      * by rewrite Hi.
    + rewrite cached_vars_slots. simpl.
      assert (l.*1 !! i = Some v) as Hiv by (by rewrite list_lookup_fmap, Hi).
      rewrite <- (delete_filter_NoDup v _ i Hnd Hiv).
      rewrite take_ge.
      * f_equal. clear. revert i. induction l as [|b l IH]; intros [|i]; simpl; try done.
        by rewrite IH.
      * simpl. rewrite (delete_filter_NoDup v _ i Hnd Hiv).
        pose proof (length_filter (λ x, x <> v) l.*1) as Hf.
        assert (length (filter (λ x, x <> v) l.*1) < length l.*1)%nat; [|
          rewrite length_fmap in *; unfold NUMREGS in *; lia].
        rewrite <- (delete_filter_NoDup v _ i Hnd Hiv), length_delete by done.
        apply lookup_lt_Some in Hiv. lia.
    + left. split; [by left|]. done.
  - destruct (decide (length l < NUMREGS)%nat) as [Hroom|Hfull].
    + destruct (lookup_lt_is_Some_2 regs (length l)) as [reg Hreg]; [done|].
      exists reg. eexists. split; [by apply regname_empty|]. split.
      * rewrite cached_vars_slots. simpl. rewrite filter_other_notin by done.
        rewrite take_ge; [done|]. simpl. rewrite length_fmap. unfold NUMREGS in *. lia.
      * left. split; [right; by rewrite length_fmap|done].
    + assert (length l = NUMREGS) as Hl by lia.
      destruct l as [|b0 l1] using rev_ind; [done|]. clear IHl1.
      destruct b0 as [w reg]. rename l1 into l0.
      rewrite length_app in Hl. simpl in Hl.
      assert (length l0 = (NUMREGS - 1)%nat) as Hl0 by (unfold NUMREGS in *; lia).
      assert (w < length (vars s))%nat as Hw.
      { apply Hsub. rewrite fmap_app. apply elem_of_app. right. simpl. left. }
      destruct (lookup_lt_is_Some_2 _ _ Hw) as [wc Hwc].
      destruct (lookup_lt_is_Some_2 _ _ Hv) as [c Hcv].
      exists reg. eexists. split; [by apply regname_evict|].
      assert (cached_vars (evicted s ((v, reg) :: l0) w wc reg c) = v :: l0.*1) as Hc'.
      { unfold cached_vars, evicted. cbn [reg2var set_reg2var]. by rewrite omap_slots_of. }
      rewrite Hc'. rewrite fmap_app in *. simpl in *. split.
      * rewrite filter_other_notin by done. unfold NUMREGS in *. simpl. f_equal.
        rewrite take_app_length'; [done|]. by rewrite length_fmap.
      * right. split; [done|]. split.
        { rewrite length_app, length_fmap. simpl. unfold NUMREGS in *. lia. }
        exists w, wc, c. rewrite last_snoc. repeat split; try done.
        intros [->|Hin]%elem_of_cons.
        -- apply Hnew, elem_of_app. right. left.
        -- apply NoDup_app in Hnd as (_ & Hdisj & _). apply (Hdisj _ Hin). left.
Qed.

Lemma resolve_all_snoc (vs : list nat) (v : nat) :
  forall s, resolve_all (vs ++ [v]) s
            = (s1 ← resolve_all vs s; '(_, s2) ← regname v s1; Some s2).
Proof.
  induction vs as [|x vs IH]; intros s; simpl.
  - by destruct (regname v s) as [[r s1]|].
  - destruct (regname x s) as [[r s1]|]; [|done]. simpl. apply IH.
Qed.

(** From the empty cache, the cache holds the values used last, the one
    used last first. *)
Lemma resolve_all_order (s : State) (vs : list nat) :
  reg2var s = reg2var init_state ->
  Forall (λ x, (x < length (vars s))%nat) vs ->
  exists s1 l,
    resolve_all vs s = Some s1 /\ reg2var s1 = slots_of l
    /\ cache_inv (length (vars s1)) l /\ length (vars s1) = length (vars s)
    /\ cached_vars s1 = recently_used vs.
Proof.
  intros Hinit. induction vs as [|v vs IH] using rev_ind; intros Hvs.
  { exists s, []. split; [done|]. split; [done|]. split; [apply cache_inv_nil|].
    split; [done|]. unfold cached_vars. by rewrite Hinit. }
  apply Forall_app in Hvs as [Hvs Hv]. apply Forall_inv in Hv.
  destruct (IH Hvs) as (s1 & l & Hrun & Hslots & Hinv & Hn & Hc).
  rewrite <- Hn in Hv.
  destruct (regname_step s1 l v Hslots Hinv Hv)
    as (reg & l' & _ & Hinv' & _ & _ & Hcase).
  destruct (regname_order s1 l v Hslots Hinv Hv) as (reg' & s2 & Hrun2 & Hc2 & _).
  assert (reg2var s2 = slots_of l' /\ length (vars s2) = length (vars s1)) as [Hs2 Hn2].
  { destruct Hcase as [[Hrun' _]|(l0 & w & wc & c & _ & _ & _ & _ & _ & -> & Hrun')];
      rewrite Hrun' in Hrun2; injection Hrun2 as _ <-; [done|].
    split; [done|]. simpl. by rewrite length_insert. }
  exists s2, l'. rewrite resolve_all_snoc, Hrun. simpl. rewrite Hrun2. simpl.
  split; [done|]. split; [done|]. split; [by rewrite Hn2|]. split; [lia|].
  by rewrite Hc2, Hc, recently_used_snoc.
Qed.

(** C6.  The cache evicts the value used least recently, always.  Start
    from the empty cache and resolve any values [vs], in any order and
    as often as one likes, then a value [v].  After [vs] the cache holds
    [recently_used vs]: the six values used last, the one used last
    first.  If [v] is among them, or there are fewer than six, resolving
    [v] writes nothing and marks nothing.  Otherwise it evicts [w], the
    last of them, which is the value whose last use lies furthest back,
    and no other: it writes the spill of [w]'s register to [w]'s offset
    (followed by a load if [v]'s [spilled] member is set), marks [w]
    spilled, and [w] is no longer cached.  Either way the cache then
    holds [recently_used (vs ++ [v])].  So of seven values resolved in
    the order [v1 .. v7] the first is evicted when the seventh is
    resolved, and a value resolved again in between is not the one
    evicted. *)
Theorem lru_evicts_least_recent (s : State) (vs : list nat) (v : nat) :
  reg2var s = reg2var init_state ->
  Forall (λ x, (x < length (vars s))%nat) vs -> (v < length (vars s))%nat ->
  exists s1 reg s2,
    resolve_all vs s = Some s1 /\ cached_vars s1 = recently_used vs
    /\ regname v s1 = Some (Some reg, s2)
    /\ cached_vars s2 = recently_used (vs ++ [v])
    /\ ((v ∈ recently_used vs \/ (length (recently_used vs) < NUMREGS)%nat)
        /\ out s2 = out s1 /\ vars s2 = vars s1
        \/ (v ∉ recently_used vs) /\ length (recently_used vs) = NUMREGS
           /\ exists w wc c,
                last (recently_used vs) = Some w
                /\ vars s1 !! w = Some wc /\ vars s1 !! v = Some c
                /\ out s2 = out s1 ++ [spill_line reg (v_off wc)]
                              ++ (if v_spilled c then [load_line reg (v_off c)] else [])
                /\ vars s2 = <[w := set_spilled wc]> (vars s1)
                /\ (w ∉ cached_vars s2)).
Proof.
  intros Hinit Hvs Hv.
  destruct (resolve_all_order s vs Hinit Hvs) as (s1 & l & Hrun & Hslots & Hinv & Hn & Hc).
  rewrite <- Hn in Hv.
  destruct (regname_order s1 l v Hslots Hinv Hv) as (reg & s2 & Hrun2 & Hc2 & Hcase).
  exists s1, reg, s2. split; [done|]. split; [done|]. split; [done|].
  rewrite Hc in Hc2, Hcase. split; [by rewrite recently_used_snoc|done].
Qed.

Lemma lru_evicts_least_recent_witness :
  let s := set_vars ((λ i, mkVar i (- 8 * i) false) <$> [1; 2; 3; 4; 5; 6; 7]) init_state in
  reg2var s = reg2var init_state /\ length (vars s) = 7%nat
  /\ recently_used [0; 1; 2; 3; 4; 5; 0; 3]%nat = [3; 0; 5; 4; 2; 1]%nat
  /\ exists s1 reg s2,
    resolve_all [0; 1; 2; 3; 4; 5; 0; 3]%nat s = Some s1
    /\ cached_vars s1 = recently_used [0; 1; 2; 3; 4; 5; 0; 3]%nat
    /\ regname 6 s1 = Some (Some reg, s2)
    /\ cached_vars s2 = recently_used ([0; 1; 2; 3; 4; 5; 0; 3] ++ [6])%nat
    /\ ((6%nat ∈ recently_used [0; 1; 2; 3; 4; 5; 0; 3]%nat
         \/ (length (recently_used [0; 1; 2; 3; 4; 5; 0; 3]%nat) < NUMREGS)%nat)
        /\ out s2 = out s1 /\ vars s2 = vars s1
        \/ (6%nat ∉ recently_used [0; 1; 2; 3; 4; 5; 0; 3]%nat)
           /\ length (recently_used [0; 1; 2; 3; 4; 5; 0; 3]%nat) = NUMREGS
           /\ exists w wc c,
                last (recently_used [0; 1; 2; 3; 4; 5; 0; 3]%nat) = Some w
                /\ vars s1 !! w = Some wc /\ vars s1 !! 6%nat = Some c
                /\ out s2 = out s1 ++ [spill_line reg (v_off wc)]
                              ++ (if v_spilled c then [load_line reg (v_off c)] else [])
                /\ vars s2 = <[w := set_spilled wc]> (vars s1)
                /\ (w ∉ cached_vars s2)).
Proof.
  intros s. split; [reflexivity|]. split; [reflexivity|].
  split; [vm_compute; reflexivity|].
  apply (lru_evicts_least_recent s [0; 1; 2; 3; 4; 5; 0; 3]%nat 6).
  - reflexivity.
  - repeat constructor; simpl; lia.
  - simpl. lia.
Defined.
